(** * The event package of tsuru: running events as per-target locks

    A shallow embedding of [event/event.go].  An event is a document of the
    [events] collection.  While it runs, its [_id] is the target it acts on,
    so the collection's primary key is the lock; when it is done, it is
    stored again under a fresh ObjectId as a historical document.

    The Go code talks to three things outside the package: the database
    (package [db], over mgo), the wall clock ([time.Now]) and the goroutine
    of the lock updater.  All three live in a [World] that every operation
    receives and returns.  The database is sequential here: one process, one
    call at a time.  What the clock reads and which database calls fail for
    reasons of their own are fixed by two oracles of the world, so the model
    runs on concrete inputs and the theorems quantify over all oracles. *)

From Stdlib Require Import ZArith NArith Ascii String List Bool Arith Lia.
From Stdlib Require Import Permutation Sorted.
Import ListNotations.

Local Open Scope string_scope.
Local Open Scope list_scope.

(** ** Time *)

(** A [time.Time] is an instant, counted in nanoseconds from the zero
    [Time]; a [time.Duration] is a signed 64-bit count of nanoseconds.
    Documents come back from the store with the instants they were stored
    with. *)
Definition Time := Z.
Definition Duration := Z.

Definition Time_zero : Time := 0%Z.
Definition Second : Duration := 1000000000%Z.
Definition Minute : Duration := (60 * Second)%Z.

Definition minDuration : Duration := (- 2 ^ 63)%Z.
Definition maxDuration : Duration := (2 ^ 63 - 1)%Z.

Definition Time_Add (t : Time) (d : Duration) : Time := (t + d)%Z.

(** [t.After(u)] *)
Definition Time_After (t u : Time) : bool := (u <? t)%Z.

(** [t.Sub(u)]: the difference, saturated to the range of a [Duration]. *)
Definition Time_Sub (t u : Time) : Duration :=
  let d := (t - u)%Z in
  if (d <? minDuration)%Z then minDuration
  else if (maxDuration <? d)%Z then maxDuration
  else d.

(** The package variables. *)
Definition lockUpdateInterval : Duration := (30 * Second)%Z.
Definition lockExpireTimeout : Duration := (5 * Minute)%Z.

(** ** Data *)

(** An [interface{}] holding custom data: [nil] or an opaque payload. *)
Definition any := option string.

(** A [bson.ObjectId] is a string: [None] is the empty one, [Some n] is
    the [n]-th id handed out by [bson.NewObjectId]. *)
Definition ObjectId := option nat.

Module Target.
Record t := mk { Name : string; Value : string }.

Definition zero : t := mk "" "".

Definition eqb (a b : t) : bool :=
  String.eqb (Name a) (Name b) && String.eqb (Value a) (Value b).

Definition IsValid (id : t) : bool :=
  negb (String.eqb (Name id) "") && negb (String.eqb (Value id) "").
End Target.

(** What an [_id] looks like in the collection: the document
    [{name, value}] of a target, or an ObjectId. *)
Inductive Key :=
| KDoc (t : Target.t)
| KOid (n : nat).

Definition Key_eqb (a b : Key) : bool :=
  match a, b with
  | KDoc s, KDoc t => Target.eqb s t
  | KOid m, KOid n => Nat.eqb m n
  | _, _ => false
  end.

Module eventId.
Record t := mk { target : Target.t; objId : ObjectId }.

Definition zero : t := mk Target.zero None.

(** [func (id eventId) GetBSON()] *)
Definition GetBSON (id : t) : Key :=
  match objId id with
  | Some n => KOid n
  | None => KDoc (target id)
  end.

(** [func (id *eventId) SetBSON(raw)], on a zero [eventId]. *)
Definition SetBSON (k : Key) : t :=
  match k with
  | KDoc tg => mk tg None
  | KOid n => mk Target.zero (Some n)
  end.
End eventId.

Module cancelInfo.
Record t := mk {
  Owner : string;
  StartTime : Time;
  AckTime : Time;
  Reason : string;
  Asked : bool;
  Canceled : bool
}.

Definition zero : t := mk "" Time_zero Time_zero "" false false.
End cancelInfo.

Module eventData.
Record t := mk {
  ID : eventId.t;
  StartTime : Time;
  EndTime : Time;
  Target : Target.t;
  StartCustomData : any;
  EndCustomData : any;
  Kind : string;
  Owner : string;
  Cancelable : bool;
  Running : bool;
  LockUpdateTime : Time;
  Error : string;
  Log : string;
  CancelInfo : cancelInfo.t
}.

Definition zero : t :=
  mk eventId.zero Time_zero Time_zero Target.zero None None "" "" false false
     Time_zero "" "" cancelInfo.zero.

Definition set_ID (x : eventId.t) (d : t) : t :=
  mk x (StartTime d) (EndTime d) (Target d) (StartCustomData d)
     (EndCustomData d) (Kind d) (Owner d) (Cancelable d) (Running d)
     (LockUpdateTime d) (Error d) (Log d) (CancelInfo d).

Definition set_EndTime (x : Time) (d : t) : t :=
  mk (ID d) (StartTime d) x (Target d) (StartCustomData d)
     (EndCustomData d) (Kind d) (Owner d) (Cancelable d) (Running d)
     (LockUpdateTime d) (Error d) (Log d) (CancelInfo d).

Definition set_EndCustomData (x : any) (d : t) : t :=
  mk (ID d) (StartTime d) (EndTime d) (Target d) (StartCustomData d)
     x (Kind d) (Owner d) (Cancelable d) (Running d)
     (LockUpdateTime d) (Error d) (Log d) (CancelInfo d).

Definition set_Running (x : bool) (d : t) : t :=
  mk (ID d) (StartTime d) (EndTime d) (Target d) (StartCustomData d)
     (EndCustomData d) (Kind d) (Owner d) (Cancelable d) x
     (LockUpdateTime d) (Error d) (Log d) (CancelInfo d).

Definition set_LockUpdateTime (x : Time) (d : t) : t :=
  mk (ID d) (StartTime d) (EndTime d) (Target d) (StartCustomData d)
     (EndCustomData d) (Kind d) (Owner d) (Cancelable d) (Running d)
     x (Error d) (Log d) (CancelInfo d).

Definition set_Error (x : string) (d : t) : t :=
  mk (ID d) (StartTime d) (EndTime d) (Target d) (StartCustomData d)
     (EndCustomData d) (Kind d) (Owner d) (Cancelable d) (Running d)
     (LockUpdateTime d) x (Log d) (CancelInfo d).

Definition set_Log (x : string) (d : t) : t :=
  mk (ID d) (StartTime d) (EndTime d) (Target d) (StartCustomData d)
     (EndCustomData d) (Kind d) (Owner d) (Cancelable d) (Running d)
     (LockUpdateTime d) (Error d) x (CancelInfo d).

Definition set_CancelInfo (x : cancelInfo.t) (d : t) : t :=
  mk (ID d) (StartTime d) (EndTime d) (Target d) (StartCustomData d)
     (EndCustomData d) (Kind d) (Owner d) (Cancelable d) (Running d)
     (LockUpdateTime d) (Error d) (Log d) x.

(** The [_id] under which a value is stored. *)
Definition key (d : t) : Key := eventId.GetBSON (ID d).

(** A document read back into a zero [eventData]: the [_id] goes through
    [SetBSON], the other fields come back as they were stored. *)
Definition decode (d : t) : t := set_ID (eventId.SetBSON (key d)) d.
End eventData.

(** [Event]: the embedded [eventData], the log buffer and the log writer
    (for a writer, the text it has received so far). *)
Module Event.
Record t := mk {
  data : eventData.t;
  logBuffer : string;
  logWriter : option string
}.

Definition of_data (d : eventData.t) : t := mk d "" None.

Definition set_data (d : eventData.t) (e : t) : t :=
  mk d (logBuffer e) (logWriter e).
End Event.

(** A [*permission.PermissionScheme]; the package only calls [FullName]
    on it. *)
Module PermissionScheme.
Record t := mk { FullName : string }.
End PermissionScheme.

Module Opts.
Record t := mk {
  Target : Target.t;
  Kind : option PermissionScheme.t;
  Owner : string;
  Cancelable : bool;
  CustomData : any
}.
End Opts.

(** ** Errors *)

(** The error values the package returns.  [mgo_ErrNotFound] is
    [mgo.ErrNotFound], [mgo_dup] is a database error for which [mgo.IsDup]
    holds, and [db_failure] is any other error of the database layer. *)
Inductive err :=
| ErrValidation (msg : string)
| ErrEventLocked (event : Event.t)
| ErrNotCancelable
| ErrEventNotFound
| mgo_ErrNotFound
| mgo_dup (k : Key)
| db_failure (msg : string).

Definition error := option err.

Definition ErrNoTarget : err := ErrValidation "event target is mandatory".
Definition ErrNoKind : err := ErrValidation "event kind is mandatory".
Definition ErrNoOwner : err := ErrValidation "event owner is mandatory".
Definition ErrNoOpts : err := ErrValidation "event opts is mandatory".

(** [func (err ErrValidation) Error() string] *)
Definition ErrValidation_Error (msg : string) : string := msg.

Definition mgo_IsDup (e : err) : bool :=
  match e with
  | mgo_dup _ => true
  | _ => false
  end.

Definition is_ErrNotFound (e : error) : bool :=
  match e with
  | Some mgo_ErrNotFound => true
  | _ => false
  end.

(** ** The world *)

(** The state of the [updater] variable and of its goroutine: whether its
    [sync.Once] has fired, whether [stopCh] is set, whether a [spin]
    goroutine is receiving, the set that goroutine holds, and how many
    times [go l.spin()] ran. *)
Module lockUpdater.
Record t := mk {
  once : bool;
  stopCh : bool;
  spinning : bool;
  set : list Target.t;
  launched : nat
}.

Definition init : t := mk false false false [] 0.
End lockUpdater.

(** A database call, as the trace of the world records it. *)
Inductive dbcall :=
| CConn
| CInsert (d : eventData.t)
| CFindId (k : Key)
| CRemoveId (k : Key)
| CApply (k : Key)
| CUpdate
| CFindAll.

(** One entry of the trace: the call, the error it returned and the
    collection as it was when the call returned. *)
Record entry := mkEntry {
  call : dbcall;
  outcome : error;
  snapshot : list eventData.t
}.

Record World := mkWorld {
  events : list eventData.t;       (* the collection, oldest insert first *)
  clock : nat -> Time;             (* what the n-th time.Now() reads *)
  reads : nat;                     (* clock readings so far *)
  dbfault : nat -> option string;  (* whether the n-th database call fails *)
  oids : nat;                      (* ObjectIds handed out so far *)
  updater : lockUpdater.t;
  trace : list entry               (* database calls so far, oldest first *)
}.

Definition set_events (s : list eventData.t) (w : World) : World :=
  mkWorld s (clock w) (reads w) (dbfault w) (oids w) (updater w) (trace w).

Definition set_reads (n : nat) (w : World) : World :=
  mkWorld (events w) (clock w) n (dbfault w) (oids w) (updater w) (trace w).

Definition set_oids (n : nat) (w : World) : World :=
  mkWorld (events w) (clock w) (reads w) (dbfault w) n (updater w) (trace w).

Definition set_updater (u : lockUpdater.t) (w : World) : World :=
  mkWorld (events w) (clock w) (reads w) (dbfault w) (oids w) u (trace w).

Definition set_trace (tr : list entry) (w : World) : World :=
  mkWorld (events w) (clock w) (reads w) (dbfault w) (oids w) (updater w) tr.

(** The world of a process that has just started, on an empty collection. *)
Definition boot (clk : nat -> Time) (flt : nat -> option string) : World :=
  mkWorld [] clk 0 flt 0 lockUpdater.init [].

(** ** Computations *)

(** A call either returns, or blocks for ever (a send on a channel nobody
    receives from). *)
Inductive Outcome (A : Type) :=
| Returns (a : A) (w : World)
| Blocks (w : World).

Arguments Returns {A} a w.
Arguments Blocks {A} w.

Definition Go (A : Type) := World -> Outcome A.

Definition ret {A} (a : A) : Go A := fun w => Returns a w.

Definition bind {A B} (m : Go A) (f : A -> Go B) : Go B :=
  fun w =>
    match m w with
    | Returns a w' => f a w'
    | Blocks w' => Blocks w'
    end.

Notation "x <- m ;; k" := (bind m (fun x => k))
  (at level 61, m at next level, right associativity).
Notation "' pat <- m ;; k" := (bind m (fun x => match x with pat => k end))
  (at level 61, pat pattern, m at next level, right associativity).
Notation "m ;;; k" := (bind m (fun _ => k))
  (at level 61, right associativity).

(** [time.Now().UTC()] *)
Definition time_Now : Go Time :=
  fun w => Returns (clock w (reads w)) (set_reads (S (reads w)) w).

(** [time.Since(t)] *)
Definition time_Since (t : Time) : Go Duration :=
  now <- time_Now ;; ret (Time_Sub now t).

(** [bson.NewObjectId()]: the number of the id; the id is never empty. *)
Definition bson_NewObjectId : Go nat :=
  fun w => Returns (oids w) (set_oids (S (oids w)) w).

(** ** The collection *)

(** The order of [_id] values in an index: documents before ObjectIds,
    documents by their fields in turn, ObjectIds in the order they were
    handed out. *)
Definition Target_leb (s t : Target.t) : bool :=
  match String.compare (Target.Name s) (Target.Name t) with
  | Lt => true
  | Gt => false
  | Eq => String.leb (Target.Value s) (Target.Value t)
  end.

Definition Key_leb (a b : Key) : bool :=
  match a, b with
  | KDoc s, KDoc t => Target_leb s t
  | KDoc _, KOid _ => true
  | KOid _, KDoc _ => false
  | KOid m, KOid n => Nat.leb m n
  end.

Definition has_key (k : Key) (d : eventData.t) : bool :=
  Key_eqb (eventData.key d) k.

(** The first document that [sel] selects, rewritten by [upd]. *)
Fixpoint update_first (sel : eventData.t -> bool)
    (upd : eventData.t -> eventData.t) (s : list eventData.t)
    : list eventData.t :=
  match s with
  | [] => []
  | d :: s' => if sel d then upd d :: s' else d :: update_first sel upd s'
  end.

(** The first document that [sel] selects, taken out. *)
Fixpoint remove_first (sel : eventData.t -> bool) (s : list eventData.t)
    : list eventData.t :=
  match s with
  | [] => []
  | d :: s' => if sel d then s' else d :: remove_first sel s'
  end.

Fixpoint insert_desc (d : eventData.t) (s : list eventData.t)
    : list eventData.t :=
  match s with
  | [] => [d]
  | x :: s' =>
      if Key_leb (eventData.key x) (eventData.key d) then d :: x :: s'
      else x :: insert_desc d s'
  end.

(** [Sort("-_id")] *)
Fixpoint sort_desc (s : list eventData.t) : list eventData.t :=
  match s with
  | [] => []
  | d :: s' => insert_desc d (sort_desc s')
  end.

(** Every database call is written to the trace with the collection it
    leaves behind.  A call that the fault oracle fails returns the failure
    and leaves the collection as it was. *)
Definition record (c : dbcall) (e : error) (s : list eventData.t)
    (w : World) : World :=
  set_trace (trace w ++ [mkEntry c e s]) (set_events s w).

Definition dbop {A} (c : dbcall) (none : A)
    (run : list eventData.t -> A * error * list eventData.t)
    : Go (A * error) :=
  fun w =>
    match dbfault w (length (trace w)) with
    | Some msg =>
        Returns (none, Some (db_failure msg))
                (record c (Some (db_failure msg)) (events w) w)
    | None =>
        let '(a, e, s) := run (events w) in
        Returns (a, e) (record c e s w)
    end.

(** [db.Conn()] *)
Definition db_Conn : Go error :=
  '(_, e) <- dbop CConn tt (fun s => (tt, None, s)) ;; ret e.

(** [coll.Insert(d)]: the primary key refuses a second document with
    the same [_id]. *)
Definition coll_Insert (d : eventData.t) : Go error :=
  '(_, e) <- dbop (CInsert d) tt
       (fun s =>
          if existsb (has_key (eventData.key d)) s
          then (tt, Some (mgo_dup (eventData.key d)), s)
          else (tt, None, s ++ [d])) ;;
  ret e.

(** [coll.FindId(id).One(&out)] with [out] a zero [eventData], as both
    callers have it: the document, or [out] as it was. *)
Definition coll_FindId_One (k : Key) : Go (eventData.t * error) :=
  dbop (CFindId k) eventData.zero
       (fun s =>
          match find (has_key k) s with
          | Some d => (eventData.decode d, None, s)
          | None => (eventData.zero, Some mgo_ErrNotFound, s)
          end).

(** [coll.RemoveId(id)] *)
Definition coll_RemoveId (k : Key) : Go error :=
  '(_, e) <- dbop (CRemoveId k) tt
       (fun s =>
          if existsb (has_key k) s
          then (tt, None, remove_first (has_key k) s)
          else (tt, Some mgo_ErrNotFound, s)) ;;
  ret e.

(** [coll.Find(sel).Apply(mgo.Change{Update: upd, ReturnNew: true}, &out)]
    where [sel] asks for [_id = k] and for [cond]: one document is found
    and modified in a single step, and the new document is returned. *)
Definition coll_Find_Apply (k : Key) (cond : eventData.t -> bool)
    (upd : eventData.t -> eventData.t) : Go (option eventData.t * error) :=
  let sel := fun d => has_key k d && cond d in
  dbop (CApply k) None
       (fun s =>
          match find sel s with
          | Some d =>
              (Some (eventData.decode (upd d)), None, update_first sel upd s)
          | None => (None, Some mgo_ErrNotFound, s)
          end).

(** [coll.Update(sel, upd)] where [sel] asks for an [_id] among [ks]:
    mgo's [Update] modifies one document, the first that matches. *)
Definition coll_Update_in (ks : list Key)
    (upd : eventData.t -> eventData.t) : Go error :=
  let sel := fun d => existsb (Key_eqb (eventData.key d)) ks in
  '(_, e) <- dbop CUpdate tt
       (fun s =>
          if existsb sel s
          then (tt, None, update_first sel upd s)
          else (tt, Some mgo_ErrNotFound, s)) ;;
  ret e.

(** [coll.Find(nil).Sort("-_id").All(&out)] *)
Definition coll_Find_Sort_All : Go (list eventData.t * error) :=
  dbop CFindAll []
       (fun s => (map eventData.decode (sort_desc s), None, s)).

(** ** The lock updater *)

(** [func (l *lockUpdater) start()] *)
Definition lockUpdater_start : Go unit :=
  fun w =>
    let l := updater w in
    Returns tt
      (if lockUpdater.once l then w
       else set_updater
              (lockUpdater.mk true true true [] (S (lockUpdater.launched l)))
              w).

(** [func (l *lockUpdater) stop()] *)
Definition lockUpdater_stop : Go unit :=
  fun w =>
    let l := updater w in
    if negb (lockUpdater.stopCh l) then Returns tt w
    else if lockUpdater.spinning l then
      Returns tt
        (set_updater
           (lockUpdater.mk false false false [] (lockUpdater.launched l)) w)
    else Blocks w.

Definition set_add (t : Target.t) (s : list Target.t) : list Target.t :=
  if existsb (Target.eqb t) s then s else t :: s.

Definition set_delete (t : Target.t) (s : list Target.t) : list Target.t :=
  filter (fun x => negb (Target.eqb t x)) s.

(** A send on one of the updater's channels.  The channels have no buffer:
    the send returns when [spin] has received, and blocks when no [spin]
    is running. *)
Definition send (f : list Target.t -> list Target.t) : Go unit :=
  fun w =>
    let l := updater w in
    if lockUpdater.spinning l then
      Returns tt
        (set_updater
           (lockUpdater.mk (lockUpdater.once l) (lockUpdater.stopCh l) true
              (f (lockUpdater.set l)) (lockUpdater.launched l)) w)
    else Blocks w.

(** [updater.addCh <- &t] *)
Definition send_addCh (t : Target.t) : Go unit := send (set_add t).

(** [updater.removeCh <- &t] *)
Definition send_removeCh (t : Target.t) : Go unit := send (set_delete t).

(** What [spin] does after its [select] has fired: one round of lock
    updates.  It runs in the updater's goroutine, at any time between two
    calls of the other operations. *)
Definition lockUpdater_spin_round : Go unit :=
  e <- db_Conn ;;
  match e with
  | Some _ => ret tt
  | None =>
      ks <- (fun w => Returns (map KDoc (lockUpdater.set (updater w))) w) ;;
      now <- time_Now ;;
      coll_Update_in ks (eventData.set_LockUpdateTime now) ;;;
      ret tt
  end.

(** ** The package *)

(** [func All() ([]Event, error)] *)
Definition All : Go (list Event.t * error) :=
  cerr <- db_Conn ;;
  match cerr with
  | Some x => ret ([], Some x)
  | None =>
      '(allData, e) <- coll_Find_Sort_All ;;
      ret (map Event.of_data allData, e)
  end.

(** [func (e *Event) SetLogWriter(w io.Writer)] *)
Definition SetLogWriter (w : option string) (e : Event.t) : Event.t :=
  Event.mk (Event.data e) (Event.logBuffer e) w.

(** [func (e *Event) Logf(format, params...)]; [text] is what [fmt] makes
    of the format, with the newline the function appends to it, and of the
    parameters. *)
Definition Logf (text : string) (e : Event.t) : Event.t :=
  Event.mk (Event.data e)
    (Event.logBuffer e ++ text)%string
    (match Event.logWriter e with
     | Some out => Some (out ++ text)%string
     | None => None
     end).

(** [func (e *Event) TryCancel(reason, owner string) error] *)
Definition TryCancel (reason owner : string) (e : Event.t)
    : Go (Event.t * error) :=
  let d := Event.data e in
  if negb (eventData.Cancelable d) || negb (eventData.Running d)
  then ret (e, Some ErrNotCancelable)
  else
    cerr <- db_Conn ;;
    match cerr with
    | Some x => ret (e, Some x)
    | None =>
        now <- time_Now ;;
        '(out, e1) <- coll_Find_Apply (eventData.key d) (fun _ => true)
            (eventData.set_CancelInfo
               (cancelInfo.mk owner now Time_zero reason true false)) ;;
        let e' := match out with
                  | Some d' => Event.set_data d' e
                  | None => e
                  end in
        if is_ErrNotFound e1 then ret (e', Some ErrEventNotFound)
        else ret (e', e1)
    end.

(** The update of [AckCancel]: [cancelinfo.acktime] and
    [cancelinfo.canceled], the other fields of [cancelinfo] as they are. *)
Definition ack (now : Time) (d : eventData.t) : eventData.t :=
  let c := eventData.CancelInfo d in
  eventData.set_CancelInfo
    (cancelInfo.mk (cancelInfo.Owner c) (cancelInfo.StartTime c) now
       (cancelInfo.Reason c) (cancelInfo.Asked c) true) d.

(** [func (e *Event) AckCancel() error] *)
Definition AckCancel (e : Event.t) : Go (Event.t * error) :=
  let d := Event.data e in
  if negb (eventData.Cancelable d) || negb (eventData.Running d)
  then ret (e, Some ErrNotCancelable)
  else
    cerr <- db_Conn ;;
    match cerr with
    | Some x => ret (e, Some x)
    | None =>
        now <- time_Now ;;
        '(out, e1) <- coll_Find_Apply (eventData.key d)
            (fun x => cancelInfo.Asked (eventData.CancelInfo x)) (ack now) ;;
        let e' := match out with
                  | Some d' => Event.set_data d' e
                  | None => e
                  end in
        if is_ErrNotFound e1 then ret (e', Some ErrEventNotFound)
        else ret (e', e1)
    end.

(** The error text [done] stores: [evtErr] is [nil] or the text that
    [evtErr.Error()] returns. *)
Definition done_Error (evtErr : option string) (d : eventData.t) : string :=
  match evtErr with
  | Some msg => msg
  | None =>
      if cancelInfo.Canceled (eventData.CancelInfo d)
      then "canceled by user request"
      else eventData.Error d
  end.

(** [func (e *Event) done(evtErr error, customData interface{}, abort bool)].
    The receiver is a pointer: the event as [done] leaves it is returned
    with the error.  [defer coll.RemoveId(e.ID)] takes its argument where
    the [defer] statement stands and makes the call when [done] returns,
    after [coll.Insert]. *)
Definition done (evtErr : option string) (customData : any) (abort : bool)
    (e : Event.t) : Go (Event.t * error) :=
  send_removeCh (eventData.Target (Event.data e)) ;;;
  cerr <- db_Conn ;;
  match cerr with
  | Some x => ret (e, Some x)
  | None =>
      if abort then
        r <- coll_RemoveId (eventData.key (Event.data e)) ;; ret (e, r)
      else
        let d1 := eventData.set_Error (done_Error evtErr (Event.data e))
                    (Event.data e) in
        now <- time_Now ;;
        let d2 := eventData.set_Log (Event.logBuffer e)
                    (eventData.set_Running false
                       (eventData.set_EndCustomData customData
                          (eventData.set_EndTime now d1))) in
        let deferred := eventData.key d2 in
        oid <- bson_NewObjectId ;;
        let d3 := eventData.set_ID (eventId.mk Target.zero (Some oid)) d2 in
        r <- coll_Insert d3 ;;
        coll_RemoveId deferred ;;;
        ret (Event.set_data d3 e, r)
  end.

(** [func (e *Event) Abort() error] *)
Definition Abort (e : Event.t) : Go (Event.t * error) :=
  done None None true e.

(** [func (e *Event) Done(evtErr error) error] *)
Definition Done (evtErr : option string) (e : Event.t)
    : Go (Event.t * error) :=
  done evtErr None false e.

(** [func (e *Event) DoneCustomData(evtErr error, customData interface{})] *)
Definition DoneCustomData (evtErr : option string) (customData : any)
    (e : Event.t) : Go (Event.t * error) :=
  done evtErr customData false e.

Definition maxRetries : nat := 1.

Section Acquire.

(** [Duration.String], which [fmt] uses for [%v]. *)
Variable Duration_String : Duration -> string.

(** [func checkIsExpired(coll, id) bool] *)
Definition checkIsExpired (id : Key) : Go bool :=
  '(existingEvt, e) <- coll_FindId_One id ;;
  match e with
  | None =>
      now <- time_Now ;;
      let lastUpdate := eventData.LockUpdateTime existingEvt in
      if Time_After now (Time_Add lastUpdate lockExpireTimeout) then
        since <- time_Since lastUpdate ;;
        Done (Some ("event expired, no update for "
                      ++ Duration_String since)%string)
             (Event.of_data existingEvt) ;;;
        ret true
      else ret false
  | Some _ => ret false
  end.

(** The loop of [New]: [left] iterations remain, [i] is the loop counter
    and [err] the error of the iteration before. *)
Fixpoint New_loop (evt : Event.t) (left i : nat) (err : error)
    : Go (option Event.t * error) :=
  match left with
  | O => ret (None, err)
  | S left' =>
      e1 <- coll_Insert (Event.data evt) ;;
      match e1 with
      | None =>
          send_addCh (eventData.Target (Event.data evt)) ;;;
          ret (Some evt, None)
      | Some x =>
          if mgo_IsDup x then
            locked <- (if Nat.leb maxRetries i then ret true
                       else (expired <- checkIsExpired
                                          (eventData.key (Event.data evt)) ;;
                             ret (negb expired))) ;;
            if locked then
              '(existing, e2) <- coll_FindId_One
                                   (eventData.key (Event.data evt)) ;;
              match e2 with
              | None =>
                  New_loop evt left' (S i)
                    (Some (ErrEventLocked (Event.of_data existing)))
              | Some _ => New_loop evt left' (S i) e2
              end
            else New_loop evt left' (S i) e1
          else New_loop evt left' (S i) e1
      end
  end.

(** [func New(opts *Opts)], which returns an event and an error. *)
Definition New (opts : option Opts.t) : Go (option Event.t * error) :=
  lockUpdater_start ;;;
  match opts with
  | None => ret (None, Some ErrNoOpts)
  | Some o =>
      if negb (Target.IsValid (Opts.Target o)) then
        ret (None, Some ErrNoTarget)
      else
        match Opts.Kind o with
        | None => ret (None, Some ErrNoKind)
        | Some kind =>
            if String.eqb (Opts.Owner o) "" then ret (None, Some ErrNoOwner)
            else
              cerr <- db_Conn ;;
              match cerr with
              | Some x => ret (None, Some x)
              | None =>
                  now <- time_Now ;;
                  let evt := Event.of_data
                    (eventData.mk
                       (eventId.mk (Opts.Target o) None)
                       now Time_zero (Opts.Target o)
                       (Opts.CustomData o) None
                       (PermissionScheme.FullName kind)
                       (Opts.Owner o) (Opts.Cancelable o) true now
                       "" "" cancelInfo.zero) in
                  New_loop evt (S maxRetries) 0 cerr
              end
        end
  end.

End Acquire.

(** ** A process and the calls it makes *)

(** The events a process holds, by position, with the world it runs in. *)
Record Proc := mkProc {
  world : World;
  handles : list Event.t
}.

Inductive op :=
| OpNew (opts : option Opts.t)
| OpLogf (i : nat) (text : string)
| OpSetLogWriter (i : nat) (out : option string)
| OpTryCancel (i : nat) (reason owner : string)
| OpAckCancel (i : nat)
| OpDone (i : nat) (evtErr : option string)
| OpDoneCustomData (i : nat) (evtErr : option string) (customData : any)
| OpAbort (i : nat)
| OpAll
| OpSpin
| OpStop.

Fixpoint put {A} (i : nat) (x : A) (l : list A) {struct l} : list A :=
  match l, i with
  | [], _ => []
  | _ :: l', O => x :: l'
  | y :: l', S i' => y :: put i' x l'
  end.

(** A method call on the [i]-th event: the event is a pointer, so what the
    call leaves in it replaces it.  A call on an event the process does not
    hold is no call. *)
Definition on_handle (i : nat) (m : Event.t -> Go (Event.t * error))
    (p : Proc) : option Proc :=
  match nth_error (handles p) i with
  | None => Some p
  | Some e =>
      match m e (world p) with
      | Returns (e', _) w' => Some (mkProc w' (put i e' (handles p)))
      | Blocks _ => None
      end
  end.

Definition pure_on_handle (i : nat) (f : Event.t -> Event.t) (p : Proc)
    : option Proc :=
  match nth_error (handles p) i with
  | None => Some p
  | Some e => Some (mkProc (world p) (put i (f e) (handles p)))
  end.

Definition unit_call (m : Go unit) (p : Proc) : option Proc :=
  match m (world p) with
  | Returns _ w' => Some (mkProc w' (handles p))
  | Blocks _ => None
  end.

(** One call; [None] when it blocks. *)
Definition exec (fmt : Duration -> string) (o : op) (p : Proc)
    : option Proc :=
  match o with
  | OpNew opts =>
      match New fmt opts (world p) with
      | Returns (Some e, _) w' => Some (mkProc w' (handles p ++ [e]))
      | Returns (None, _) w' => Some (mkProc w' (handles p))
      | Blocks _ => None
      end
  | OpLogf i text => pure_on_handle i (Logf text) p
  | OpSetLogWriter i out => pure_on_handle i (SetLogWriter out) p
  | OpTryCancel i reason owner => on_handle i (TryCancel reason owner) p
  | OpAckCancel i => on_handle i AckCancel p
  | OpDone i evtErr => on_handle i (Done evtErr) p
  | OpDoneCustomData i evtErr customData =>
      on_handle i (DoneCustomData evtErr customData) p
  | OpAbort i => on_handle i Abort p
  | OpAll => unit_call (All ;;; ret tt) p
  | OpSpin =>
      if lockUpdater.spinning (updater (world p))
      then unit_call lockUpdater_spin_round p
      else Some p
  | OpStop => unit_call lockUpdater_stop p
  end.

Fixpoint execs (fmt : Duration -> string) (l : list op) (p : Proc)
    : option Proc :=
  match l with
  | [] => Some p
  | o :: l' =>
      match exec fmt o p with
      | Some p' => execs fmt l' p'
      | None => None
      end
  end.

(** A process that has just started, on an empty collection. *)
Definition start (clk : nat -> Time) (flt : nat -> option string) : Proc :=
  mkProc (boot clk flt) [].

(** Calls of [New], one after the other. *)
Fixpoint New_calls (fmt : Duration -> string) (l : list (option Opts.t))
    : Go unit :=
  match l with
  | [] => ret tt
  | opts :: l' => New fmt opts ;;; New_calls fmt l'
  end.

(** ** Vocabulary of the statements *)

Definition returned {A} (o : Outcome A) : option A :=
  match o with
  | Returns a _ => Some a
  | Blocks _ => None
  end.

Definition world_after {A} (o : Outcome A) : World :=
  match o with
  | Returns _ w => w
  | Blocks w => w
  end.

(** No database call fails for a reason of its own. *)
Definition healthy (w : World) : Prop := forall n, dbfault w n = None.

(** A clock that never runs backwards. *)
Definition monotone (clk : nat -> Time) : Prop :=
  forall i j, (i <= j)%nat -> (clk i <= clk j)%Z.

(** The updater's [sync.Once] has only fired with a [spin] left running. *)
Definition updater_ok (w : World) : Prop :=
  lockUpdater.once (updater w) = true ->
  lockUpdater.spinning (updater w) = true.

(** The database calls made from [w] to [w']. *)
Definition calls_from (w w' : World) : list entry :=
  skipn (length (trace w)) (trace w').

(** The states of the collection that were ever there to see. *)
Definition visible (w : World) : list (list eventData.t) :=
  events w :: map snapshot (trace w).

(** I1: at most one document has a given target as its [_id]. *)
Definition I1 (s : list eventData.t) : Prop :=
  forall t, (length (filter (has_key (KDoc t)) s) <= 1)%nat.

(** I5: a canceled event was asked to cancel, and acknowledged no earlier
    than it was asked. *)
Definition I5 (d : eventData.t) : Prop :=
  cancelInfo.Canceled (eventData.CancelInfo d) = true ->
  cancelInfo.Asked (eventData.CancelInfo d) = true
  /\ (cancelInfo.StartTime (eventData.CancelInfo d)
      <= cancelInfo.AckTime (eventData.CancelInfo d))%Z.

(** An attempt to acquire: an insert of a document whose [_id] is a target. *)
Definition acquires (c : dbcall) : bool :=
  match c with
  | CInsert d => match eventData.key d with
                 | KDoc _ => true
                 | KOid _ => false
                 end
  | _ => false
  end.

Definition is_acquisition (en : entry) : bool := acquires (call en).

Definition acquisitions (tr : list entry) : nat :=
  length (filter is_acquisition tr).

(** Start times from the newest to the oldest. *)
Fixpoint newest_first (l : list Event.t) : bool :=
  match l with
  | a :: ((b :: _) as l') =>
      (eventData.StartTime (Event.data b)
       <=? eventData.StartTime (Event.data a))%Z && newest_first l'
  | _ => true
  end.

(** [_id]s from the greatest to the least. *)
Definition id_desc (a b : Event.t) : Prop :=
  Key_leb (eventData.key (Event.data b)) (eventData.key (Event.data a)) = true.

(** The document [done] inserts for an event it terminates at [now]. *)
Definition historical (msg : string) (now : Time) (customData : any)
    (log : string) (oid : nat) (d : eventData.t) : eventData.t :=
  eventData.mk (eventId.mk Target.zero (Some oid))
    (eventData.StartTime d) now (eventData.Target d)
    (eventData.StartCustomData d) customData (eventData.Kind d)
    (eventData.Owner d) (eventData.Cancelable d) false
    (eventData.LockUpdateTime d) msg log (eventData.CancelInfo d).

(** [m] returns from [w], with a result and a world that satisfy [Q]. *)
Definition runs {A} (m : Go A) (w : World) (Q : A -> World -> Prop) : Prop :=
  exists a w', m w = Returns a w' /\ Q a w'.

(** From [w] to [w'] at most [n] attempts to acquire were made, the oracles
    are the same, and the updater still spins as it did. *)
Record keeps (n : nat) (w w' : World) : Prop := mkKeeps {
  keeps_trace :
    exists new, trace w' = trace w ++ new /\ (acquisitions new <= n)%nat;
  keeps_clock : clock w' = clock w;
  keeps_dbfault : dbfault w' = dbfault w;
  keeps_spinning : lockUpdater.spinning (updater w') = true;
  keeps_once : lockUpdater.once (updater w') = lockUpdater.once (updater w);
  keeps_launched :
    lockUpdater.launched (updater w') = lockUpdater.launched (updater w)
}.

(** [m] returns from every world where the updater spins, and keeps the
    frame with at most [n] attempts to acquire. *)
Definition kept {A} (n : nat) (m : Go A) : Prop :=
  forall w, lockUpdater.spinning (updater w) = true ->
            runs m w (fun _ w' => keeps n w w').

(** [New] refuses [opts] with [e] and has not called the database. *)
Definition refused_with (e : err) (o : Outcome (option Event.t * error))
    (w : World) : Prop :=
  returned o = Some (None, Some e)
  /\ events (world_after o) = events w
  /\ trace (world_after o) = trace w.

(** The event [New] tries to insert at [now]. *)
Definition candidate (o : Opts.t) (kind : PermissionScheme.t) (now : Time)
    : eventData.t :=
  eventData.mk (eventId.mk (Opts.Target o) None) now Time_zero
    (Opts.Target o) (Opts.CustomData o) None (PermissionScheme.FullName kind)
    (Opts.Owner o) (Opts.Cancelable o) true now "" "" cancelInfo.zero.

(** Whether, among the calls [tr], a removal comes before every insert. *)
Fixpoint removes_first (tr : list entry) : bool :=
  match tr with
  | [] => false
  | en :: tr' =>
      match call en with
      | CRemoveId _ => true
      | CInsert _ => false
      | _ => removes_first tr'
      end
  end.

(** [t] is a time the clock has read. *)
Definition past (w : World) (t : Time) : Prop :=
  exists n, (n < reads w)%nat /\ t = clock w n.

(** A document in order: I5 holds of it, and if it was asked to cancel,
    it was asked at a time the clock has read. *)
Definition good_at (w : World) (d : eventData.t) : Prop :=
  I5 d
  /\ (cancelInfo.Asked (eventData.CancelInfo d) = true ->
      past w (cancelInfo.StartTime (eventData.CancelInfo d))).

(** A world in order: its clock never runs backwards, its documents are in
    order, and I5 held in every state of the collection there was. *)
Definition wgood (w : World) : Prop :=
  monotone (clock w)
  /\ Forall (good_at w) (events w)
  /\ Forall (fun en => Forall I5 (snapshot en)) (trace w).

Definition pgood (p : Proc) : Prop :=
  wgood (world p)
  /\ Forall (fun e => good_at (world p) (Event.data e)) (handles p).

(** A property of worlds that outlives further clock readings. *)
Definition stable (F : World -> Prop) : Prop :=
  forall w w', clock w' = clock w -> (reads w <= reads w')%nat -> F w -> F w'.

(** From a world in order where [P] holds, [m] blocks, or returns a world
    in order, with the same clock read no less often, where [Q] holds. *)
Definition triple {A} (P : World -> Prop) (m : Go A)
    (Q : A -> World -> Prop) : Prop :=
  forall w, wgood w -> P w ->
    match m w with
    | Returns a w' =>
        wgood w' /\ clock w' = clock w /\ (reads w <= reads w')%nat /\ Q a w'
    | Blocks _ => True
    end.

(** I2: a document runs exactly when its [_id] is a target. *)
Definition I2 (d : eventData.t) : Prop :=
  match eventData.key d with
  | KDoc _ => eventData.Running d = true
  | KOid _ => eventData.Running d = false
  end.

(** A collection in shape: no two documents share an [_id], and I2 holds
    of each. *)
Definition shaped (s : list eventData.t) : Prop :=
  NoDup (map eventData.key s) /\ Forall I2 s.

(** Every ObjectId in the collection was handed out before the [oid]-th. *)
Definition oids_below (oid : nat) (s : list eventData.t) : Prop :=
  forall n, In (KOid n) (map eventData.key s) -> (n < oid)%nat.

(** A world in shape: its collection is, every state of the collection
    there was is, and its ObjectIds are ones the world has handed out. *)
Definition tidy (w : World) : Prop :=
  shaped (events w)
  /\ oids_below (oids w) (events w)
  /\ Forall (fun en => shaped (snapshot en)) (trace w).

(** From a tidy world where [P] holds, [m] blocks, or returns a tidy world
    where [Q] holds, with no ObjectId taken back. *)
Definition holds {A} (P : World -> Prop) (m : Go A)
    (Q : A -> World -> Prop) : Prop :=
  forall w, tidy w -> P w ->
    match m w with
    | Returns a w' => tidy w' /\ (oids w <= oids w')%nat /\ Q a w'
    | Blocks _ => True
    end.

(** What every document of the collection and every event of a process
    have in common: one that runs has no error text yet, and one that is
    stored under a target is an event on this target. *)
Definition sound (d : eventData.t) : Prop :=
  (eventData.Running d = true -> eventData.Error d = "")
  /\ (forall t, eventData.key d = KDoc t -> eventData.Target d = t).

Definition wsound (w : World) : Prop :=
  Forall sound (events w)
  /\ Forall (fun en => Forall sound (snapshot en)) (trace w).

Definition psound (p : Proc) : Prop :=
  wsound (world p) /\ Forall (fun e => sound (Event.data e)) (handles p).

(** From a world whose documents are sound, [m] blocks, or returns such a
    world and a result that satisfies [Q]. *)
Definition yields {A} (m : Go A) (Q : A -> Prop) : Prop :=
  forall w, wsound w ->
    match m w with
    | Returns a w' => wsound w' /\ Q a
    | Blocks _ => True
    end.

(** ** Sample runs *)

Definition newline : string := String (Ascii.ascii_of_nat 10) EmptyString.

(** A stand-in for [Duration.String] on the sample runs. *)
Definition coarse (d : Duration) : string :=
  if (d / Minute <? 1)%Z then "under a minute" else "a minute or more".

(** A clock that reads [step] more at every reading. *)
Definition every (step : Duration) (n : nat) : Time := (Z.of_nat n * step)%Z.

Definition no_fault (n : nat) : option string := None.

Definition app_a : Target.t := Target.mk "app" "a".
Definition app_b : Target.t := Target.mk "app" "b".

Definition deploy (t : Target.t) (cancelable : bool) : Opts.t :=
  Opts.mk t (Some (PermissionScheme.mk "app.deploy")) "u" cancelable None.

(** The process after the calls [l], made under the clock [clk] from a
    start on an empty collection. *)
Definition after (clk : nat -> Time) (l : list op) : Proc :=
  match execs coarse l (start clk no_fault) with
  | Some p => p
  | None => start clk no_fault
  end.

Definition handle (i : nat) (p : Proc) : Event.t :=
  nth i (handles p) (Event.of_data eventData.zero).

Definition deploy_scheme : PermissionScheme.t :=
  PermissionScheme.mk "app.deploy".

(** One deploy of app a is running; the clock moves by seconds. *)
Definition held : Proc :=
  after (every Second) [OpNew (Some (deploy app_a false))].

(** One deploy of app a is running and the clock moves by six minutes, so
    that its lock is stale at the next reading. *)
Definition stale : Proc :=
  after (every (6 * Minute)%Z) [OpNew (Some (deploy app_a false))].

(** The document both runs start from. *)
Definition first_deploy : eventData.t :=
  candidate (deploy app_a false) deploy_scheme 0%Z.

(** The event a call leaves behind. *)
Definition event_after (o : Outcome (Event.t * error)) : Event.t :=
  match o with
  | Returns (e, _) _ => e
  | Blocks _ => Event.of_data eventData.zero
  end.

(** A cancelable deploy of app a was asked to cancel and has acknowledged. *)
Definition acked : Proc :=
  after (every Second)
    [OpNew (Some (deploy app_a true)); OpTryCancel 0 "halt" "admin";
     OpAckCancel 0].

(** Deploys of app a and of app b, started in this order and done in the
    other. *)
Definition crossed : Proc :=
  after (every Second)
    [OpNew (Some (deploy app_a false)); OpNew (Some (deploy app_b false));
     OpDone 1 None; OpDone 0 None].

(** The oldest document of the collection of a process. *)
Definition oldest (p : Proc) : eventData.t :=
  hd eventData.zero (events (world p)).

(** A database whose second call fails. *)
Definition flaky (n : nat) : option string :=
  if Nat.eqb n 1 then Some "i/o timeout" else None.

(** A database that fails from its second call on. *)
Definition broken (n : nat) : option string :=
  if Nat.leb 1 n then Some "i/o timeout" else None.

(** A database that is down. *)
Definition down (n : nat) : option string := Some "no reachable servers".

(** A database that is lost after its first two calls. *)
Definition cut (n : nat) : option string :=
  if Nat.leb 2 n then Some "i/o timeout" else None.

(** The process after the calls [l] under the clock [clk], on a database
    that fails as [flt] tells. *)
Definition after_on (clk : nat -> Time) (flt : nat -> option string)
    (l : list op) : Proc :=
  match execs coarse l (start clk flt) with
  | Some p => p
  | None => start clk flt
  end.

(** One deploy of app a is running when the database is lost. *)
Definition lost : Proc :=
  after_on (every Second) cut [OpNew (Some (deploy app_a false))].

(** A cancelable deploy of app a is running. *)
Definition cancelable_held : Proc :=
  after (every Second) [OpNew (Some (deploy app_a true))].

(** A cancelable deploy of app a was aborted; the process still has the
    event. *)
Definition aborted : Proc :=
  after (every Second) [OpNew (Some (deploy app_a true)); OpAbort 0].

(** One deploy of app a is running and the clock moves by five minutes:
    at the next reading its lock is as old as the expiry timeout, and no
    older. *)
Definition on_the_edge : Proc :=
  after (every (5 * Minute)%Z) [OpNew (Some (deploy app_a false))].

(** Deploys of app a and of app b are running. *)
Definition two_held : Proc :=
  after (every Second)
    [OpNew (Some (deploy app_a false)); OpNew (Some (deploy app_b false))].

(** * Theorems *)

(** ** Computations that return *)

Lemma runs_ret {A} (a : A) w (Q : A -> World -> Prop) :
  Q a w -> runs (ret a) w Q.
Proof. intros H. exists a, w. split; [reflexivity | exact H]. Qed.

Lemma runs_bind {A B} (m : Go A) (f : A -> Go B) w (Q : B -> World -> Prop) :
  runs m w (fun a w1 => runs (f a) w1 Q) -> runs (bind m f) w Q.
Proof.
  intros (a & w1 & Hm & b & w2 & Hf & HQ).
  exists b, w2. split; [| exact HQ].
  unfold bind. rewrite Hm. exact Hf.
Qed.

Lemma runs_weaken {A} (m : Go A) w (Q Q' : A -> World -> Prop) :
  runs m w Q -> (forall a w', Q a w' -> Q' a w') -> runs m w Q'.
Proof.
  intros (a & w' & Hm & HQ) Himp. exists a, w'. split; auto.
Qed.

Lemma acquisitions_app (l1 l2 : list entry) :
  acquisitions (l1 ++ l2) = (acquisitions l1 + acquisitions l2)%nat.
Proof.
  unfold acquisitions. rewrite filter_app, length_app. reflexivity.
Qed.

Lemma keeps_refl w :
  lockUpdater.spinning (updater w) = true -> keeps 0 w w.
Proof.
  intros H. constructor; auto.
  exists []. rewrite app_nil_r. split; [reflexivity | apply Nat.le_refl].
Qed.

Lemma keeps_trans a b w w1 w2 :
  keeps a w w1 -> keeps b w1 w2 -> keeps (a + b) w w2.
Proof.
  intros [(n1 & T1 & A1) C1 F1 S1 O1 L1] [(n2 & T2 & A2) C2 F2 S2 O2 L2].
  constructor; try congruence.
  exists (n1 ++ n2). split.
  - rewrite T2, T1, app_assoc. reflexivity.
  - rewrite acquisitions_app. lia.
Qed.

Lemma keeps_le a b w w' : keeps a w w' -> (a <= b)%nat -> keeps b w w'.
Proof.
  intros [(n1 & T1 & A1) C1 F1 S1 O1 L1] Hle.
  constructor; auto. exists n1. split; [exact T1 | lia].
Qed.

Lemma kept_ret {A} (a : A) : kept 0 (ret a).
Proof. intros w Hs. apply runs_ret. apply keeps_refl. exact Hs. Qed.

Lemma kept_le {A} a b (m : Go A) : kept a m -> (a <= b)%nat -> kept b m.
Proof.
  intros H Hle w Hs. eapply runs_weaken; [apply H; exact Hs |].
  intros x w' K. apply (keeps_le a b); assumption.
Qed.

Lemma kept_bind {A B} a b (m : Go A) (f : A -> Go B) :
  kept a m -> (forall x, kept b (f x)) -> kept (a + b) (bind m f).
Proof.
  intros Hm Hf w Hs. apply runs_bind.
  destruct (Hm w Hs) as (x & w1 & E & K1).
  exists x, w1. split; [exact E |].
  eapply runs_weaken; [apply Hf; exact (keeps_spinning _ _ _ K1) |].
  intros y w2 K2. eapply keeps_trans; eauto.
Qed.

Lemma dbop_kept {A} (c : dbcall) (none : A) run :
  kept (if acquires c then 1 else 0) (dbop c none run).
Proof.
  intros w Hs. unfold runs, dbop.
  destruct (dbfault w (length (trace w))) as [msg |].
  - eexists _, _. split; [reflexivity |].
    constructor; auto. eexists. split; [reflexivity |].
    unfold acquisitions, is_acquisition. cbn.
    destruct (acquires c); cbn; lia.
  - destruct (run (events w)) as [[x e] s'].
    eexists _, _. split; [reflexivity |].
    constructor; auto. eexists. split; [reflexivity |].
    unfold acquisitions, is_acquisition. cbn.
    destruct (acquires c); cbn; lia.
Qed.

Lemma db_Conn_kept : kept 0 db_Conn.
Proof.
  unfold db_Conn. apply (kept_bind 0 0); [apply (dbop_kept CConn) |].
  intros [u e]. apply kept_ret.
Qed.

Lemma coll_Insert_kept d :
  kept (if acquires (CInsert d) then 1 else 0) (coll_Insert d).
Proof.
  unfold coll_Insert.
  eapply kept_le; [eapply kept_bind; [apply dbop_kept |] |].
  - intros [u e]. apply kept_ret.
  - lia.
Qed.

Lemma coll_FindId_One_kept k : kept 0 (coll_FindId_One k).
Proof. unfold coll_FindId_One. apply (dbop_kept (CFindId k)). Qed.

Lemma coll_RemoveId_kept k : kept 0 (coll_RemoveId k).
Proof.
  unfold coll_RemoveId.
  apply (kept_bind 0 0); [apply (dbop_kept (CRemoveId k)) |].
  intros [u e]. apply kept_ret.
Qed.

Lemma time_Now_kept : kept 0 time_Now.
Proof.
  intros w Hs. eexists _, _. split; [reflexivity |].
  constructor; auto. exists []. rewrite app_nil_r. split; [reflexivity |].
  apply Nat.le_refl.
Qed.

Lemma time_Since_kept t : kept 0 (time_Since t).
Proof.
  unfold time_Since. apply (kept_bind 0 0); [apply time_Now_kept |].
  intros now. apply kept_ret.
Qed.

Lemma bson_NewObjectId_kept : kept 0 bson_NewObjectId.
Proof.
  intros w Hs. eexists _, _. split; [reflexivity |].
  constructor; auto. exists []. rewrite app_nil_r. split; [reflexivity |].
  apply Nat.le_refl.
Qed.

Lemma send_kept f : kept 0 (send f).
Proof.
  intros w Hs. unfold runs, send. rewrite Hs.
  eexists _, _. split; [reflexivity |].
  constructor; auto. exists []. rewrite app_nil_r. split; [reflexivity |].
  apply Nat.le_refl.
Qed.

Lemma done_kept evtErr customData abort e :
  kept 0 (done evtErr customData abort e).
Proof.
  unfold done.
  apply (kept_bind 0 0); [apply send_kept | intros _].
  apply (kept_bind 0 0); [apply db_Conn_kept | intros [x |]].
  { apply kept_ret. }
  destruct abort.
  - apply (kept_bind 0 0); [apply coll_RemoveId_kept | intros r].
    apply kept_ret.
  - apply (kept_bind 0 0); [apply time_Now_kept | intros now].
    apply (kept_bind 0 0); [apply bson_NewObjectId_kept | intros oid].
    apply (kept_bind 0 0); [| intros r].
    { intros w Hs.
      exact (coll_Insert_kept
               (eventData.set_ID (eventId.mk Target.zero (Some oid)) _) w Hs). }
    apply (kept_bind 0 0); [apply coll_RemoveId_kept | intros _].
    apply kept_ret.
Qed.

Lemma checkIsExpired_kept fmt id : kept 0 (checkIsExpired fmt id).
Proof.
  unfold checkIsExpired.
  apply (kept_bind 0 0); [apply coll_FindId_One_kept | intros [d e]].
  destruct e; [apply kept_ret |].
  apply (kept_bind 0 0); [apply time_Now_kept | intros now].
  destruct (Time_After _ _); [| apply kept_ret].
  apply (kept_bind 0 0); [apply time_Since_kept | intros since].
  apply (kept_bind 0 0); [apply done_kept | intros _].
  apply kept_ret.
Qed.

Lemma New_loop_kept fmt evt left :
  forall i err, kept left (New_loop fmt evt left i err).
Proof.
  induction left as [| left IH]; intros i err; cbn [New_loop].
  - apply kept_ret.
  - apply (kept_bind 1 left).
    { eapply kept_le; [apply coll_Insert_kept |].
      destruct (acquires _); lia. }
    intros [x |].
    + destruct (mgo_IsDup x); [| apply IH].
      apply (kept_bind 0 left).
      { destruct (Nat.leb maxRetries i); [apply kept_ret |].
        apply (kept_bind 0 0); [apply checkIsExpired_kept | intros b].
        apply kept_ret. }
      intros [|]; [| apply IH].
      apply (kept_bind 0 left); [apply coll_FindId_One_kept |].
      intros [d [e2 |]]; apply IH.
    + eapply kept_le; [apply (kept_bind 0 0); [apply send_kept |] | lia].
      intros _. apply kept_ret.
Qed.

(** ** What every call of [New] does to the updater and to the trace *)

Lemma New_frame fmt opts w :
  updater_ok w ->
  runs (New fmt opts) w
    (fun _ w' =>
       (exists new, trace w' = trace w ++ new /\ (acquisitions new <= 2)%nat)
       /\ lockUpdater.once (updater w') = true
       /\ lockUpdater.spinning (updater w') = true
       /\ lockUpdater.launched (updater w')
          = (if lockUpdater.once (updater w)
             then lockUpdater.launched (updater w)
             else S (lockUpdater.launched (updater w)))).
Proof.
  intros Hok. unfold New. apply runs_bind.
  match goal with
  | |- runs _ _ (fun _ w1 => runs ?b _ _) => assert (Hk : kept 2 b)
  end.
  { destruct opts as [o |]; [| apply (kept_le 0); [apply kept_ret | lia]].
    destruct (negb (Target.IsValid (Opts.Target o)));
      [apply (kept_le 0); [apply kept_ret | lia] |].
    destruct (Opts.Kind o) as [kind |];
      [| apply (kept_le 0); [apply kept_ret | lia]].
    destruct (String.eqb (Opts.Owner o) "");
      [apply (kept_le 0); [apply kept_ret | lia] |].
    apply (kept_bind 0 2); [apply db_Conn_kept | intros [x |]].
    { apply (kept_le 0); [apply kept_ret | lia]. }
    apply (kept_bind 0 2); [apply time_Now_kept | intros now].
    apply (New_loop_kept fmt _ (S maxRetries)). }
  unfold runs at 1, lockUpdater_start. cbv zeta.
  destruct (lockUpdater.once (updater w)) eqn:Honce.
  - exists tt, w. split; [reflexivity |].
    pose proof (Hok Honce) as Hs.
    eapply runs_weaken; [apply Hk; exact Hs |].
    intros r w' [T C F S O L]. cbn beta.
    repeat split; try congruence.
  - eexists tt, _. split; [reflexivity |].
    eapply runs_weaken; [apply Hk; reflexivity |].
    intros r w' [T C F S O L]. cbn in *.
    repeat split; try congruence.
Qed.

Lemma New_calls_frame fmt l :
  forall w, updater_ok w ->
    runs (New_calls fmt l) w
      (fun _ w' =>
         match l with
         | [] => updater w' = updater w
         | _ :: _ =>
             lockUpdater.spinning (updater w') = true
             /\ lockUpdater.once (updater w') = true
             /\ lockUpdater.launched (updater w')
                = (if lockUpdater.once (updater w)
                   then lockUpdater.launched (updater w)
                   else S (lockUpdater.launched (updater w)))
         end).
Proof.
  induction l as [| opts l IH]; intros w Hok; cbn [New_calls].
  - apply runs_ret. reflexivity.
  - apply runs_bind.
    destruct (New_frame fmt opts w Hok) as (r & w1 & E & _ & O1 & S1 & L1).
    exists r, w1. split; [exact E |].
    assert (Hok1 : updater_ok w1) by (intros _; exact S1).
    eapply runs_weaken; [apply IH; exact Hok1 |].
    intros [] w2 H. cbn beta in H. destruct l as [| o2 l'].
    + rewrite H. auto.
    + destruct H as (S2 & O2 & L2). rewrite O1 in L2.
      repeat split; congruence.
Qed.

(** ** The acquisition loop *)

(** C4: a call of [New] returns, and between its start and its return it
    makes at most two attempts to insert the event it was asked for. *)
Theorem New_at_most_two_attempts fmt opts w :
  updater_ok w ->
  exists r w' new,
    New fmt opts w = Returns r w'
    /\ trace w' = trace w ++ new
    /\ (acquisitions new <= 2)%nat.
Proof.
  intros Hok.
  destruct (New_frame fmt opts w Hok) as (r & w' & E & (new & T & A) & _).
  exists r, w', new. auto.
Qed.

Lemma New_at_most_two_attempts_witness :
  exists r w' new,
    New coarse (Some (deploy app_a false)) (world stale) = Returns r w'
    /\ trace w' = trace (world stale) ++ new
    /\ (acquisitions new <= 2)%nat.
Proof.
  apply New_at_most_two_attempts.
  unfold updater_ok. vm_compute. reflexivity.
Defined.

(** C9, as the code has it: the updater is started by the first call of
    [New], whatever that call returns, and by no later call; a process that
    has not called [New] has no updater running. *)
Theorem New_calls_start_updater_once fmt clk flt l :
  exists w',
    New_calls fmt l (boot clk flt) = Returns tt w'
    /\ lockUpdater.launched (updater w')
       = match l with [] => 0%nat | _ :: _ => 1%nat end
    /\ lockUpdater.spinning (updater w')
       = match l with [] => false | _ :: _ => true end.
Proof.
  destruct (New_calls_frame fmt l (boot clk flt)) as ([] & w' & E & H).
  { intros H. discriminate H. }
  exists w'. split; [exact E |].
  destruct l as [| opts l].
  - rewrite H. split; reflexivity.
  - destruct H as (S1 & _ & L1). cbn in L1. auto.
Qed.

(** C9, as stated, fails: a call of [New] that is refused for want of
    options has started the updater. *)
Lemma New_refused_starts_updater :
  returned (New coarse None (boot (every Minute) no_fault))
    = Some (None, Some ErrNoOpts)
  /\ lockUpdater.spinning
       (updater (world_after (New coarse None (boot (every Minute) no_fault))))
     = true
  /\ lockUpdater.launched
       (updater (world_after (New coarse None (boot (every Minute) no_fault))))
     = 1%nat.
Proof. repeat split. Qed.

(** ** Validation *)

(** C5, as the code has it: [New] checks the options, the target, the
    kind and the owner in this order, answers the first that fails with
    the validation error of the package for it, and calls the database in
    none of these cases. *)
Theorem New_validation fmt w opts :
  (opts = None ->
   refused_with (ErrValidation "event opts is mandatory")
     (New fmt opts w) w)
  /\ (forall o, opts = Some o ->
       Target.IsValid (Opts.Target o) = false ->
       refused_with (ErrValidation "event target is mandatory")
         (New fmt opts w) w)
  /\ (forall o, opts = Some o ->
       Target.IsValid (Opts.Target o) = true ->
       Opts.Kind o = None ->
       refused_with (ErrValidation "event kind is mandatory")
         (New fmt opts w) w)
  /\ (forall o kind, opts = Some o ->
       Target.IsValid (Opts.Target o) = true ->
       Opts.Kind o = Some kind ->
       Opts.Owner o = "" ->
       refused_with (ErrValidation "event owner is mandatory")
         (New fmt opts w) w).
Proof.
  assert (St : forall b : Go (option Event.t * error),
             (lockUpdater_start ;;; b) w
             = b (world_after (lockUpdater_start w))).
  { intros b. reflexivity. }
  assert (Ev : events (world_after (lockUpdater_start w)) = events w
               /\ trace (world_after (lockUpdater_start w)) = trace w).
  { unfold lockUpdater_start.
    destruct (lockUpdater.once (updater w)); split; reflexivity. }
  destruct Ev as (Ev & Tr).
  repeat split; intros; subst opts; unfold New; rewrite St; cbn;
    repeat match goal with
           | H : _ = _ |- _ => rewrite H; cbn
           end; auto.
Qed.

(** C5, as stated, fails: the error for an empty target field does not
    read "target required". *)
Lemma New_target_error_text :
  returned (New coarse (Some (deploy (Target.mk "app" "") false))
              (boot (every Minute) no_fault))
    = Some (None, Some (ErrValidation "event target is mandatory"))
  /\ String.eqb (ErrValidation_Error "event target is mandatory")
                "target required" = false.
Proof. split; reflexivity. Qed.

(** ** Calls on a healthy database *)

Lemma find_existsb k s d :
  find (has_key k) s = Some d -> existsb (has_key k) s = true.
Proof.
  induction s as [| x s IH]; cbn; [discriminate |].
  destruct (has_key k x); [reflexivity | exact IH].
Qed.

Lemma bind_eq {A B} (m : Go A) (f : A -> Go B) w a w1 r :
  m w = Returns a w1 -> f a w1 = r -> bind m f w = r.
Proof. intros E1 E2. unfold bind. rewrite E1. exact E2. Qed.

Lemma dbop_eq {A} c (none : A) run w a e s :
  healthy w -> run (events w) = (a, e, s) ->
  dbop c none run w = Returns (a, e) (record c e s w).
Proof. intros Hh E. unfold dbop. rewrite Hh, E. reflexivity. Qed.

Lemma db_Conn_eq w :
  healthy w -> db_Conn w = Returns None (record CConn None (events w) w).
Proof.
  intros Hh. unfold db_Conn.
  eapply bind_eq; [apply dbop_eq; [exact Hh | reflexivity] |].
  reflexivity.
Qed.

Lemma coll_Insert_dup d w :
  healthy w -> existsb (has_key (eventData.key d)) (events w) = true ->
  coll_Insert d w
  = Returns (Some (mgo_dup (eventData.key d)))
      (record (CInsert d) (Some (mgo_dup (eventData.key d))) (events w) w).
Proof.
  intros Hh E. unfold coll_Insert.
  eapply bind_eq; [apply dbop_eq; [exact Hh | rewrite E; reflexivity] |].
  reflexivity.
Qed.

Lemma coll_Insert_new d w :
  healthy w -> existsb (has_key (eventData.key d)) (events w) = false ->
  coll_Insert d w = Returns None (record (CInsert d) None (events w ++ [d]) w).
Proof.
  intros Hh E. unfold coll_Insert.
  eapply bind_eq; [apply dbop_eq; [exact Hh | rewrite E; reflexivity] |].
  reflexivity.
Qed.

Lemma coll_FindId_One_found k d w :
  healthy w -> find (has_key k) (events w) = Some d ->
  coll_FindId_One k w
  = Returns (eventData.decode d, None) (record (CFindId k) None (events w) w).
Proof.
  intros Hh E. unfold coll_FindId_One.
  apply dbop_eq; [exact Hh | rewrite E; reflexivity].
Qed.

Lemma coll_RemoveId_found k w :
  healthy w -> existsb (has_key k) (events w) = true ->
  coll_RemoveId k w
  = Returns None
      (record (CRemoveId k) None (remove_first (has_key k) (events w)) w).
Proof.
  intros Hh E. unfold coll_RemoveId.
  eapply bind_eq; [apply dbop_eq; [exact Hh | rewrite E; reflexivity] |].
  reflexivity.
Qed.

Lemma healthy_started w :
  healthy w -> healthy (world_after (lockUpdater_start w)).
Proof.
  intros H. unfold lockUpdater_start. cbn.
  destruct (lockUpdater.once (updater w)); exact H.
Qed.

Lemma started_same w :
  let w1 := world_after (lockUpdater_start w) in
  events w1 = events w /\ clock w1 = clock w /\ reads w1 = reads w
  /\ trace w1 = trace w /\ oids w1 = oids w
  /\ lockUpdater.spinning (updater w1)
     = (negb (lockUpdater.once (updater w))
        || lockUpdater.spinning (updater w)).
Proof.
  unfold lockUpdater_start. cbn.
  destruct (lockUpdater.once (updater w)); cbn; auto 10.
Qed.

Lemma lockUpdater_start_eq w :
  lockUpdater_start w = Returns tt (world_after (lockUpdater_start w)).
Proof. reflexivity. Qed.

Lemma healthy_record c e s w : healthy w -> healthy (record c e s w).
Proof. exact (fun H => H). Qed.

Lemma healthy_set_reads n w : healthy w -> healthy (set_reads n w).
Proof. exact (fun H => H). Qed.

Lemma healthy_set_oids n w : healthy w -> healthy (set_oids n w).
Proof. exact (fun H => H). Qed.

Lemma healthy_set_updater u w : healthy w -> healthy (set_updater u w).
Proof. exact (fun H => H). Qed.

Create HintDb world.
#[local] Hint Resolve healthy_record healthy_set_reads healthy_set_oids
  healthy_set_updater : world.

Ltac wsimpl :=
  cbn [events clock reads dbfault oids updater trace record set_trace
       set_events set_reads set_oids set_updater Event.data Event.of_data
       Event.logBuffer Event.set_data fst snd].

Ltac step L := eapply bind_eq; [L | cbv beta iota; wsimpl].

(** ** A target that is held *)

(** C1: when the target of [opts] is held by an event whose lock has not
    expired, the insert of [New] fails on the duplicate key, [New] returns
    the locked error with the event that holds the target, and the
    collection is as it was. *)
Theorem New_locked fmt o kind d w :
  healthy w ->
  Target.IsValid (Opts.Target o) = true ->
  Opts.Kind o = Some kind ->
  Opts.Owner o <> "" ->
  find (has_key (KDoc (Opts.Target o))) (events w) = Some d ->
  (clock w (S (reads w)) <= eventData.LockUpdateTime d + lockExpireTimeout)%Z ->
  exists w',
    New fmt (Some o) w
      = Returns
          (None, Some (ErrEventLocked (Event.of_data (eventData.decode d))))
          w'
    /\ events w' = events w
    /\ Forall (fun en => snapshot en = events w) (calls_from w w')
    /\ (exists rest,
          calls_from w w'
          = mkEntry CConn None (events w)
            :: mkEntry (CInsert (candidate o kind (clock w (reads w))))
                 (Some (mgo_dup (KDoc (Opts.Target o)))) (events w)
            :: rest).
Proof.
  intros Hh Hv Hk Ho Hf Hc.
  assert (Hex := find_existsb _ _ _ Hf).
  apply String.eqb_neq in Ho.
  pose proof (healthy_started w Hh) as Hh1.
  destruct (started_same w) as (Ev1 & Ck1 & Rd1 & Tr1 & _).
  remember (world_after (lockUpdater_start w)) as w1 eqn:Ew1.
  rewrite <- Ev1, <- Ck1, <- Rd1 in *. clear Ck1 Rd1.
  unfold calls_from. rewrite <- Tr1.
  eexists. split; [| split; [| split]].
  - unfold New. step ltac:(apply lockUpdater_start_eq).
    rewrite <- Ew1.
    rewrite Hv, Hk, Ho. cbn [negb].
    step ltac:(apply db_Conn_eq; assumption).
    step ltac:(reflexivity).
    set (evt := Event.of_data _).
    assert (Kevt : eventData.key (Event.data evt) = KDoc (Opts.Target o))
      by reflexivity.
    cbn [New_loop maxRetries].
    step ltac:(apply coll_Insert_dup;
               [auto with world | rewrite Kevt; exact Hex]).
    cbn [mgo_IsDup Nat.leb]. rewrite Kevt.
    eapply bind_eq.
    { step ltac:(idtac); [| reflexivity].
      unfold checkIsExpired.
      step ltac:(apply (coll_FindId_One_found _ d);
                 [auto with world | exact Hf]).
      step ltac:(reflexivity).
      replace (Time_After _ _) with false; [reflexivity |].
      symmetry. unfold Time_After, Time_Add.
      change (eventData.LockUpdateTime (eventData.decode d))
        with (eventData.LockUpdateTime d).
      apply Z.ltb_ge. exact Hc. }
    cbv beta iota; wsimpl. cbn [negb].
    step ltac:(apply (coll_FindId_One_found _ d);
               [auto with world | exact Hf]).
    step ltac:(apply coll_Insert_dup;
               [auto with world | rewrite Kevt; exact Hex]).
    cbn [mgo_IsDup Nat.leb]. rewrite Kevt.
    step ltac:(reflexivity).
    step ltac:(apply (coll_FindId_One_found _ d);
               [auto with world | exact Hf]).
    reflexivity.
  - reflexivity.
  - wsimpl. rewrite <- !app_assoc. rewrite skipn_app, skipn_all, Nat.sub_diag.
    cbn. repeat constructor.
  - wsimpl. rewrite <- !app_assoc. rewrite skipn_app, skipn_all, Nat.sub_diag.
    cbn. eexists. reflexivity.
Qed.

Lemma New_locked_witness :
  exists w',
    New coarse (Some (deploy app_a false)) (world held)
      = Returns
          (None,
           Some (ErrEventLocked (Event.of_data (eventData.decode first_deploy))))
          w'
    /\ events w' = events (world held)
    /\ Forall (fun en => snapshot en = events (world held))
         (calls_from (world held) w')
    /\ (exists rest,
          calls_from (world held) w'
          = mkEntry CConn None (events (world held))
            :: mkEntry
                 (CInsert (candidate (deploy app_a false) deploy_scheme
                             (clock (world held) (reads (world held)))))
                 (Some (mgo_dup (KDoc (Opts.Target (deploy app_a false)))))
                 (events (world held))
            :: rest).
Proof.
  apply (New_locked coarse (deploy app_a false) deploy_scheme first_deploy
           (world held)).
  - intros n. reflexivity.
  - reflexivity.
  - reflexivity.
  - intros H. discriminate H.
  - reflexivity.
  - vm_compute. intros H. discriminate H.
Defined.

Lemma send_eq f w :
  lockUpdater.spinning (updater w) = true ->
  send f w
  = Returns tt
      (set_updater
         (lockUpdater.mk (lockUpdater.once (updater w))
            (lockUpdater.stopCh (updater w)) true
            (f (lockUpdater.set (updater w)))
            (lockUpdater.launched (updater w))) w).
Proof. intros H. unfold send. rewrite H. reflexivity. Qed.

Lemma existsb_filter_nil {A} (f : A -> bool) s :
  existsb f s = false <-> filter f s = [].
Proof.
  induction s as [| x s IH]; cbn; [tauto |].
  destruct (f x); cbn; [split; discriminate | exact IH].
Qed.

Lemma I1_remove_first t s :
  I1 s -> existsb (has_key (KDoc t)) (remove_first (has_key (KDoc t)) s) = false.
Proof.
  intros H. specialize (H t). induction s as [| x s IH]; cbn in *; [reflexivity |].
  destruct (has_key (KDoc t) x) eqn:E.
  - cbn in H. apply existsb_filter_nil.
    destruct (filter (has_key (KDoc t)) s); [reflexivity | cbn in H; lia].
  - cbn. rewrite E. apply IH. exact H.
Qed.

Lemma I1_single d : I1 [d].
Proof. intros t. cbn. destruct (has_key (KDoc t) d); cbn; lia. Qed.

Lemma remove_first_app sel (s s' : list eventData.t) :
  existsb sel s = true -> remove_first sel (s ++ s') = remove_first sel s ++ s'.
Proof.
  induction s as [| x s IH]; cbn; [discriminate |].
  destruct (sel x); cbn; [reflexivity |].
  intros H. rewrite IH by exact H. reflexivity.
Qed.

Lemma existsb_app_false {A} (f : A -> bool) s s' :
  existsb f s = false -> existsb f s' = false -> existsb f (s ++ s') = false.
Proof. intros H1 H2. rewrite existsb_app, H1, H2. reflexivity. Qed.

Lemma Target_eqb_eq a b : Target.eqb a b = true -> a = b.
Proof.
  destruct a as [n1 v1], b as [n2 v2]. unfold Target.eqb. cbn.
  intros H. apply andb_true_iff in H. destruct H as [H1 H2].
  apply String.eqb_eq in H1, H2. congruence.
Qed.

Lemma Key_eqb_eq a b : Key_eqb a b = true -> a = b.
Proof.
  destruct a as [s | m], b as [t | n]; cbn; try discriminate.
  - intros H. f_equal. apply Target_eqb_eq. exact H.
  - intros H. f_equal. apply Nat.eqb_eq. exact H.
Qed.

Lemma find_key k s d : find (has_key k) s = Some d -> eventData.key d = k.
Proof.
  intros H. apply find_some in H. destruct H as [_ H].
  apply Key_eqb_eq. exact H.
Qed.

Lemma key_roundtrip k : eventId.GetBSON (eventId.SetBSON k) = k.
Proof. destruct k; reflexivity. Qed.

Lemma decode_key d : eventData.key (eventData.decode d) = eventData.key d.
Proof. unfold eventData.decode. apply key_roundtrip. Qed.

(** ** A target whose lock has expired *)

(** C3: when the target of [opts] is held by an event whose lock has
    expired, the first insert of [New] fails on the duplicate key, the
    stale event is done with the error "event expired, no update for"
    and the time since its last lock update, which stores its historical
    twin and removes the running document, and the insert is tried once
    more, with success. *)
Theorem New_reclaims_expired fmt o kind d w :
  healthy w ->
  updater_ok w ->
  Target.IsValid (Opts.Target o) = true ->
  Opts.Kind o = Some kind ->
  Opts.Owner o <> "" ->
  find (has_key (KDoc (Opts.Target o))) (events w) = Some d ->
  I1 (events w) ->
  existsb (has_key (KOid (oids w))) (events w) = false ->
  (eventData.LockUpdateTime d + lockExpireTimeout < clock w (S (reads w)))%Z ->
  exists w',
    New fmt (Some o) w
      = Returns (Some (Event.of_data (candidate o kind (clock w (reads w)))), None) w'
    /\ events w'
       = remove_first (has_key (KDoc (Opts.Target o))) (events w)
         ++ [historical
               ("event expired, no update for "
                ++ fmt (Time_Sub (clock w (2 + reads w)) (eventData.LockUpdateTime d)))%string
               (clock w (3 + reads w)) None "" (oids w) d;
             candidate o kind (clock w (reads w))]
    /\ map call (calls_from w w')
       = [CConn;
          CInsert (candidate o kind (clock w (reads w)));
          CFindId (KDoc (Opts.Target o));
          CConn;
          CInsert (historical
               ("event expired, no update for "
                ++ fmt (Time_Sub (clock w (2 + reads w)) (eventData.LockUpdateTime d)))%string
               (clock w (3 + reads w)) None "" (oids w) d);
          CRemoveId (KDoc (Opts.Target o));
          CInsert (candidate o kind (clock w (reads w)))].
Proof.
  intros Hh Hok Hv Hk Ho Hf HI1 Hfresh Hc.
  assert (Hex := find_existsb _ _ _ Hf).
  assert (Kd := find_key _ _ _ Hf).
  apply String.eqb_neq in Ho.
  pose proof (healthy_started w Hh) as Hh1.
  destruct (started_same w) as (Ev1 & Ck1 & Rd1 & Tr1 & Oi1 & Sp1).
  assert (Hs1 : lockUpdater.spinning (updater (world_after (lockUpdater_start w))) = true).
  { rewrite Sp1. unfold updater_ok in Hok.
    destruct (lockUpdater.once (updater w)); [cbn; auto | reflexivity]. }
  clear Sp1 Hok.
  remember (world_after (lockUpdater_start w)) as w1 eqn:Ew1.
  rewrite <- Ev1, <- Ck1, <- Rd1, <- Oi1 in *. clear Ck1 Rd1 Ev1 Oi1.
  unfold calls_from. rewrite <- Tr1. clear Tr1.
  eexists. split; [| split].
  - unfold New. step ltac:(apply lockUpdater_start_eq).
    rewrite <- Ew1.
    rewrite Hv, Hk, Ho. cbn [negb].
    step ltac:(apply db_Conn_eq; assumption).
    step ltac:(reflexivity).
    change (eventData.mk _ _ _ _ _ _ _ _ _ _ _ _ _ _) with (candidate o kind (clock w1 (reads w1))).
    set (cand := candidate o kind (clock w1 (reads w1))).
    assert (Kevt : eventData.key cand = KDoc (Opts.Target o)) by reflexivity.
    cbn [New_loop maxRetries]. wsimpl.
    step ltac:(apply coll_Insert_dup;
               [auto with world | rewrite Kevt; exact Hex]).
    cbn [mgo_IsDup Nat.leb]. rewrite Kevt.
    eapply bind_eq.
    { step ltac:(idtac); [| reflexivity].
      unfold checkIsExpired.
      step ltac:(apply (coll_FindId_One_found _ d);
                 [auto with world | exact Hf]).
      step ltac:(reflexivity).
      replace (Time_After _ _) with true.
      2:{ symmetry. unfold Time_After, Time_Add.
          change (eventData.LockUpdateTime (eventData.decode d))
            with (eventData.LockUpdateTime d).
          apply Z.ltb_lt. exact Hc. }
      step ltac:(unfold time_Since; step ltac:(reflexivity); reflexivity).
      unfold Done, done.
      step ltac:(idtac).
      { step ltac:(apply send_eq; exact Hs1).
        step ltac:(apply db_Conn_eq; auto with world).
        step ltac:(reflexivity).
        step ltac:(reflexivity).
        step ltac:(apply coll_Insert_new; [auto with world | ]).
        { wsimpl. exact Hfresh. }
        step ltac:(apply coll_RemoveId_found; [auto with world |]).
        { wsimpl. rewrite existsb_app.
          change (eventData.key _) with (eventData.key (eventData.decode d)).
          rewrite decode_key, Kd, Hex. reflexivity. }
        reflexivity. }
      reflexivity. }
    cbv beta iota; wsimpl. cbn [negb].
    step ltac:(apply coll_Insert_new; [auto with world | ]).
    { wsimpl. rewrite Kevt.
      change (eventData.key (eventData.set_Log _ _))
        with (eventData.key (eventData.decode d)).
      rewrite decode_key, Kd.
      rewrite remove_first_app by exact Hex.
      apply existsb_app_false; [apply I1_remove_first; exact HI1 | reflexivity]. }
    step ltac:(apply send_eq; wsimpl; cbn [lockUpdater.spinning]; reflexivity).
    reflexivity.
  - wsimpl.
    change (eventData.key (eventData.set_Log _ _))
      with (eventData.key (eventData.decode d)).
    rewrite decode_key, Kd.
    rewrite remove_first_app by exact Hex.
    rewrite <- app_assoc. reflexivity.
  - wsimpl.
    change (eventData.key (eventData.set_Log _ _))
      with (eventData.key (eventData.decode d)).
    rewrite decode_key, Kd.
    rewrite <- !app_assoc. rewrite skipn_app, skipn_all, Nat.sub_diag.
    cbn [skipn app map call]. reflexivity.
Qed.

Lemma New_reclaims_expired_witness :
  exists w',
    New coarse (Some (deploy app_a false)) (world stale)
      = Returns
          (Some (Event.of_data
                   (candidate (deploy app_a false) deploy_scheme
                      (clock (world stale) (reads (world stale))))),
           None) w'
    /\ events w'
       = remove_first (has_key (KDoc (Opts.Target (deploy app_a false))))
           (events (world stale))
         ++ [historical
               ("event expired, no update for "
                ++ coarse (Time_Sub (clock (world stale)
                                       (2 + reads (world stale)))
                             (eventData.LockUpdateTime first_deploy)))%string
               (clock (world stale) (3 + reads (world stale))) None ""
               (oids (world stale)) first_deploy;
             candidate (deploy app_a false) deploy_scheme
               (clock (world stale) (reads (world stale)))]
    /\ map call (calls_from (world stale) w')
       = [CConn;
          CInsert (candidate (deploy app_a false) deploy_scheme
                     (clock (world stale) (reads (world stale))));
          CFindId (KDoc (Opts.Target (deploy app_a false)));
          CConn;
          CInsert (historical
               ("event expired, no update for "
                ++ coarse (Time_Sub (clock (world stale)
                                       (2 + reads (world stale)))
                             (eventData.LockUpdateTime first_deploy)))%string
               (clock (world stale) (3 + reads (world stale))) None ""
               (oids (world stale)) first_deploy);
          CRemoveId (KDoc (Opts.Target (deploy app_a false)));
          CInsert (candidate (deploy app_a false) deploy_scheme
                     (clock (world stale) (reads (world stale))))].
Proof.
  apply (New_reclaims_expired coarse (deploy app_a false) deploy_scheme
           first_deploy (world stale)).
  - intros n. reflexivity.
  - intros _. reflexivity.
  - reflexivity.
  - reflexivity.
  - intros H. discriminate H.
  - reflexivity.
  - apply I1_single.
  - reflexivity.
  - vm_compute. reflexivity.
Defined.

(** ** Termination *)

Lemma calls_from_app w w' new :
  trace w' = trace w ++ new -> calls_from w w' = new.
Proof.
  intros H. unfold calls_from. rewrite H.
  rewrite skipn_app, skipn_all, Nat.sub_diag. reflexivity.
Qed.

Lemma db_Conn_ok w :
  dbfault w (length (trace w)) = None ->
  db_Conn w = Returns None (record CConn None (events w) w).
Proof.
  intros H. unfold db_Conn, bind, dbop. rewrite H. reflexivity.
Qed.

(** What [done] does when it is not an abort and the connection is there:
    it inserts the historical document, then removes the document under
    the [_id] the event had. *)
Lemma done_shape evtErr customData e w :
  lockUpdater.spinning (updater w) = true ->
  dbfault w (length (trace w)) = None ->
  let twin := historical (done_Error evtErr (Event.data e))
                (clock w (reads w)) customData (Event.logBuffer e) (oids w)
                (Event.data e) in
  exists r s1 r2 s2 w',
    done evtErr customData false e w = Returns (Event.set_data twin e, r) w'
    /\ trace w'
       = trace w ++ [mkEntry CConn None (events w);
                     mkEntry (CInsert twin) r s1;
                     mkEntry (CRemoveId (eventData.key (Event.data e))) r2 s2]
    /\ ((r <> None /\ s1 = events w) \/ (r = None /\ s1 = events w ++ [twin]))
    /\ (s2 = s1
        \/ s2 = remove_first (has_key (eventData.key (Event.data e))) s1)
    /\ events w' = s2.
Proof.
  intros Hs Hc twin.
  unfold done, bind, send_removeCh, send. rewrite Hs.
  rewrite db_Conn_ok by exact Hc.
  unfold time_Now, bson_NewObjectId, coll_Insert, coll_RemoveId, bind, dbop,
    ret.
  wsimpl. rewrite !length_app. cbn [length].
  fold twin.
  change (eventData.set_ID _ _) with twin.
  change (eventData.key (eventData.set_Log _ _))
    with (eventData.key (Event.data e)).
  destruct (dbfault w (length (trace w) + 1)) as [m1 |];
    [| destruct (existsb (has_key (eventData.key twin)) (events w))];
    wsimpl; rewrite ?length_app; cbn [length];
    (destruct (dbfault w (length (trace w) + 1 + 1)) as [m2 |];
     [| match goal with
        | |- context [existsb ?f ?l] => destruct (existsb f l)
        end]);
    wsimpl;
    do 5 eexists;
    (split; [reflexivity |]);
    (split; [wsimpl; rewrite <- ?app_assoc; reflexivity |]);
    (split; [first [left; split; [discriminate | reflexivity]
                   | right; split; reflexivity] |]);
    (split; [first [left; reflexivity | right; reflexivity]
            | wsimpl; reflexivity]).
Qed.

Lemma filter_remove_first_le (f sel : eventData.t -> bool) s :
  (length (filter f (remove_first sel s)) <= length (filter f s))%nat.
Proof.
  induction s as [| x s IH]; cbn; [lia |].
  destruct (sel x); cbn; destruct (f x); cbn; lia.
Qed.

Lemma I1_remove_first_any sel s : I1 s -> I1 (remove_first sel s).
Proof.
  intros H t. specialize (H t).
  pose proof (filter_remove_first_le (has_key (KDoc t)) sel s). lia.
Qed.

Lemma I1_app_oid s d n :
  I1 s -> eventData.key d = KOid n -> I1 (s ++ [d]).
Proof.
  intros H K t. specialize (H t).
  rewrite filter_app, length_app. cbn. unfold has_key at 2. rewrite K. cbn.
  lia.
Qed.

(** C2, as the code has it: [done] first inserts the historical document
    under a fresh ObjectId, with the running document still in place, and
    only then removes the document under the [_id] the event had; at most
    one document per target is there after each of the two calls. *)
Theorem done_inserts_before_it_removes evtErr customData e w :
  lockUpdater.spinning (updater w) = true ->
  dbfault w (length (trace w)) = None ->
  I1 (events w) ->
  exists e' r s1 r2 s2 w',
    done evtErr customData false e w = Returns (e', r) w'
    /\ calls_from w w'
       = [mkEntry CConn None (events w);
          mkEntry (CInsert (Event.data e')) r s1;
          mkEntry (CRemoveId (eventData.key (Event.data e))) r2 s2]
    /\ removes_first (calls_from w w') = false
    /\ eventData.key (Event.data e') = KOid (oids w)
    /\ (r = None -> s1 = events w ++ [Event.data e'])
    /\ I1 s1 /\ I1 s2 /\ events w' = s2.
Proof.
  intros Hs Hc HI.
  destruct (done_shape evtErr customData e w Hs Hc)
    as (r & s1 & r2 & s2 & w' & E & T & H1 & H2 & Ev).
  eexists _, r, s1, r2, s2, w'. split; [exact E |].
  rewrite (calls_from_app _ _ _ T). cbn [Event.data Event.set_data].
  assert (I1 s1) as HI1.
  { destruct H1 as [[_ ->] | [_ ->]]; [exact HI |].
    eapply I1_app_oid; [exact HI | reflexivity]. }
  repeat split; auto.
  - intros ->. destruct H1 as [[N _] | [_ ->]]; [| reflexivity].
    exfalso. apply N. reflexivity.
  - destruct H2 as [-> | ->]; [exact HI1 |].
    apply I1_remove_first_any. exact HI1.
Qed.

Lemma done_inserts_before_it_removes_witness :
  exists e' r s1 r2 s2 w',
    done None None false (handle 0 held) (world held) = Returns (e', r) w'
    /\ calls_from (world held) w'
       = [mkEntry CConn None (events (world held));
          mkEntry (CInsert (Event.data e')) r s1;
          mkEntry (CRemoveId (eventData.key (Event.data (handle 0 held))))
            r2 s2]
    /\ removes_first (calls_from (world held) w') = false
    /\ eventData.key (Event.data e') = KOid (oids (world held))
    /\ (r = None -> s1 = events (world held) ++ [Event.data e'])
    /\ I1 s1 /\ I1 s2 /\ events w' = s2.
Proof.
  apply done_inserts_before_it_removes.
  - reflexivity.
  - reflexivity.
  - apply I1_single.
Defined.

(** C2, as stated, fails: when a running deploy is done, the historical
    document is inserted first, while the running document is still
    there, and the running document is removed after it. *)
Lemma Done_inserts_with_the_lock_in_place :
  removes_first
    (calls_from (world held)
       (world_after (Done None (handle 0 held) (world held)))) = false
  /\ map (fun en => (acquires (call en),
                     existsb (has_key (KDoc app_a)) (snapshot en),
                     length (snapshot en)))
       (calls_from (world held)
          (world_after (Done None (handle 0 held) (world held))))
     = [(false, true, 1%nat); (false, true, 2%nat); (false, false, 1%nat)]
  /\ map (fun en => match call en with
                    | CConn => "Conn"
                    | CInsert _ => "Insert"
                    | CRemoveId _ => "RemoveId"
                    | _ => "other"
                    end)
       (calls_from (world held)
          (world_after (Done None (handle 0 held) (world held))))
     = ["Conn"; "Insert"; "RemoveId"].
Proof. repeat split. Qed.

(** ** Cancel requests *)

Lemma find_split (sel : eventData.t -> bool) upd s d :
  find sel s = Some d ->
  exists pre post,
    s = pre ++ d :: post
    /\ existsb sel pre = false
    /\ sel d = true
    /\ update_first sel upd s = pre ++ upd d :: post.
Proof.
  induction s as [| x s IH]; cbn; [discriminate |].
  destruct (sel x) eqn:E.
  - intros H. injection H as ->. exists [], s. cbn. auto.
  - intros H. destruct (IH H) as (pre & post & -> & Hp & Hd & Hu).
    exists (x :: pre), post. cbn. rewrite E, Hu. auto.
Qed.

(** C10: a call of [TryCancel] that succeeds has rewritten one document,
    the first with the [_id] of the event: its cancel information is the
    owner, the reason, the time of the call and the asked flag, with no
    acknowledgement left in it, and its other fields are as they were;
    the event holds the new document. *)
Theorem TryCancel_replaces_cancelInfo reason owner e w e' w' :
  TryCancel reason owner e w = Returns (e', None) w' ->
  exists pre d d' post,
    events w = pre ++ d :: post
    /\ existsb (has_key (eventData.key (Event.data e))) pre = false
    /\ eventData.key d = eventData.key (Event.data e)
    /\ events w' = pre ++ d' :: post
    /\ eventData.CancelInfo d'
       = cancelInfo.mk owner (clock w (reads w)) Time_zero reason true false
    /\ eventData.set_CancelInfo (eventData.CancelInfo d) d' = d
    /\ Event.data e' = eventData.decode d'.
Proof.
  unfold TryCancel.
  destruct (negb (eventData.Cancelable (Event.data e))
            || negb (eventData.Running (Event.data e)));
    [intros H; discriminate H |].
  unfold db_Conn, coll_Find_Apply, time_Now, dbop, ret, bind. cbv beta.
  wsimpl.
  destruct (dbfault w (length (trace w))); [intros H; discriminate H |].
  wsimpl. rewrite length_app. cbn [length].
  destruct (dbfault w (length (trace w) + 1));
    [cbn [is_ErrNotFound]; intros H; discriminate H |].
  match goal with
  | |- context [find ?sel (events w)] =>
      destruct (find sel (events w)) as [d |] eqn:F
  end; [| cbn [is_ErrNotFound]; intros H; discriminate H].
  cbn [is_ErrNotFound]. intros H. injection H as <- <-.
  destruct (find_split _
              (eventData.set_CancelInfo
                 (cancelInfo.mk owner (clock w (reads w)) Time_zero reason
                    true false)) _ _ F)
    as (pre & post & Es & Hp & Hd & Hu).
  exists pre, d, (eventData.set_CancelInfo
                    (cancelInfo.mk owner (clock w (reads w)) Time_zero reason
                       true false) d), post.
  rewrite andb_true_r in Hd.
  repeat split.
  - exact Es.
  - rewrite <- Hp. clear. induction pre as [| x pre IH]; cbn; [reflexivity |].
    rewrite IH, andb_true_r. reflexivity.
  - apply Key_eqb_eq. exact Hd.
  - wsimpl. exact Hu.
  - destruct d. reflexivity.
Qed.

Lemma TryCancel_replaces_cancelInfo_witness :
  exists pre d d' post,
    events (world acked) = pre ++ d :: post
    /\ existsb (has_key (eventData.key (Event.data (handle 0 acked)))) pre
       = false
    /\ eventData.key d = eventData.key (Event.data (handle 0 acked))
    /\ events (world_after
                 (TryCancel "again" "root" (handle 0 acked) (world acked)))
       = pre ++ d' :: post
    /\ eventData.CancelInfo d'
       = cancelInfo.mk "root" (clock (world acked) (reads (world acked)))
           Time_zero "again" true false
    /\ eventData.set_CancelInfo (eventData.CancelInfo d) d' = d
    /\ Event.data
         (event_after
            (TryCancel "again" "root" (handle 0 acked) (world acked)))
       = eventData.decode d'.
Proof.
  apply (TryCancel_replaces_cancelInfo "again" "root" (handle 0 acked)
           (world acked)).
  vm_compute. reflexivity.
Defined.

(** ** Listing *)

Lemma Target_leb_total s t : Target_leb s t = false -> Target_leb t s = true.
Proof.
  unfold Target_leb. rewrite (String.compare_antisym (Target.Name t)).
  destruct (String.compare (Target.Name s) (Target.Name t)); cbn;
    try discriminate; [| reflexivity].
  intros H.
  destruct (String.leb_total (Target.Value s) (Target.Value t)) as [L | L];
    congruence.
Qed.

Lemma Key_leb_total a b : Key_leb a b = false -> Key_leb b a = true.
Proof.
  destruct a as [s | m], b as [t | n]; cbn; try discriminate; auto.
  - apply Target_leb_total.
  - intros H. apply Nat.leb_gt in H. apply Nat.leb_le. lia.
Qed.

Lemma Ascii_compare_lt_trans a b c :
  Ascii.compare a b = Lt -> Ascii.compare b c = Lt -> Ascii.compare a c = Lt.
Proof.
  unfold Ascii.compare. rewrite !N.compare_lt_iff. apply N.lt_trans.
Qed.

Lemma Ascii_compare_refl a : Ascii.compare a a = Eq.
Proof. unfold Ascii.compare. apply N.compare_refl. Qed.

Lemma String_compare_lt_trans a :
  forall b c, String.compare a b = Lt -> String.compare b c = Lt ->
              String.compare a c = Lt.
Proof.
  induction a as [| x a IH]; intros [| y b] [| z c]; cbn; try discriminate;
    auto.
  destruct (Ascii.compare x y) eqn:Exy; try discriminate;
    destruct (Ascii.compare y z) eqn:Eyz; try discriminate; intros H1 H2.
  - apply Ascii.compare_eq_iff in Exy, Eyz. subst.
    rewrite Ascii_compare_refl. eapply IH; eauto.
  - apply Ascii.compare_eq_iff in Exy. subst. rewrite Eyz. reflexivity.
  - apply Ascii.compare_eq_iff in Eyz. subst. rewrite Exy. reflexivity.
  - rewrite (Ascii_compare_lt_trans _ _ _ Exy Eyz). reflexivity.
Qed.

Lemma String_compare_refl a : String.compare a a = Eq.
Proof.
  induction a as [| x a IH]; cbn; [reflexivity |].
  rewrite Ascii_compare_refl. exact IH.
Qed.

Lemma String_leb_trans a b c :
  String.leb a b = true -> String.leb b c = true -> String.leb a c = true.
Proof.
  unfold String.leb.
  destruct (String.compare a b) eqn:Eab; try discriminate;
    destruct (String.compare b c) eqn:Ebc; try discriminate; intros _ _.
  - apply String.compare_eq_iff in Eab, Ebc. subst.
    rewrite String_compare_refl. reflexivity.
  - apply String.compare_eq_iff in Eab. subst. rewrite Ebc. reflexivity.
  - apply String.compare_eq_iff in Ebc. subst. rewrite Eab. reflexivity.
  - rewrite (String_compare_lt_trans _ _ _ Eab Ebc). reflexivity.
Qed.

Lemma Target_leb_trans s t u :
  Target_leb s t = true -> Target_leb t u = true -> Target_leb s u = true.
Proof.
  unfold Target_leb.
  destruct (String.compare (Target.Name s) (Target.Name t)) eqn:E1;
    try discriminate;
    destruct (String.compare (Target.Name t) (Target.Name u)) eqn:E2;
    try discriminate; intros H1 H2.
  - apply String.compare_eq_iff in E1, E2. rewrite E1, E2.
    rewrite String_compare_refl. eapply String_leb_trans; eauto.
  - apply String.compare_eq_iff in E1. rewrite E1, E2. reflexivity.
  - apply String.compare_eq_iff in E2. rewrite <- E2, E1. reflexivity.
  - rewrite (String_compare_lt_trans _ _ _ E1 E2). reflexivity.
Qed.

Lemma Key_leb_trans a b c :
  Key_leb a b = true -> Key_leb b c = true -> Key_leb a c = true.
Proof.
  destruct a, b, c; cbn; try discriminate; auto.
  - apply Target_leb_trans.
  - intros H1 H2. apply Nat.leb_le in H1, H2. apply Nat.leb_le. lia.
Qed.

Lemma id_desc_trans a b c : id_desc a b -> id_desc b c -> id_desc a c.
Proof. unfold id_desc. intros H1 H2. eapply Key_leb_trans; eauto. Qed.

Lemma insert_desc_perm d s : Permutation (d :: s) (insert_desc d s).
Proof.
  induction s as [| x s IH]; cbn; [reflexivity |].
  destruct (Key_leb (eventData.key x) (eventData.key d)); [reflexivity |].
  rewrite perm_swap. constructor. exact IH.
Qed.

Lemma sort_desc_perm s : Permutation s (sort_desc s).
Proof.
  induction s as [| d s IH]; cbn; [constructor |].
  rewrite <- insert_desc_perm. constructor. exact IH.
Qed.

Lemma insert_desc_sorted d s :
  Sorted (fun a b => Key_leb (eventData.key b) (eventData.key a) = true) s ->
  Sorted (fun a b => Key_leb (eventData.key b) (eventData.key a) = true)
    (insert_desc d s).
Proof.
  induction s as [| x s IH]; cbn; intros H.
  - repeat constructor.
  - destruct (Key_leb (eventData.key x) (eventData.key d)) eqn:E.
    + constructor; [exact H |]. constructor. exact E.
    + apply Sorted_inv in H. destruct H as [Hs Hh].
      constructor; [apply IH; exact Hs |].
      destruct s as [| y s]; cbn.
      * constructor. apply Key_leb_total. exact E.
      * destruct (Key_leb (eventData.key y) (eventData.key d)).
        -- constructor. apply Key_leb_total. exact E.
        -- constructor. inversion Hh. assumption.
Qed.

Lemma sort_desc_sorted s :
  Sorted (fun a b => Key_leb (eventData.key b) (eventData.key a) = true)
    (sort_desc s).
Proof.
  induction s as [| d s IH]; cbn; [constructor |].
  apply insert_desc_sorted. exact IH.
Qed.

Lemma Sorted_map {A B} (f : A -> B) (R : B -> B -> Prop) l :
  Sorted (fun a b => R (f a) (f b)) l -> Sorted R (map f l).
Proof.
  induction 1 as [| a l Hs IH Hh]; cbn; constructor; [exact IH |].
  destruct Hh; cbn; constructor. assumption.
Qed.

(** C8, as the code has it: on a healthy database [All] returns every
    document of the collection, historical or running, once, sorted from
    the greatest [_id] to the least, and leaves the collection as it is. *)
Theorem All_sorted_by_id w :
  healthy w ->
  exists evts w',
    All w = Returns (evts, None) w'
    /\ Permutation (map Event.data evts) (map eventData.decode (events w))
    /\ StronglySorted id_desc evts
    /\ events w' = events w.
Proof.
  intros Hh. eexists _, _. split; [| split; [| split]].
  - unfold All.
    step ltac:(apply db_Conn_eq; exact Hh).
    step ltac:(apply dbop_eq; [auto with world | reflexivity]).
    reflexivity.
  - rewrite map_map. cbn [Event.data Event.of_data]. rewrite map_id.
    apply Permutation_map. symmetry. apply sort_desc_perm.
  - apply Sorted_StronglySorted; [exact id_desc_trans |].
    unfold id_desc. apply Sorted_map. cbn [Event.data Event.of_data].
    apply Sorted_map.
    eapply Sorted_ind with (P := fun l => Sorted _ l);
      [constructor | | apply sort_desc_sorted].
    intros a l _ IH Hh'. constructor; [exact IH |].
    destruct Hh'; constructor. rewrite !decode_key. assumption.
  - reflexivity.
Qed.

Lemma All_sorted_by_id_witness :
  exists evts w',
    All (world crossed) = Returns (evts, None) w'
    /\ Permutation (map Event.data evts)
         (map eventData.decode (events (world crossed)))
    /\ StronglySorted id_desc evts
    /\ events w' = events (world crossed).
Proof.
  apply All_sorted_by_id. intros n. reflexivity.
Defined.

(** C8, as stated, fails: of two events, the one that started first and
    was done last is listed first. *)
Lemma All_lists_the_older_start_first :
  option_map
    (fun r => map (fun e => (eventData.Target (Event.data e),
                             eventData.StartTime (Event.data e)))
                (fst r))
    (returned (All (world crossed)))
  = Some [(app_a, 0%Z); (app_b, Second)]
  /\ option_map (fun r => newest_first (fst r))
       (returned (All (world crossed)))
     = Some false.
Proof. split; reflexivity. Qed.

(** ** The cancel order as an invariant *)

Lemma past_later w w' t :
  clock w' = clock w -> (reads w <= reads w')%nat -> past w t -> past w' t.
Proof.
  intros C R (n & Hn & ->). exists n. rewrite C. split; [lia | reflexivity].
Qed.

Lemma good_at_later w w' d :
  clock w' = clock w -> (reads w <= reads w')%nat ->
  good_at w d -> good_at w' d.
Proof.
  intros C R [H5 Ha]. split; [exact H5 |].
  intros A. eapply past_later; eauto.
Qed.

Lemma good_at_cancel w d d' :
  eventData.CancelInfo d' = eventData.CancelInfo d ->
  good_at w d -> good_at w d'.
Proof.
  unfold good_at, I5. intros ->. auto.
Qed.

Lemma good_at_zero w : good_at w eventData.zero.
Proof. split; [intros H | intros H]; discriminate H. Qed.

Lemma stable_good_at d : stable (fun w => good_at w d).
Proof. intros w w' C R H. eapply good_at_later; eauto. Qed.

Lemma stable_True : stable (fun _ => True).
Proof. intros w w' _ _ H. exact H. Qed.

Lemma wgood_later w w' :
  clock w' = clock w -> (reads w <= reads w')%nat ->
  events w' = events w -> trace w' = trace w ->
  wgood w -> wgood w'.
Proof.
  intros C R E T (M & G & S). unfold wgood. rewrite C, E, T.
  repeat split; auto.
  eapply Forall_impl; [| exact G].
  intros d. apply good_at_later; assumption.
Qed.

Lemma triple_ret {A} (a : A) (P : World -> Prop) (Q : A -> World -> Prop) :
  (forall w, P w -> Q a w) -> triple P (ret a) Q.
Proof. intros H w G Pw. cbn. auto. Qed.

Lemma triple_bind {A B} (m : Go A) (f : A -> Go B) P Q R :
  triple P m Q -> (forall a, triple (Q a) (f a) R) -> triple P (bind m f) R.
Proof.
  intros Hm Hf w G Pw. unfold bind. specialize (Hm w G Pw).
  destruct (m w) as [a w1 | w1]; [| exact I].
  destruct Hm as (G1 & C1 & R1 & Q1).
  specialize (Hf a w1 G1 Q1).
  destruct (f a w1) as [b w2 | w2]; [| exact I].
  destruct Hf as (G2 & C2 & R2 & Q2).
  split; [exact G2 |]. split; [congruence |]. split; [lia | exact Q2].
Qed.

Lemma triple_weaken {A} (m : Go A) (P P' : World -> Prop)
    (Q Q' : A -> World -> Prop) :
  (forall w, wgood w -> P' w -> P w) -> triple P m Q ->
  (forall a w, wgood w -> Q a w -> Q' a w) ->
  triple P' m Q'.
Proof.
  intros HP Hm HQ w G Pw. specialize (Hm w G (HP w G Pw)).
  destruct (m w) as [a w1 | w1]; [| exact I].
  destruct Hm as (G1 & C1 & R1 & Q1). auto.
Qed.

Lemma triple_frame {A} (m : Go A) (F P : World -> Prop)
    (Q : A -> World -> Prop) :
  stable F -> triple P m Q ->
  triple (fun w => P w /\ F w) m (fun a w => Q a w /\ F w).
Proof.
  intros SF Hm w G [Pw Fw]. specialize (Hm w G Pw).
  destruct (m w) as [a w1 | w1]; [| exact I].
  destruct Hm as (G1 & C1 & R1 & Q1).
  split; [exact G1 |]. split; [exact C1 |]. split; [exact R1 |].
  split; [exact Q1 |]. eapply SF; eauto.
Qed.

Lemma wgood_record c e s w :
  wgood w -> Forall (good_at w) s -> wgood (record c e s w).
Proof.
  intros (M & G & S) Hs. split; [exact M |]. split; [exact Hs |].
  cbn. apply Forall_app. split; [exact S |].
  constructor; [| constructor]. cbn.
  eapply Forall_impl; [| exact Hs]. intros d [H _]. exact H.
Qed.

Lemma dbop_triple {A} c (none : A) run (Q : A -> World -> Prop) :
  (forall a, stable (Q a)) ->
  triple
    (fun w => Q none w
              /\ forall s, Forall (good_at w) s ->
                   Forall (good_at w) (snd (run s)) /\ Q (fst (fst (run s))) w)
    (dbop c none run)
    (fun r w' => Q (fst r) w').
Proof.
  intros SQ w G [Qn Hrun]. unfold dbop.
  destruct (dbfault w (length (trace w))).
  - split; [apply wgood_record; [exact G | apply G] |].
    split; [reflexivity |]. split; [apply Nat.le_refl |].
    apply (SQ none w); auto.
  - specialize (Hrun (events w) (proj1 (proj2 G))).
    destruct (run (events w)) as [[a e] s']. cbn in Hrun.
    destruct Hrun as [Hs Qa].
    split; [apply wgood_record; assumption |].
    split; [reflexivity |]. split; [apply Nat.le_refl |].
    apply (SQ a w); auto.
Qed.

Lemma Forall_remove_first (P : eventData.t -> Prop) sel s :
  Forall P s -> Forall P (remove_first sel s).
Proof.
  induction 1 as [| x s Hx Hs IH]; cbn; [constructor |].
  destruct (sel x); [exact Hs | constructor; assumption].
Qed.

Lemma Forall_update_first (P : eventData.t -> Prop) sel upd s :
  (forall x, P x -> sel x = true -> P (upd x)) ->
  Forall P s -> Forall P (update_first sel upd s).
Proof.
  intros Hu. induction 1 as [| x s Hx Hs IH]; cbn; [constructor |].
  destruct (sel x) eqn:E; constructor; auto.
Qed.

Lemma find_Forall (P : eventData.t -> Prop) sel s d :
  Forall P s -> find sel s = Some d -> P d /\ sel d = true.
Proof.
  intros H F. apply find_some in F. destruct F as [I S].
  split; [| exact S]. rewrite Forall_forall in H. auto.
Qed.

Lemma dbop_triple_plain {A} c (none : A) run :
  (forall w s, Forall (good_at w) s -> Forall (good_at w) (snd (run s))) ->
  triple (fun _ => True) (dbop c none run) (fun _ _ => True).
Proof.
  intros H.
  eapply triple_weaken;
    [| apply (dbop_triple c none run (fun _ _ => True));
       intros a; apply stable_True |].
  - intros w _ _. split; [exact I |]. intros s Hs. split; [auto | exact I].
  - intros a w _ _. exact I.
Qed.

Lemma db_Conn_triple : triple (fun _ => True) db_Conn (fun _ _ => True).
Proof.
  unfold db_Conn. eapply triple_bind.
  - apply dbop_triple_plain. intros w s Hs. exact Hs.
  - intros [u e]. apply triple_ret. auto.
Qed.

Lemma coll_Insert_triple d :
  triple (fun w => good_at w d) (coll_Insert d) (fun _ _ => True).
Proof.
  unfold coll_Insert. eapply triple_bind.
  - eapply triple_weaken;
      [| apply (dbop_triple (CInsert d) tt _ (fun _ _ => True));
         intros a; apply stable_True |].
    + intros w _ Gd. split; [exact I |]. intros s Hs. split; [| exact I].
      destruct (existsb _ s); cbn; [exact Hs |].
      apply Forall_app. split; [exact Hs | constructor; [exact Gd |]].
      constructor.
    + intros a w _ H. exact H.
  - intros [u e]. apply triple_ret. auto.
Qed.

Lemma coll_FindId_One_triple k :
  triple (fun _ => True) (coll_FindId_One k) (fun r w => good_at w (fst r)).
Proof.
  unfold coll_FindId_One.
  eapply triple_weaken;
    [| apply (dbop_triple (CFindId k) eventData.zero _
                (fun d w => good_at w d));
       intros a; apply stable_good_at |].
  - intros w _ _. split; [apply good_at_zero |].
    intros s Hs. destruct (find (has_key k) s) as [d |] eqn:F; cbn.
    + split; [exact Hs |].
      destruct (find_Forall _ _ _ _ Hs F) as [Gd _].
      eapply good_at_cancel; [| exact Gd]. reflexivity.
    + split; [exact Hs | apply good_at_zero].
  - intros a w _ H. exact H.
Qed.

Lemma coll_RemoveId_triple k :
  triple (fun _ => True) (coll_RemoveId k) (fun _ _ => True).
Proof.
  unfold coll_RemoveId. eapply triple_bind.
  - apply dbop_triple_plain. intros w s Hs.
    destruct (existsb _ s); cbn; [| exact Hs].
    apply Forall_remove_first. exact Hs.
  - intros [u e]. apply triple_ret. auto.
Qed.

Lemma coll_Find_Apply_triple k cond upd :
  triple
    (fun w => forall x, good_at w x -> cond x = true -> good_at w (upd x))
    (coll_Find_Apply k cond upd)
    (fun r w => forall d, fst r = Some d -> good_at w d).
Proof.
  unfold coll_Find_Apply.
  eapply triple_weaken;
    [| apply (dbop_triple (CApply k) None _
                (fun a w => forall d, a = Some d -> good_at w d)) |].
  - intros w _ Hu. split; [intros d H; discriminate H |].
    intros s Hs.
    destruct (find (fun d => has_key k d && cond d) s) as [d |] eqn:F; cbn.
    + destruct (find_Forall _ _ _ _ Hs F) as [Gd Sd].
      apply andb_true_iff in Sd. destruct Sd as [_ Cd].
      split.
      * apply Forall_update_first; [| exact Hs].
        intros x Gx Sx. apply andb_true_iff in Sx. apply Hu; tauto.
      * intros d' E. injection E as <-.
        eapply good_at_cancel; [| apply (Hu d Gd Cd)]. reflexivity.
    + split; [exact Hs | intros d H; discriminate H].
  - intros a w w' C R H d E. eapply good_at_later; eauto.
  - intros a w _ H. exact H.
Qed.

Lemma coll_Update_in_triple ks upd :
  triple (fun w => forall x, good_at w x -> good_at w (upd x))
    (coll_Update_in ks upd) (fun _ _ => True).
Proof.
  unfold coll_Update_in. eapply triple_bind.
  - eapply triple_weaken;
      [| apply (dbop_triple CUpdate tt _ (fun _ _ => True));
         intros a; apply stable_True |].
    + intros w _ Hu. split; [exact I |]. intros s Hs. split; [| exact I].
      destruct (existsb _ s); cbn; [| exact Hs].
      apply Forall_update_first; [| exact Hs]. intros x Gx _. auto.
    + intros a w _ H. exact H.
  - intros [u e]. apply triple_ret. auto.
Qed.

Lemma coll_Find_Sort_All_triple :
  triple (fun _ => True) coll_Find_Sort_All (fun _ _ => True).
Proof.
  unfold coll_Find_Sort_All. apply dbop_triple_plain.
  intros w s Hs. exact Hs.
Qed.

Lemma time_Now_triple :
  triple (fun _ => True) time_Now
    (fun now w => monotone (clock w)
                  /\ exists n, reads w = S n /\ now = clock w n).
Proof.
  intros w G _. unfold time_Now.
  split; [| split; [reflexivity | split; [cbn; lia |]]].
  - eapply wgood_later; [| | | | exact G]; try reflexivity; cbn; lia.
  - split; [apply G |]. exists (reads w). split; reflexivity.
Qed.

Lemma bson_NewObjectId_triple :
  triple (fun _ => True) bson_NewObjectId (fun _ _ => True).
Proof.
  intros w G _. unfold bson_NewObjectId.
  split; [| split; [reflexivity | split; [cbn; lia | exact I]]].
  eapply wgood_later; [| | | | exact G]; try reflexivity; cbn; lia.
Qed.

Lemma send_triple f : triple (fun _ => True) (send f) (fun _ _ => True).
Proof.
  intros w G _. unfold send.
  destruct (lockUpdater.spinning (updater w)); [| exact I].
  split; [| split; [reflexivity | split; [cbn; lia | exact I]]].
  eapply wgood_later; [| | | | exact G]; try reflexivity; cbn; lia.
Qed.

Lemma lockUpdater_start_triple :
  triple (fun _ => True) lockUpdater_start (fun _ _ => True).
Proof.
  intros w G _. unfold lockUpdater_start. cbv zeta.
  destruct (lockUpdater.once (updater w)).
  - split; [exact G | split; [reflexivity | split; [lia | exact I]]].
  - split; [| split; [reflexivity | split; [cbn; lia | exact I]]].
    eapply wgood_later; [| | | | exact G]; try reflexivity; cbn; lia.
Qed.

Lemma lockUpdater_stop_triple :
  triple (fun _ => True) lockUpdater_stop (fun _ _ => True).
Proof.
  intros w G _. unfold lockUpdater_stop. cbv zeta.
  destruct (negb (lockUpdater.stopCh (updater w))).
  - split; [exact G | split; [reflexivity | split; [lia | exact I]]].
  - destruct (lockUpdater.spinning (updater w)); [| exact I].
    split; [| split; [reflexivity | split; [cbn; lia | exact I]]].
    eapply wgood_later; [| | | | exact G]; try reflexivity; cbn; lia.
Qed.

Lemma triple_seq {A B} (m : Go A) (f : A -> Go B) (F P : World -> Prop)
    Q R :
  stable F -> (forall w, F w -> P w) -> triple P m Q ->
  (forall a, triple (fun w => Q a w /\ F w) (f a) R) ->
  triple F (bind m f) R.
Proof.
  intros SF HP Hm Hf. eapply triple_bind; [| exact Hf].
  eapply triple_weaken; [| apply (triple_frame m F P Q SF Hm) |].
  - intros w _ Fw. split; auto.
  - intros a w _ H. exact H.
Qed.

Lemma triple_then {A B} (m : Go A) (f : A -> Go B) (F P : World -> Prop)
    Q R :
  stable F -> (forall w, F w -> P w) -> triple P m Q ->
  (forall a, triple F (f a) R) ->
  triple F (bind m f) R.
Proof.
  intros SF HP Hm Hf. apply (triple_seq m f F P Q R SF HP Hm).
  intros a. eapply triple_weaken; [| apply Hf |].
  - intros w _ [_ Fw]. exact Fw.
  - intros b w _ H. exact H.
Qed.

Lemma time_Since_triple t :
  triple (fun _ => True) (time_Since t) (fun _ _ => True).
Proof.
  unfold time_Since. eapply triple_bind; [apply time_Now_triple |].
  intros now. apply triple_ret. auto.
Qed.

Lemma done_triple evtErr customData abort e :
  triple (fun w => good_at w (Event.data e))
    (done evtErr customData abort e)
    (fun r w => good_at w (Event.data (fst r))).
Proof.
  pose proof (stable_good_at (Event.data e)) as SF.
  unfold done.
  apply (triple_then _ _ _ (fun _ => True) (fun _ _ => True));
    [exact SF | auto | apply send_triple | intros _].
  apply (triple_then _ _ _ (fun _ => True) (fun _ _ => True));
    [exact SF | auto | apply db_Conn_triple | intros cerr].
  destruct cerr as [x |]; [apply triple_ret; auto |].
  destruct abort.
  - apply (triple_then _ _ _ (fun _ => True) (fun _ _ => True));
    [exact SF | auto | apply coll_RemoveId_triple | intros r].
    apply triple_ret. auto.
  - apply (triple_then _ _ _ (fun _ => True) _ _ SF (fun _ _ => I)
           time_Now_triple); intros now.
    apply (triple_then _ _ _ (fun _ => True) (fun _ _ => True));
    [exact SF | auto | apply bson_NewObjectId_triple | intros oid].
    eapply (triple_then _ _ _ _ _ _ SF); [| apply coll_Insert_triple | intros r].
    { intros w Gw. eapply good_at_cancel; [| exact Gw]. reflexivity. }
    apply (triple_then _ _ _ (fun _ => True) (fun _ _ => True));
    [exact SF | auto | apply coll_RemoveId_triple | intros _].
    apply triple_ret. intros w Gw.
    eapply good_at_cancel; [| exact Gw]. reflexivity.
Qed.

Lemma checkIsExpired_triple fmt id :
  triple (fun _ => True) (checkIsExpired fmt id) (fun _ _ => True).
Proof.
  unfold checkIsExpired.
  eapply triple_bind; [apply coll_FindId_One_triple | intros [d e]].
  destruct e as [x |]; [apply triple_ret; auto |].
  cbn [fst].
  pose proof (stable_good_at d) as SF.
  apply (triple_then _ _ _ (fun _ => True) _ _ SF (fun _ _ => I)
           time_Now_triple); intros now.
  destruct (Time_After _ _); [| apply triple_ret; auto].
  apply (triple_then _ _ _ (fun _ => True) (fun _ _ => True));
    [exact SF | auto | apply time_Since_triple | intros since].
  eapply (triple_then _ _ _ _ _ _ SF); [| apply done_triple | intros _].
  { intros w Gw. exact Gw. }
  apply triple_ret. auto.
Qed.

Lemma New_loop_triple fmt evt left :
  forall i err,
    triple (fun w => good_at w (Event.data evt))
      (New_loop fmt evt left i err)
      (fun r w => forall e, fst r = Some e -> good_at w (Event.data e)).
Proof.
  pose proof (stable_good_at (Event.data evt)) as SF.
  induction left as [| left IH]; intros i err; cbn [New_loop].
  - apply triple_ret. intros w _ e H. discriminate H.
  - eapply (triple_then _ _ _ _ _ _ SF);
      [| apply coll_Insert_triple | intros e1].
    { intros w Gw. exact Gw. }
    destruct e1 as [x |].
    + destruct (mgo_IsDup x); [| apply IH].
      apply (triple_then _ _ _ (fun _ => True) (fun _ _ => True));
        [exact SF | auto | | intros locked].
      { destruct (Nat.leb maxRetries i); [apply triple_ret; auto |].
        eapply triple_bind; [apply checkIsExpired_triple | intros b].
        apply triple_ret. auto. }
      destruct locked; [| apply IH].
      apply (triple_then _ _ _ (fun _ => True) _ _ SF (fun _ _ => I)
               (coll_FindId_One_triple _)); intros [d e2].
      destruct e2; apply IH.
    + apply (triple_then _ _ _ (fun _ => True) (fun _ _ => True));
    [exact SF | auto | apply send_triple | intros _].
      apply triple_ret. intros w Gw e H. injection H as <-. exact Gw.
Qed.

Lemma New_triple fmt opts :
  triple (fun _ => True) (New fmt opts)
    (fun r w => forall e, fst r = Some e -> good_at w (Event.data e)).
Proof.
  unfold New.
  eapply triple_bind; [apply lockUpdater_start_triple | intros u].
  destruct opts as [o |];
    [| apply triple_ret; intros w _ e H; discriminate H].
  destruct (negb (Target.IsValid (Opts.Target o)));
    [apply triple_ret; intros w _ e H; discriminate H |].
  destruct (Opts.Kind o) as [kind |];
    [| apply triple_ret; intros w _ e H; discriminate H].
  destruct (String.eqb (Opts.Owner o) "");
    [apply triple_ret; intros w _ e H; discriminate H |].
  eapply triple_bind; [apply db_Conn_triple | intros cerr].
  destruct cerr as [x |];
    [apply triple_ret; intros w _ e H; discriminate H |].
  eapply triple_bind; [apply time_Now_triple | intros now].
  eapply triple_weaken; [| apply New_loop_triple |].
  - intros w _ _. split; intros H; discriminate H.
  - intros a w _ H. exact H.
Qed.

Lemma TryCancel_triple reason owner e :
  triple (fun w => good_at w (Event.data e)) (TryCancel reason owner e)
    (fun r w => good_at w (Event.data (fst r))).
Proof.
  pose proof (stable_good_at (Event.data e)) as SF.
  unfold TryCancel.
  destruct (negb _ || negb _); [apply triple_ret; auto |].
  apply (triple_then _ _ _ (fun _ => True) (fun _ _ => True));
    [exact SF | auto | apply db_Conn_triple | intros cerr].
  destruct cerr as [x |]; [apply triple_ret; auto |].
  apply (triple_seq _ _ _ (fun _ => True) _ _ SF (fun _ _ => I)
           time_Now_triple); intros now.
  eapply triple_bind.
  - eapply triple_weaken;
      [| apply (triple_frame _ (fun w => good_at w (Event.data e)) _ _ SF
                  (coll_Find_Apply_triple _ _ _)) |].
    + intros w _ [[_ (n & Rn & ->)] Gw]. split; [| exact Gw].
      intros x _ _. split; [intros H; discriminate H |].
      intros _. exists n. cbn. split; [lia | reflexivity].
    + intros a w _ H. exact H.
  - intros [out e1]. cbn [fst].
    destruct out as [d |]; destruct (is_ErrNotFound e1);
      apply triple_ret; intros w [Hd Gw]; cbn; auto.
Qed.

Lemma AckCancel_triple e :
  triple (fun w => good_at w (Event.data e)) (AckCancel e)
    (fun r w => good_at w (Event.data (fst r))).
Proof.
  pose proof (stable_good_at (Event.data e)) as SF.
  unfold AckCancel.
  destruct (negb _ || negb _); [apply triple_ret; auto |].
  apply (triple_then _ _ _ (fun _ => True) (fun _ _ => True));
    [exact SF | auto | apply db_Conn_triple | intros cerr].
  destruct cerr as [x |]; [apply triple_ret; auto |].
  apply (triple_seq _ _ _ (fun _ => True) _ _ SF (fun _ _ => I)
           time_Now_triple); intros now.
  eapply triple_bind.
  - eapply triple_weaken;
      [| apply (triple_frame _ (fun w => good_at w (Event.data e)) _ _ SF
                  (coll_Find_Apply_triple _ _ _)) |].
    + intros w _ [[M (n & Rn & ->)] Gw]. split; [| exact Gw].
      intros x [H5 Hp] Ax. split.
      * intros _. cbn. split; [exact Ax |].
        destruct (Hp Ax) as (m & Hm & ->). apply M. lia.
      * intros _. cbn. apply Hp. exact Ax.
    + intros a w _ H. exact H.
  - intros [out e1]. cbn [fst].
    destruct out as [d |]; destruct (is_ErrNotFound e1);
      apply triple_ret; intros w [Hd Gw]; cbn; auto.
Qed.

Lemma All_triple : triple (fun _ => True) All (fun _ _ => True).
Proof.
  unfold All. eapply triple_bind; [apply db_Conn_triple | intros cerr].
  destruct cerr; [apply triple_ret; auto |].
  eapply triple_bind; [apply coll_Find_Sort_All_triple | intros [l e]].
  apply triple_ret. auto.
Qed.

Lemma lockUpdater_spin_round_triple :
  triple (fun _ => True) lockUpdater_spin_round (fun _ _ => True).
Proof.
  unfold lockUpdater_spin_round.
  eapply triple_bind; [apply db_Conn_triple | intros cerr].
  destruct cerr; [apply triple_ret; auto |].
  eapply triple_bind with (Q := fun _ _ => True).
  { intros w G _. split; [exact G |].
    split; [reflexivity | split; [lia | exact I]]. }
  intros ks.
  eapply triple_bind; [apply time_Now_triple | intros now].
  eapply triple_bind.
  - eapply triple_weaken; [| apply coll_Update_in_triple |].
    + intros w _ _ x Gx. eapply good_at_cancel; [| exact Gx]. reflexivity.
    + intros a w _ H. exact H.
  - intros u. apply triple_ret. auto.
Qed.

(** ** Every run keeps the cancel order *)

Lemma Forall_put {A} (P : A -> Prop) i x l :
  Forall P l -> P x -> Forall P (put i x l).
Proof.
  intros H Px. revert i. induction H as [| y l Hy Hl IH]; intros i; cbn.
  - constructor.
  - destruct i; constructor; auto.
Qed.

Lemma nth_error_Forall {A} (P : A -> Prop) l i e :
  Forall P l -> nth_error l i = Some e -> P e.
Proof.
  intros H E. rewrite Forall_forall in H. apply H.
  eapply nth_error_In. exact E.
Qed.

Lemma handles_later w w' (l : list Event.t) :
  clock w' = clock w -> (reads w <= reads w')%nat ->
  Forall (fun e => good_at w (Event.data e)) l ->
  Forall (fun e => good_at w' (Event.data e)) l.
Proof.
  intros C R H. eapply Forall_impl; [| exact H].
  intros e. apply good_at_later; assumption.
Qed.

Lemma on_handle_pgood i (m : Event.t -> Go (Event.t * error)) p p' :
  (forall e, triple (fun w => good_at w (Event.data e)) (m e)
               (fun r w => good_at w (Event.data (fst r)))) ->
  pgood p -> on_handle i m p = Some p' ->
  pgood p' /\ clock (world p') = clock (world p).
Proof.
  intros Hm [G H] E. unfold on_handle in E.
  destruct (nth_error (handles p) i) as [e |] eqn:N.
  - specialize (Hm e (world p) G (nth_error_Forall _ _ _ _ H N)).
    destruct (m e (world p)) as [[e' r] w' | w']; [| discriminate E].
    injection E as <-. destruct Hm as (G' & C & R & Ge).
    split; [| exact C]. split; [exact G' |]. cbn.
    apply Forall_put; [| exact Ge].
    eapply handles_later; eauto.
  - injection E as <-. split; [split; assumption | reflexivity].
Qed.

Lemma pure_on_handle_pgood i (f : Event.t -> Event.t) p p' :
  (forall e, Event.data (f e) = Event.data e) ->
  pgood p -> pure_on_handle i f p = Some p' ->
  pgood p' /\ clock (world p') = clock (world p).
Proof.
  intros Hf [G H] E. unfold pure_on_handle in E.
  destruct (nth_error (handles p) i) as [e |] eqn:N; injection E as <-.
  - split; [| reflexivity]. split; [exact G |]. cbn.
    apply Forall_put; [exact H |]. rewrite Hf.
    exact (nth_error_Forall _ _ _ _ H N).
  - split; [split; assumption | reflexivity].
Qed.

Lemma unit_call_pgood (m : Go unit) p p' :
  triple (fun _ => True) m (fun _ _ => True) ->
  pgood p -> unit_call m p = Some p' ->
  pgood p' /\ clock (world p') = clock (world p).
Proof.
  intros Hm [G H] E. unfold unit_call in E.
  specialize (Hm (world p) G I).
  destruct (m (world p)) as [u w' | w']; [| discriminate E].
  injection E as <-. destruct Hm as (G' & C & R & _).
  split; [| exact C]. split; [exact G' |]. cbn.
  eapply handles_later; eauto.
Qed.

Lemma exec_pgood fmt o p p' :
  pgood p -> exec fmt o p = Some p' ->
  pgood p' /\ clock (world p') = clock (world p).
Proof.
  intros Gp E. destruct o; cbn [exec] in E.
  - destruct Gp as [G H].
    pose proof (New_triple fmt opts (world p) G I) as T.
    destruct (New fmt opts (world p)) as [[[e |] r] w' | w'];
      [| | discriminate E]; injection E as <-;
      destruct T as (G' & C & R & Ge); (split; [| exact C]);
      (split; [exact G' |]); cbn.
    + apply Forall_app. split; [eapply handles_later; eauto |].
      constructor; [| constructor]. apply Ge. reflexivity.
    + eapply handles_later; eauto.
  - eapply pure_on_handle_pgood; eauto. intros e. reflexivity.
  - eapply pure_on_handle_pgood; eauto. intros e. reflexivity.
  - eapply on_handle_pgood; eauto. intros e. apply TryCancel_triple.
  - eapply on_handle_pgood; eauto. intros e. apply AckCancel_triple.
  - eapply on_handle_pgood; eauto. intros e. apply done_triple.
  - eapply on_handle_pgood; eauto. intros e. apply done_triple.
  - eapply on_handle_pgood; eauto. intros e. apply done_triple.
  - eapply unit_call_pgood; eauto.
    eapply triple_bind; [apply All_triple | intros r].
    apply triple_ret. auto.
  - destruct (lockUpdater.spinning (updater (world p))).
    + eapply unit_call_pgood; eauto. apply lockUpdater_spin_round_triple.
    + injection E as <-. split; [exact Gp | reflexivity].
  - eapply unit_call_pgood; eauto. apply lockUpdater_stop_triple.
Qed.

Lemma execs_pgood fmt l :
  forall p p', pgood p -> execs fmt l p = Some p' -> pgood p'.
Proof.
  induction l as [| o l IH]; intros p p' Gp E; cbn [execs] in E.
  - injection E as <-. exact Gp.
  - destruct (exec fmt o p) as [p1 |] eqn:E1; [| discriminate E].
    destruct (exec_pgood fmt o p p1 Gp E1) as [G1 _].
    eapply IH; eauto.
Qed.

Lemma start_pgood clk flt : monotone clk -> pgood (start clk flt).
Proof.
  intros M. split; [| constructor].
  split; [exact M |]. split; constructor.
Qed.

Lemma every_monotone step : (0 <= step)%Z -> monotone (every step).
Proof.
  intros H i j L. unfold every. apply Z.mul_le_mono_nonneg_r; lia.
Qed.

Lemma AckCancel_effect e w :
  exists e' r w',
    AckCancel e w = Returns (e', r) w'
    /\ (events w' = events w
        \/ exists pre d post,
             r = None
             /\ events w = pre ++ d :: post
             /\ eventData.key d = eventData.key (Event.data e)
             /\ cancelInfo.Asked (eventData.CancelInfo d) = true
             /\ events w' = pre ++ ack (clock w (reads w)) d :: post)
    /\ (eventData.Cancelable (Event.data e) = true ->
        eventData.Running (Event.data e) = true ->
        healthy w ->
        (forall d, In d (events w) ->
                   eventData.key d = eventData.key (Event.data e) ->
                   cancelInfo.Asked (eventData.CancelInfo d) = false) ->
        r = Some ErrEventNotFound /\ events w' = events w).
Proof.
  unfold AckCancel.
  destruct (eventData.Cancelable (Event.data e));
    [destruct (eventData.Running (Event.data e)) |]; cbn [negb orb].
  2,3: eexists _, _, _; split; [reflexivity |]; split;
       [left; reflexivity | intros H1 H2; discriminate].
  unfold db_Conn, coll_Find_Apply, time_Now, dbop, ret, bind. cbv beta.
  wsimpl.
  destruct (dbfault w (length (trace w))) eqn:F0.
  { eexists _, _, _. split; [reflexivity |]. split; [left; reflexivity |].
    intros _ _ Hh. rewrite Hh in F0. discriminate F0. }
  wsimpl. rewrite length_app. cbn [length].
  destruct (dbfault w (length (trace w) + 1)) eqn:F1.
  { eexists _, _, _. split; [reflexivity |]. split; [left; reflexivity |].
    intros _ _ Hh. rewrite Hh in F1. discriminate F1. }
  match goal with
  | |- context [find ?sel (events w)] =>
      destruct (find sel (events w)) as [d |] eqn:F
  end.
  - destruct (find_split _ (ack (clock w (reads w))) _ _ F)
      as (pre & post & Es & Hp & Hd & Hu).
    apply andb_true_iff in Hd. destruct Hd as [Kd Ad].
    eexists _, _, _. split; [reflexivity |]. cbn [is_ErrNotFound]. split.
    + right. exists pre, d, post. wsimpl.
      repeat split; auto. apply Key_eqb_eq. exact Kd.
    + intros _ _ _ Hno. exfalso.
      rewrite (Hno d) in Ad; [discriminate Ad | | apply Key_eqb_eq; exact Kd].
      rewrite Es. apply in_or_app. right. left. reflexivity.
  - eexists _, _, _. split; [reflexivity |]. cbn [is_ErrNotFound].
    split; [left; reflexivity |]. intros _ _ _ _. split; reflexivity.
Qed.

(** C6: in every state of the collection that a run of the package has
    left, under a clock that never runs backwards, each canceled document
    was asked to cancel and was acknowledged no earlier than it was asked.
    [AckCancel] writes to no document but one with the [_id] of the event
    that was asked to cancel, and answers that the event is not found when
    there is none. *)
Theorem cancel_order_kept fmt clk flt l p :
  monotone clk ->
  execs fmt l (start clk flt) = Some p ->
  (forall s d, In s (visible (world p)) -> In d s -> I5 d)
  /\ (forall e w,
        exists e' r w',
          AckCancel e w = Returns (e', r) w'
          /\ (events w' = events w
              \/ exists pre d post,
                   r = None
                   /\ events w = pre ++ d :: post
                   /\ eventData.key d = eventData.key (Event.data e)
                   /\ cancelInfo.Asked (eventData.CancelInfo d) = true
                   /\ events w' = pre ++ ack (clock w (reads w)) d :: post)
          /\ (eventData.Cancelable (Event.data e) = true ->
              eventData.Running (Event.data e) = true ->
              healthy w ->
              (forall d, In d (events w) ->
                         eventData.key d = eventData.key (Event.data e) ->
                         cancelInfo.Asked (eventData.CancelInfo d) = false) ->
              r = Some ErrEventNotFound /\ events w' = events w)).
Proof.
  intros M E. split; [| apply AckCancel_effect].
  pose proof (execs_pgood fmt l _ _ (start_pgood clk flt M) E) as [G _].
  destruct G as (_ & Gs & Gt).
  intros s d [<- | Hs] Hd.
  - rewrite Forall_forall in Gs. apply (Gs d Hd).
  - apply in_map_iff in Hs. destruct Hs as (en & <- & Hen).
    rewrite Forall_forall in Gt. specialize (Gt en Hen).
    rewrite Forall_forall in Gt. apply (Gt d Hd).
Qed.

Lemma cancel_order_kept_witness :
  (forall s d, In s (visible (world acked)) -> In d s -> I5 d)
  /\ (forall e w,
        exists e' r w',
          AckCancel e w = Returns (e', r) w'
          /\ (events w' = events w
              \/ exists pre d post,
                   r = None
                   /\ events w = pre ++ d :: post
                   /\ eventData.key d = eventData.key (Event.data e)
                   /\ cancelInfo.Asked (eventData.CancelInfo d) = true
                   /\ events w' = pre ++ ack (clock w (reads w)) d :: post)
          /\ (eventData.Cancelable (Event.data e) = true ->
              eventData.Running (Event.data e) = true ->
              healthy w ->
              (forall d, In d (events w) ->
                         eventData.key d = eventData.key (Event.data e) ->
                         cancelInfo.Asked (eventData.CancelInfo d) = false) ->
              r = Some ErrEventNotFound /\ events w' = events w)).
Proof.
  apply (cancel_order_kept coarse (every Second) no_fault
           [OpNew (Some (deploy app_a true)); OpTryCancel 0 "halt" "admin";
            OpAckCancel 0] acked).
  - apply every_monotone. vm_compute. intros H. discriminate H.
  - vm_compute. reflexivity.
Defined.

(** ** What a running event carries *)

Lemma yields_ret {A} (a : A) (Q : A -> Prop) : Q a -> yields (ret a) Q.
Proof. intros H w S. cbn. auto. Qed.

Lemma yields_bind {A B} (m : Go A) (f : A -> Go B) Q R :
  yields m Q -> (forall a, Q a -> yields (f a) R) -> yields (bind m f) R.
Proof.
  intros Hm Hf w S. unfold bind. specialize (Hm w S).
  destruct (m w) as [a w1 | w1]; [| exact I].
  destruct Hm as [S1 Qa]. exact (Hf a Qa w1 S1).
Qed.

Lemma yields_weaken {A} (m : Go A) (Q Q' : A -> Prop) :
  yields m Q -> (forall a, Q a -> Q' a) -> yields m Q'.
Proof.
  intros Hm HQ w S. specialize (Hm w S).
  destruct (m w) as [a w1 | w1]; [| exact I].
  destruct Hm as [S1 Qa]. auto.
Qed.

Lemma yields_same {A} (m : Go A) :
  (forall w, match m w with
             | Returns _ w' => events w' = events w /\ trace w' = trace w
             | Blocks _ => True
             end) ->
  yields m (fun _ => True).
Proof.
  intros H w S. specialize (H w).
  destruct (m w) as [a w1 | w1]; [| exact I].
  destruct H as [E T]. split; [| exact I].
  unfold wsound. rewrite E, T. exact S.
Qed.

Lemma wsound_record c e s w :
  wsound w -> Forall sound s -> wsound (record c e s w).
Proof.
  intros [Hs Ht] Ss. split; [exact Ss |]. cbn.
  apply Forall_app. split; [exact Ht |]. constructor; [exact Ss |].
  constructor.
Qed.

Lemma dbop_yields {A} c (none : A) run (Q : A * error -> Prop) :
  (forall msg, Q (none, Some (db_failure msg))) ->
  (forall s, Forall sound s ->
     Forall sound (snd (run s)) /\ Q (fst (run s))) ->
  yields (dbop c none run) Q.
Proof.
  intros Hn Hr w S. unfold dbop.
  destruct (dbfault w (length (trace w))) as [msg |].
  - split; [| apply Hn]. apply wsound_record; [exact S | apply S].
  - destruct (Hr (events w) (proj1 S)) as [Ss Qa].
    destruct (run (events w)) as [[a e] s']. cbn in Ss, Qa.
    split; [| exact Qa]. apply wsound_record; assumption.
Qed.

Lemma sound_zero : sound eventData.zero.
Proof.
  split; [intros H; discriminate H |].
  intros t H. injection H as <-. reflexivity.
Qed.

Lemma sound_decode d : sound d -> sound (eventData.decode d).
Proof.
  intros [H1 H2]. split; [exact H1 |].
  intros t. rewrite decode_key. exact (H2 t).
Qed.

Lemma sound_candidate o kind now : sound (candidate o kind now).
Proof.
  split; [reflexivity |]. intros t H. injection H as <-. reflexivity.
Qed.

Lemma sound_historical msg now customData log oid d :
  sound (historical msg now customData log oid d).
Proof. split; [intros H | intros t H]; discriminate H. Qed.

Lemma sound_set_CancelInfo c d :
  sound d -> sound (eventData.set_CancelInfo c d).
Proof. intros H. exact H. Qed.

Lemma sound_set_LockUpdateTime t d :
  sound d -> sound (eventData.set_LockUpdateTime t d).
Proof. intros H. exact H. Qed.

Lemma db_Conn_yields : yields db_Conn (fun _ => True).
Proof.
  unfold db_Conn. eapply yields_bind.
  - apply (dbop_yields _ _ _ (fun _ => True)); [auto |].
    intros s Hs. split; [exact Hs | exact I].
  - intros [u e] _. apply yields_ret. exact I.
Qed.

Lemma coll_Insert_yields d : sound d -> yields (coll_Insert d) (fun _ => True).
Proof.
  intros Hd. unfold coll_Insert. eapply yields_bind.
  - apply (dbop_yields _ _ _ (fun _ => True)); [auto |].
    intros s Hs. destruct (existsb _ s); cbn; split; auto.
    apply Forall_app. split; [exact Hs |].
    constructor; [exact Hd | constructor].
  - intros [u e] _. apply yields_ret. exact I.
Qed.

Lemma coll_FindId_One_yields k :
  yields (coll_FindId_One k) (fun r => sound (fst r)).
Proof.
  unfold coll_FindId_One. apply dbop_yields.
  - intros msg. apply sound_zero.
  - intros s Hs. destruct (find (has_key k) s) as [d |] eqn:F; cbn.
    + split; [exact Hs |]. apply sound_decode.
      exact (proj1 (find_Forall _ _ _ _ Hs F)).
    + split; [exact Hs | apply sound_zero].
Qed.

Lemma coll_RemoveId_yields k : yields (coll_RemoveId k) (fun _ => True).
Proof.
  unfold coll_RemoveId. eapply yields_bind.
  - apply (dbop_yields _ _ _ (fun _ => True)); [auto |].
    intros s Hs. destruct (existsb _ s); cbn; split; auto.
    apply Forall_remove_first. exact Hs.
  - intros [u e] _. apply yields_ret. exact I.
Qed.

Lemma coll_Find_Apply_yields k cond upd :
  (forall x, sound x -> sound (upd x)) ->
  yields (coll_Find_Apply k cond upd)
    (fun r => match fst r with Some d => sound d | None => True end).
Proof.
  intros Hu. unfold coll_Find_Apply. apply dbop_yields.
  - intros msg. exact I.
  - intros s Hs. destruct (find _ s) as [d |] eqn:F; cbn.
    + split.
      * apply Forall_update_first; [| exact Hs]. intros x Hx _. auto.
      * apply sound_decode, Hu. exact (proj1 (find_Forall _ _ _ _ Hs F)).
    + split; [exact Hs | exact I].
Qed.

Lemma coll_Update_in_yields ks upd :
  (forall x, sound x -> sound (upd x)) ->
  yields (coll_Update_in ks upd) (fun _ => True).
Proof.
  intros Hu. unfold coll_Update_in. eapply yields_bind.
  - apply (dbop_yields _ _ _ (fun _ => True)); [auto |].
    intros s Hs. destruct (existsb _ s); cbn; split; auto.
    apply Forall_update_first; [| exact Hs]. intros x Hx _. auto.
  - intros [u e] _. apply yields_ret. exact I.
Qed.

Lemma coll_Find_Sort_All_yields : yields coll_Find_Sort_All (fun _ => True).
Proof.
  unfold coll_Find_Sort_All. apply dbop_yields; [auto |].
  intros s Hs. split; [exact Hs | exact I].
Qed.

Lemma time_Now_yields : yields time_Now (fun _ => True).
Proof. apply yields_same. intros w. split; reflexivity. Qed.

Lemma bson_NewObjectId_yields : yields bson_NewObjectId (fun _ => True).
Proof. apply yields_same. intros w. split; reflexivity. Qed.

Lemma send_yields f : yields (send f) (fun _ => True).
Proof.
  apply yields_same. intros w. unfold send.
  destruct (lockUpdater.spinning (updater w)); [| exact I].
  split; reflexivity.
Qed.

Lemma lockUpdater_start_yields : yields lockUpdater_start (fun _ => True).
Proof.
  apply yields_same. intros w. unfold lockUpdater_start. cbv zeta.
  destruct (lockUpdater.once (updater w)); split; reflexivity.
Qed.

Lemma lockUpdater_stop_yields : yields lockUpdater_stop (fun _ => True).
Proof.
  apply yields_same. intros w. unfold lockUpdater_stop. cbv zeta.
  destruct (negb (lockUpdater.stopCh (updater w)));
    [split; reflexivity |].
  destruct (lockUpdater.spinning (updater w)); [| exact I].
  split; reflexivity.
Qed.

Lemma done_yields evtErr customData abort e :
  sound (Event.data e) ->
  yields (done evtErr customData abort e)
    (fun r => sound (Event.data (fst r))).
Proof.
  intros He. unfold done.
  eapply yields_bind; [apply send_yields | intros u _].
  eapply yields_bind; [apply db_Conn_yields | intros cerr _].
  destruct cerr as [x |]; [apply yields_ret; exact He |].
  destruct abort.
  - eapply yields_bind; [apply coll_RemoveId_yields | intros r _].
    apply yields_ret. exact He.
  - eapply yields_bind; [apply time_Now_yields | intros now _].
    eapply yields_bind; [apply bson_NewObjectId_yields | intros oid _].
    assert (Ht : forall d, sound
                   (eventData.set_ID (eventId.mk Target.zero (Some oid))
                      (eventData.set_Log (Event.logBuffer e)
                         (eventData.set_Running false d)))).
    { intros d. split; [intros H | intros t H]; discriminate H. }
    eapply yields_bind; [apply coll_Insert_yields; apply Ht | intros r _].
    eapply yields_bind; [apply coll_RemoveId_yields | intros u2 _].
    apply yields_ret. apply Ht.
Qed.

Lemma checkIsExpired_yields fmt id :
  yields (checkIsExpired fmt id) (fun _ => True).
Proof.
  unfold checkIsExpired.
  eapply yields_bind; [apply coll_FindId_One_yields | intros [d e] Hd].
  destruct e; [apply yields_ret; exact I |].
  eapply yields_bind; [apply time_Now_yields | intros now _].
  destruct (Time_After _ _); [| apply yields_ret; exact I].
  eapply yields_bind.
  { unfold time_Since. eapply yields_bind; [apply time_Now_yields |].
    intros t _. apply (yields_ret _ (fun _ => True)). exact I. }
  intros since _.
  eapply yields_bind; [apply done_yields; exact Hd | intros r _].
  apply yields_ret. exact I.
Qed.

Lemma New_loop_yields fmt evt left :
  sound (Event.data evt) ->
  forall i err,
    yields (New_loop fmt evt left i err)
      (fun r => match fst r with
                | Some e => sound (Event.data e)
                | None => True
                end).
Proof.
  intros He. induction left as [| left IH]; intros i err; cbn [New_loop].
  - apply yields_ret. exact I.
  - eapply yields_bind; [apply coll_Insert_yields; exact He | intros e1 _].
    destruct e1 as [x |].
    + destruct (mgo_IsDup x); [| apply IH].
      eapply yields_bind.
      { destruct (Nat.leb maxRetries i);
          [apply (yields_ret _ (fun _ => True)); exact I |].
        eapply yields_bind; [apply checkIsExpired_yields | intros b _].
        apply (yields_ret _ (fun _ => True)). exact I. }
      intros locked _. destruct locked; [| apply IH].
      eapply yields_bind; [apply coll_FindId_One_yields | intros [d e2] _].
      destruct e2; apply IH.
    + eapply yields_bind; [apply send_yields | intros u _].
      apply yields_ret. exact He.
Qed.

Lemma New_yields fmt opts :
  yields (New fmt opts)
    (fun r => match fst r with
              | Some e => sound (Event.data e)
              | None => True
              end).
Proof.
  unfold New.
  eapply yields_bind; [apply lockUpdater_start_yields | intros u _].
  destruct opts as [o |]; [| apply yields_ret; exact I].
  destruct (negb (Target.IsValid (Opts.Target o)));
    [apply yields_ret; exact I |].
  destruct (Opts.Kind o) as [kind |]; [| apply yields_ret; exact I].
  destruct (String.eqb (Opts.Owner o) ""); [apply yields_ret; exact I |].
  eapply yields_bind; [apply db_Conn_yields | intros cerr _].
  destruct cerr as [x |]; [apply yields_ret; exact I |].
  eapply yields_bind; [apply time_Now_yields | intros now _].
  apply New_loop_yields. apply (sound_candidate o kind now).
Qed.

Lemma TryCancel_yields reason owner e :
  sound (Event.data e) ->
  yields (TryCancel reason owner e) (fun r => sound (Event.data (fst r))).
Proof.
  intros He. unfold TryCancel.
  destruct (negb _ || negb _); [apply yields_ret; exact He |].
  eapply yields_bind; [apply db_Conn_yields | intros cerr _].
  destruct cerr as [x |]; [apply yields_ret; exact He |].
  eapply yields_bind; [apply time_Now_yields | intros now _].
  eapply yields_bind.
  { apply coll_Find_Apply_yields. intros x Hx.
    apply sound_set_CancelInfo. exact Hx. }
  intros [out e1] Ho. cbn in Ho.
  destruct (is_ErrNotFound e1); apply yields_ret;
    destruct out; cbn; assumption.
Qed.

Lemma AckCancel_yields e :
  sound (Event.data e) ->
  yields (AckCancel e) (fun r => sound (Event.data (fst r))).
Proof.
  intros He. unfold AckCancel.
  destruct (negb _ || negb _); [apply yields_ret; exact He |].
  eapply yields_bind; [apply db_Conn_yields | intros cerr _].
  destruct cerr as [x |]; [apply yields_ret; exact He |].
  eapply yields_bind; [apply time_Now_yields | intros now _].
  eapply yields_bind.
  { apply coll_Find_Apply_yields. intros x Hx. unfold ack.
    apply sound_set_CancelInfo. exact Hx. }
  intros [out e1] Ho. cbn in Ho.
  destruct (is_ErrNotFound e1); apply yields_ret;
    destruct out; cbn; assumption.
Qed.

Lemma All_yields : yields All (fun _ => True).
Proof.
  unfold All. eapply yields_bind; [apply db_Conn_yields | intros cerr _].
  destruct cerr; [apply yields_ret; exact I |].
  eapply yields_bind; [apply coll_Find_Sort_All_yields | intros [l e] _].
  apply yields_ret. exact I.
Qed.

Lemma lockUpdater_spin_round_yields :
  yields lockUpdater_spin_round (fun _ => True).
Proof.
  unfold lockUpdater_spin_round.
  eapply yields_bind; [apply db_Conn_yields | intros cerr _].
  destruct cerr; [apply yields_ret; exact I |].
  eapply yields_bind.
  { apply (yields_same (fun w =>
             Returns (map KDoc (lockUpdater.set (updater w))) w)).
    intros w. split; reflexivity. }
  intros ks _.
  eapply yields_bind; [apply time_Now_yields | intros now _].
  eapply yields_bind; [| intros u _; apply yields_ret; exact I].
  apply coll_Update_in_yields. intros x Hx.
  apply sound_set_LockUpdateTime. exact Hx.
Qed.

Lemma on_handle_psound i (m : Event.t -> Go (Event.t * error)) p p' :
  (forall e, sound (Event.data e) ->
             yields (m e) (fun r => sound (Event.data (fst r)))) ->
  psound p -> on_handle i m p = Some p' -> psound p'.
Proof.
  intros Hm [S H] E. unfold on_handle in E.
  destruct (nth_error (handles p) i) as [e |] eqn:N.
  - specialize (Hm e (nth_error_Forall _ _ _ _ H N) (world p) S).
    destruct (m e (world p)) as [[e' r] w' | w']; [| discriminate E].
    injection E as <-. destruct Hm as [S' He]. split; [exact S' |].
    cbn. apply Forall_put; [exact H | exact He].
  - injection E as <-. split; assumption.
Qed.

Lemma pure_on_handle_psound i (f : Event.t -> Event.t) p p' :
  (forall e, Event.data (f e) = Event.data e) ->
  psound p -> pure_on_handle i f p = Some p' -> psound p'.
Proof.
  intros Hf [S H] E. unfold pure_on_handle in E.
  destruct (nth_error (handles p) i) as [e |] eqn:N; injection E as <-.
  - split; [exact S |]. cbn. apply Forall_put; [exact H |].
    rewrite Hf. exact (nth_error_Forall _ _ _ _ H N).
  - split; assumption.
Qed.

Lemma unit_call_psound (m : Go unit) p p' :
  yields m (fun _ => True) ->
  psound p -> unit_call m p = Some p' -> psound p'.
Proof.
  intros Hm [S H] E. unfold unit_call in E. specialize (Hm (world p) S).
  destruct (m (world p)) as [u w' | w']; [| discriminate E].
  injection E as <-. split; [apply Hm | exact H].
Qed.

Lemma exec_psound fmt o p p' :
  psound p -> exec fmt o p = Some p' -> psound p'.
Proof.
  intros Sp E. destruct o; cbn [exec] in E.
  - destruct Sp as [S H].
    pose proof (New_yields fmt opts (world p) S) as T.
    destruct (New fmt opts (world p)) as [[[e |] r] w' | w'];
      [| | discriminate E]; injection E as <-; destruct T as [S' He];
      (split; [exact S' |]); cbn.
    + apply Forall_app. split; [exact H |].
      constructor; [exact He | constructor].
    + exact H.
  - eapply pure_on_handle_psound; eauto. intros e. reflexivity.
  - eapply pure_on_handle_psound; eauto. intros e. reflexivity.
  - eapply on_handle_psound; eauto. intros e. apply TryCancel_yields.
  - eapply on_handle_psound; eauto. intros e. apply AckCancel_yields.
  - eapply on_handle_psound; eauto. intros e. apply done_yields.
  - eapply on_handle_psound; eauto. intros e. apply done_yields.
  - eapply on_handle_psound; eauto. intros e. apply done_yields.
  - eapply unit_call_psound; eauto.
    eapply yields_bind; [apply All_yields | intros r _].
    apply yields_ret. exact I.
  - destruct (lockUpdater.spinning (updater (world p))).
    + eapply unit_call_psound; eauto. apply lockUpdater_spin_round_yields.
    + injection E as <-. exact Sp.
  - eapply unit_call_psound; eauto. apply lockUpdater_stop_yields.
Qed.

Lemma execs_psound fmt l :
  forall p p', psound p -> execs fmt l p = Some p' -> psound p'.
Proof.
  induction l as [| o l IH]; intros p p' S E; cbn [execs] in E.
  - injection E as <-. exact S.
  - destruct (exec fmt o p) as [p1 |] eqn:E1; [| discriminate E].
    eapply IH; [| exact E]. eapply exec_psound; eauto.
Qed.

Lemma start_psound clk flt : psound (start clk flt).
Proof. split; [split |]; constructor. Qed.

(** ** What [done] stores *)

(** C7: for an event that still runs, one that a process holds or one
    read from the collection, in any run of the package under any clock
    and any database failures: when [db.Conn] succeeds, [done] without
    abort inserts a document whose error is the text of [evtErr] when
    there is one, else "canceled by user request" when the cancel was
    acknowledged, else empty; its end time is the time of the call, its
    end data the data given, it does not run, and its log is the log
    buffer. *)
Theorem done_terminal_fields fmt clk flt l p e evtErr customData :
  execs fmt l (start clk flt) = Some p ->
  In e (handles p)
  \/ (exists d, In d (events (world p))
                /\ Event.data e = eventData.decode d) ->
  eventData.Running (Event.data e) = true ->
  lockUpdater.spinning (updater (world p)) = true ->
  dbfault (world p) (length (trace (world p))) = None ->
  exists e' r s1 w',
    done evtErr customData false e (world p) = Returns (e', r) w'
    /\ nth_error (calls_from (world p) w') 1
       = Some (mkEntry (CInsert (Event.data e')) r s1)
    /\ (r = None -> In (Event.data e') s1)
    /\ eventData.Error (Event.data e')
       = match evtErr with
         | Some msg => msg
         | None =>
             if cancelInfo.Canceled (eventData.CancelInfo (Event.data e))
             then "canceled by user request"
             else ""
         end
    /\ eventData.EndTime (Event.data e') = clock (world p) (reads (world p))
    /\ eventData.EndCustomData (Event.data e') = customData
    /\ eventData.Running (Event.data e') = false
    /\ eventData.Log (Event.data e') = Event.logBuffer e.
Proof.
  intros E N Hr Hs Hc.
  destruct (execs_psound fmt l _ _ (start_psound clk flt) E) as [[Hw _] Hh].
  assert (Herr : eventData.Error (Event.data e) = "").
  { destruct N as [N | (d & Hd & Ed)].
    - rewrite Forall_forall in Hh. exact (proj1 (Hh e N) Hr).
    - rewrite Forall_forall in Hw. rewrite Ed in Hr |- *.
      exact (proj1 (sound_decode d (Hw d Hd)) Hr). }
  destruct (done_shape evtErr customData e (world p) Hs Hc)
    as (r & s1 & r2 & s2 & w' & Ed & T & H1 & H2 & Ev).
  eexists _, r, s1, w'. split; [exact Ed |].
  rewrite (calls_from_app _ _ _ T).
  cbn [Event.data Event.set_data nth_error historical eventData.Error
       eventData.EndTime eventData.EndCustomData eventData.Running
       eventData.Log].
  split; [reflexivity |]. split.
  { intros ->. destruct H1 as [[Hn _] | [_ ->]].
    - exfalso. apply Hn. reflexivity.
    - apply in_or_app. right. left. reflexivity. }
  split; [| repeat split].
  unfold done_Error. destruct evtErr as [msg |]; [reflexivity |].
  destruct (cancelInfo.Canceled _); [reflexivity | exact Herr].
Qed.

Lemma done_terminal_fields_witness :
  exists e' r s1 w',
    done None None false (handle 0 acked) (world acked) = Returns (e', r) w'
    /\ nth_error (calls_from (world acked) w') 1
       = Some (mkEntry (CInsert (Event.data e')) r s1)
    /\ (r = None -> In (Event.data e') s1)
    /\ eventData.Error (Event.data e')
       = match @None string with
         | Some msg => msg
         | None =>
             if cancelInfo.Canceled
                  (eventData.CancelInfo (Event.data (handle 0 acked)))
             then "canceled by user request"
             else ""
         end
    /\ eventData.EndTime (Event.data e')
       = clock (world acked) (reads (world acked))
    /\ eventData.EndCustomData (Event.data e') = None
    /\ eventData.Running (Event.data e') = false
    /\ eventData.Log (Event.data e') = Event.logBuffer (handle 0 acked).
Proof.
  apply (done_terminal_fields coarse (every Second) no_fault
           [OpNew (Some (deploy app_a true)); OpTryCancel 0 "halt" "admin";
            OpAckCancel 0] acked (handle 0 acked) None None).
  - vm_compute. reflexivity.
  - left. vm_compute. left. reflexivity.
  - vm_compute. reflexivity.
  - vm_compute. reflexivity.
  - vm_compute. reflexivity.
Defined.

(** * Further properties of the package *)

(** ** The shape of the collection *)

Lemma holds_ret {A} (a : A) (P : World -> Prop) (Q : A -> World -> Prop) :
  (forall w, P w -> Q a w) -> holds P (ret a) Q.
Proof. intros H w T Pw. cbn. auto. Qed.

Lemma holds_bind {A B} (m : Go A) (f : A -> Go B) P Q R :
  holds P m Q -> (forall a, holds (Q a) (f a) R) -> holds P (bind m f) R.
Proof.
  intros Hm Hf w T Pw. unfold bind. specialize (Hm w T Pw).
  destruct (m w) as [a w1 | w1]; [| exact I].
  destruct Hm as (T1 & O1 & Q1). specialize (Hf a w1 T1 Q1).
  destruct (f a w1) as [b w2 | w2]; [| exact I].
  destruct Hf as (T2 & O2 & Q2).
  split; [exact T2 |]. split; [lia | exact Q2].
Qed.

Lemma holds_weaken {A} (m : Go A) (P P' : World -> Prop)
    (Q Q' : A -> World -> Prop) :
  (forall w, tidy w -> P' w -> P w) -> holds P m Q ->
  (forall a w, Q a w -> Q' a w) -> holds P' m Q'.
Proof.
  intros HP Hm HQ w T Pw. specialize (Hm w T (HP w T Pw)).
  destruct (m w) as [a w1 | w1]; [| exact I].
  destruct Hm as (T1 & O1 & Q1). auto.
Qed.

Lemma holds_plain {A B} (m : Go A) (f : A -> Go B) Q :
  holds (fun _ => True) m (fun _ _ => True) ->
  (forall a, holds (fun _ => True) (f a) Q) ->
  holds (fun _ => True) (bind m f) Q.
Proof. intros Hm Hf. eapply holds_bind; [exact Hm | exact Hf]. Qed.

Lemma tidy_record c e s w :
  tidy w -> shaped s -> oids_below (oids w) s -> tidy (record c e s w).
Proof.
  intros (Hs & Ho & Ht) Ss So. split; [exact Ss |]. split; [exact So |].
  cbn. apply Forall_app. split; [exact Ht |]. constructor; [exact Ss |].
  constructor.
Qed.

Lemma dbop_holds {A} c (none : A) run (P : World -> Prop) :
  (forall w, P w -> shaped (events w) -> oids_below (oids w) (events w) ->
     shaped (snd (run (events w)))
     /\ oids_below (oids w) (snd (run (events w)))) ->
  holds P (dbop c none run) (fun _ _ => True).
Proof.
  intros H w T Pw. unfold dbop.
  destruct (dbfault w (length (trace w))).
  - split; [| split; [apply Nat.le_refl | exact I]].
    apply tidy_record; [exact T | apply T | apply T].
  - destruct (H w Pw (proj1 T) (proj1 (proj2 T))) as [Ss So].
    destruct (run (events w)) as [[a e] s']. cbn in Ss, So.
    split; [| split; [apply Nat.le_refl | exact I]].
    apply tidy_record; assumption.
Qed.

Lemma key_in_existsb k s :
  In k (map eventData.key s) -> existsb (has_key k) s = true.
Proof.
  intros H. apply in_map_iff in H. destruct H as (d & <- & Hd).
  apply existsb_exists. exists d. split; [exact Hd |].
  unfold has_key. destruct (eventData.key d) as [t | n]; cbn.
  - unfold Target.eqb. rewrite !String.eqb_refl. reflexivity.
  - apply Nat.eqb_refl.
Qed.

Lemma remove_first_incl sel (s : list eventData.t) d :
  In d (remove_first sel s) -> In d s.
Proof.
  induction s as [| x s IH]; cbn; [auto |].
  destruct (sel x); cbn; intuition.
Qed.

Lemma shaped_remove_first sel s : shaped s -> shaped (remove_first sel s).
Proof.
  intros [Hn Hf]. split; [| apply Forall_remove_first; exact Hf].
  clear Hf. induction s as [| x s IH]; cbn in *; [constructor |].
  inversion Hn as [| k ks Hk Hks]; subst.
  destruct (sel x); [exact Hks |]. cbn. constructor; [| apply IH; exact Hks].
  intros Hin. apply Hk. apply in_map_iff in Hin.
  destruct Hin as (d & E & Hd). apply in_map_iff. exists d.
  split; [exact E | eapply remove_first_incl; exact Hd].
Qed.

Lemma oids_below_remove_first oid sel s :
  oids_below oid s -> oids_below oid (remove_first sel s).
Proof.
  intros H n Hin. apply H. apply in_map_iff in Hin.
  destruct Hin as (d & E & Hd). apply in_map_iff. exists d.
  split; [exact E | eapply remove_first_incl; exact Hd].
Qed.

Lemma update_first_keys sel upd (s : list eventData.t) :
  (forall x, eventData.key (upd x) = eventData.key x) ->
  map eventData.key (update_first sel upd s) = map eventData.key s.
Proof.
  intros H. induction s as [| x s IH]; cbn; [reflexivity |].
  destruct (sel x); cbn; [rewrite H | rewrite IH]; reflexivity.
Qed.

Lemma shaped_update_first sel upd s :
  (forall x, eventData.key (upd x) = eventData.key x) ->
  (forall x, eventData.Running (upd x) = eventData.Running x) ->
  shaped s -> shaped (update_first sel upd s).
Proof.
  intros Hk Hr [Hn Hf]. split.
  - rewrite update_first_keys by exact Hk. exact Hn.
  - apply Forall_update_first; [| exact Hf].
    intros x Hx _. unfold I2 in *. rewrite Hk, Hr. exact Hx.
Qed.

Lemma existsb_has_key_false k s :
  existsb (has_key k) s = false -> ~ In k (map eventData.key s).
Proof.
  intros H Hin. rewrite (key_in_existsb _ _ Hin) in H. discriminate H.
Qed.

Lemma shaped_insert d s :
  shaped s -> I2 d -> existsb (has_key (eventData.key d)) s = false ->
  shaped (s ++ [d]).
Proof.
  intros [Hn Hf] Hd He. split.
  - rewrite map_app. cbn.
    apply NoDup_app; [exact Hn | repeat constructor; intros [] |].
    intros k Hk [<- | []]. eapply existsb_has_key_false; eauto.
  - apply Forall_app. split; [exact Hf | repeat constructor; exact Hd].
Qed.

Lemma tidy_same w w' :
  events w' = events w -> trace w' = trace w -> (oids w <= oids w')%nat ->
  tidy w -> tidy w'.
Proof.
  intros E T O (Hs & Ho & Ht). unfold tidy. rewrite E, T.
  split; [exact Hs |]. split; [| exact Ht].
  intros n Hn. specialize (Ho n Hn). lia.
Qed.

Lemma dbop_holds_plain {A} c (none : A) run :
  (forall s, shaped s -> shaped (snd (run s))) ->
  (forall oid s, oids_below oid s -> oids_below oid (snd (run s))) ->
  holds (fun _ => True) (dbop c none run) (fun _ _ => True).
Proof.
  intros H1 H2. apply dbop_holds. intros w _ Hs Ho. split; auto.
Qed.

Lemma db_Conn_holds : holds (fun _ => True) db_Conn (fun _ _ => True).
Proof.
  unfold db_Conn. eapply holds_bind.
  - apply dbop_holds_plain; intros; assumption.
  - intros [u e]. apply holds_ret. auto.
Qed.

Lemma coll_Insert_holds d :
  holds (fun w => I2 d
                  /\ forall n, eventData.key d = KOid n -> (n < oids w)%nat)
    (coll_Insert d) (fun _ _ => True).
Proof.
  unfold coll_Insert. eapply holds_bind.
  - apply dbop_holds. intros w [Hd Hn] Hs Ho.
    destruct (existsb (has_key (eventData.key d)) (events w)) eqn:E; cbn;
      [split; assumption |].
    split; [apply shaped_insert; assumption |].
    intros n Hin. rewrite map_app in Hin. apply in_app_or in Hin.
    destruct Hin as [Hin | [Hk | []]]; [apply Ho; exact Hin |].
    apply Hn. exact Hk.
  - intros [u e]. apply holds_ret. auto.
Qed.

Lemma coll_FindId_One_holds k :
  holds (fun _ => True) (coll_FindId_One k) (fun _ _ => True).
Proof.
  unfold coll_FindId_One. apply dbop_holds_plain.
  - intros s Hs. destruct (find (has_key k) s); exact Hs.
  - intros oid s Hs. destruct (find (has_key k) s); exact Hs.
Qed.

Lemma coll_RemoveId_holds k :
  holds (fun _ => True) (coll_RemoveId k) (fun _ _ => True).
Proof.
  unfold coll_RemoveId. eapply holds_bind.
  - apply dbop_holds_plain.
    + intros s Hs. destruct (existsb (has_key k) s); cbn; [| exact Hs].
      apply shaped_remove_first. exact Hs.
    + intros oid s Hs. destruct (existsb (has_key k) s); cbn; [| exact Hs].
      apply oids_below_remove_first. exact Hs.
  - intros [u e]. apply holds_ret. auto.
Qed.

Lemma coll_Find_Apply_holds k cond upd :
  (forall x, eventData.key (upd x) = eventData.key x) ->
  (forall x, eventData.Running (upd x) = eventData.Running x) ->
  holds (fun _ => True) (coll_Find_Apply k cond upd) (fun _ _ => True).
Proof.
  intros Hk Hr. unfold coll_Find_Apply. apply dbop_holds_plain.
  - intros s Hs. destruct (find _ s); cbn; [| exact Hs].
    apply shaped_update_first; assumption.
  - intros oid s Hs. destruct (find _ s); cbn; [| exact Hs].
    unfold oids_below. rewrite update_first_keys by exact Hk. exact Hs.
Qed.

Lemma coll_Update_in_holds ks upd :
  (forall x, eventData.key (upd x) = eventData.key x) ->
  (forall x, eventData.Running (upd x) = eventData.Running x) ->
  holds (fun _ => True) (coll_Update_in ks upd) (fun _ _ => True).
Proof.
  intros Hk Hr. unfold coll_Update_in. eapply holds_bind.
  - apply dbop_holds_plain.
    + intros s Hs. destruct (existsb _ s); cbn; [| exact Hs].
      apply shaped_update_first; assumption.
    + intros oid s Hs. destruct (existsb _ s); cbn; [| exact Hs].
      unfold oids_below. rewrite update_first_keys by exact Hk. exact Hs.
  - intros [u e]. apply holds_ret. auto.
Qed.

Lemma coll_Find_Sort_All_holds :
  holds (fun _ => True) coll_Find_Sort_All (fun _ _ => True).
Proof.
  unfold coll_Find_Sort_All. apply dbop_holds_plain; intros; assumption.
Qed.

Lemma time_Now_holds : holds (fun _ => True) time_Now (fun _ _ => True).
Proof.
  intros w T _. unfold time_Now.
  split; [| split; [apply Nat.le_refl | exact I]].
  eapply tidy_same; [| | | exact T]; reflexivity.
Qed.

Lemma bson_NewObjectId_holds :
  holds (fun _ => True) bson_NewObjectId (fun oid w => (oid < oids w)%nat).
Proof.
  intros w T _. unfold bson_NewObjectId.
  split; [| split; cbn; lia].
  eapply tidy_same; [| | | exact T]; try reflexivity. cbn. lia.
Qed.

Lemma send_holds f : holds (fun _ => True) (send f) (fun _ _ => True).
Proof.
  intros w T _. unfold send.
  destruct (lockUpdater.spinning (updater w)); [| exact I].
  split; [| split; [apply Nat.le_refl | exact I]].
  eapply tidy_same; [| | | exact T]; reflexivity.
Qed.

Lemma lockUpdater_start_holds :
  holds (fun _ => True) lockUpdater_start (fun _ _ => True).
Proof.
  intros w T _. unfold lockUpdater_start. cbv zeta.
  destruct (lockUpdater.once (updater w)).
  - split; [exact T | split; [apply Nat.le_refl | exact I]].
  - split; [| split; [apply Nat.le_refl | exact I]].
    eapply tidy_same; [| | | exact T]; reflexivity.
Qed.

Lemma lockUpdater_stop_holds :
  holds (fun _ => True) lockUpdater_stop (fun _ _ => True).
Proof.
  intros w T _. unfold lockUpdater_stop. cbv zeta.
  destruct (negb (lockUpdater.stopCh (updater w))).
  - split; [exact T | split; [apply Nat.le_refl | exact I]].
  - destruct (lockUpdater.spinning (updater w)); [| exact I].
    split; [| split; [apply Nat.le_refl | exact I]].
    eapply tidy_same; [| | | exact T]; reflexivity.
Qed.

Lemma done_holds evtErr customData abort e :
  holds (fun _ => True) (done evtErr customData abort e) (fun _ _ => True).
Proof.
  unfold done.
  apply holds_plain; [apply send_holds | intros u].
  apply holds_plain; [apply db_Conn_holds | intros cerr].
  destruct cerr as [x |]; [apply holds_ret; auto |].
  destruct abort.
  - apply holds_plain; [apply coll_RemoveId_holds | intros r].
    apply holds_ret. auto.
  - apply holds_plain; [apply time_Now_holds | intros now].
    eapply holds_bind; [apply bson_NewObjectId_holds | intros oid].
    eapply holds_bind.
    + eapply holds_weaken; [| apply coll_Insert_holds |].
      * intros w _ Ho. split; [reflexivity |].
        intros n Hn. injection Hn as <-. exact Ho.
      * intros a w H. exact H.
    + intros r. cbv beta.
      apply holds_plain; [apply coll_RemoveId_holds | intros u2].
      apply holds_ret. auto.
Qed.

Lemma checkIsExpired_holds fmt id :
  holds (fun _ => True) (checkIsExpired fmt id) (fun _ _ => True).
Proof.
  unfold checkIsExpired.
  apply holds_plain; [apply coll_FindId_One_holds | intros [d e]].
  destruct e; [apply holds_ret; auto |].
  apply holds_plain; [apply time_Now_holds | intros now].
  destruct (Time_After _ _); [| apply holds_ret; auto].
  apply holds_plain.
  { unfold time_Since. apply holds_plain; [apply time_Now_holds |].
    intros t. apply holds_ret. auto. }
  intros since.
  apply holds_plain; [| intros r; apply holds_ret; auto].
  eapply holds_weaken; [| apply done_holds |]; auto.
Qed.

Lemma New_loop_holds fmt evt left :
  I2 (Event.data evt) ->
  (forall n, eventData.key (Event.data evt) <> KOid n) ->
  forall i err,
    holds (fun _ => True) (New_loop fmt evt left i err) (fun _ _ => True).
Proof.
  intros H2 Hk. induction left as [| left IH]; intros i err; cbn [New_loop].
  - apply holds_ret. auto.
  - eapply holds_bind.
    + eapply holds_weaken; [| apply coll_Insert_holds |].
      * intros w _ _. split; [exact H2 |]. intros n Hn. destruct (Hk n Hn).
      * intros a w H. exact H.
    + intros e1. cbv beta. destruct e1 as [x |].
      * destruct (mgo_IsDup x); [| apply IH].
        apply holds_plain.
        { destruct (Nat.leb maxRetries i); [apply holds_ret; auto |].
          apply holds_plain; [apply checkIsExpired_holds | intros b].
          apply holds_ret. auto. }
        intros locked. destruct locked; [| apply IH].
        apply holds_plain; [apply coll_FindId_One_holds | intros [d e2]].
        destruct e2; apply IH.
      * apply holds_plain; [apply send_holds | intros u].
        apply holds_ret. auto.
Qed.

Lemma New_holds fmt opts :
  holds (fun _ => True) (New fmt opts) (fun _ _ => True).
Proof.
  unfold New.
  apply holds_plain; [apply lockUpdater_start_holds | intros u].
  destruct opts as [o |]; [| apply holds_ret; auto].
  destruct (negb (Target.IsValid (Opts.Target o))); [apply holds_ret; auto |].
  destruct (Opts.Kind o) as [kind |]; [| apply holds_ret; auto].
  destruct (String.eqb (Opts.Owner o) ""); [apply holds_ret; auto |].
  apply holds_plain; [apply db_Conn_holds | intros cerr].
  destruct cerr as [x |]; [apply holds_ret; auto |].
  apply holds_plain; [apply time_Now_holds | intros now].
  apply New_loop_holds; [reflexivity | intros n H; discriminate H].
Qed.

Lemma TryCancel_holds reason owner e :
  holds (fun _ => True) (TryCancel reason owner e) (fun _ _ => True).
Proof.
  unfold TryCancel.
  destruct (negb _ || negb _); [apply holds_ret; auto |].
  apply holds_plain; [apply db_Conn_holds | intros cerr].
  destruct cerr as [x |]; [apply holds_ret; auto |].
  apply holds_plain; [apply time_Now_holds | intros now].
  apply holds_plain.
  { apply coll_Find_Apply_holds; intros x; reflexivity. }
  intros [out e1]. destruct (is_ErrNotFound e1); apply holds_ret; auto.
Qed.

Lemma AckCancel_holds e :
  holds (fun _ => True) (AckCancel e) (fun _ _ => True).
Proof.
  unfold AckCancel.
  destruct (negb _ || negb _); [apply holds_ret; auto |].
  apply holds_plain; [apply db_Conn_holds | intros cerr].
  destruct cerr as [x |]; [apply holds_ret; auto |].
  apply holds_plain; [apply time_Now_holds | intros now].
  apply holds_plain.
  { apply coll_Find_Apply_holds; intros x; reflexivity. }
  intros [out e1]. destruct (is_ErrNotFound e1); apply holds_ret; auto.
Qed.

Lemma All_holds : holds (fun _ => True) All (fun _ _ => True).
Proof.
  unfold All. apply holds_plain; [apply db_Conn_holds | intros cerr].
  destruct cerr; [apply holds_ret; auto |].
  apply holds_plain; [apply coll_Find_Sort_All_holds | intros [l e]].
  apply holds_ret. auto.
Qed.

Lemma lockUpdater_spin_round_holds :
  holds (fun _ => True) lockUpdater_spin_round (fun _ _ => True).
Proof.
  unfold lockUpdater_spin_round.
  apply holds_plain; [apply db_Conn_holds | intros cerr].
  destruct cerr; [apply holds_ret; auto |].
  apply holds_plain.
  { intros w T _. split; [exact T | split; [apply Nat.le_refl | exact I]]. }
  intros ks.
  apply holds_plain; [apply time_Now_holds | intros now].
  apply holds_plain; [| intros u; apply holds_ret; auto].
  apply coll_Update_in_holds; intros x; reflexivity.
Qed.

Lemma on_handle_tidy i (m : Event.t -> Go (Event.t * error)) p p' :
  (forall e, holds (fun _ => True) (m e) (fun _ _ => True)) ->
  tidy (world p) -> on_handle i m p = Some p' -> tidy (world p').
Proof.
  intros Hm T E. unfold on_handle in E.
  destruct (nth_error (handles p) i) as [e |].
  - specialize (Hm e (world p) T I).
    destruct (m e (world p)) as [[e' r] w' | w']; [| discriminate E].
    injection E as <-. apply Hm.
  - injection E as <-. exact T.
Qed.

Lemma unit_call_tidy (m : Go unit) p p' :
  holds (fun _ => True) m (fun _ _ => True) ->
  tidy (world p) -> unit_call m p = Some p' -> tidy (world p').
Proof.
  intros Hm T E. unfold unit_call in E. specialize (Hm (world p) T I).
  destruct (m (world p)) as [u w' | w']; [| discriminate E].
  injection E as <-. apply Hm.
Qed.

Lemma exec_tidy fmt o p p' :
  tidy (world p) -> exec fmt o p = Some p' -> tidy (world p').
Proof.
  intros T E. destruct o; cbn [exec] in E.
  - pose proof (New_holds fmt opts (world p) T I) as H.
    destruct (New fmt opts (world p)) as [[[e |] r] w' | w'];
      [| | discriminate E]; injection E as <-; apply H.
  - unfold pure_on_handle in E.
    destruct (nth_error (handles p) i); injection E as <-; exact T.
  - unfold pure_on_handle in E.
    destruct (nth_error (handles p) i); injection E as <-; exact T.
  - eapply on_handle_tidy; eauto. intros e. apply TryCancel_holds.
  - eapply on_handle_tidy; eauto. intros e. apply AckCancel_holds.
  - eapply on_handle_tidy; eauto. intros e. apply done_holds.
  - eapply on_handle_tidy; eauto. intros e. apply done_holds.
  - eapply on_handle_tidy; eauto. intros e. apply done_holds.
  - eapply unit_call_tidy; eauto.
    apply holds_plain; [apply All_holds | intros r; apply holds_ret; auto].
  - destruct (lockUpdater.spinning (updater (world p))).
    + eapply unit_call_tidy; eauto. apply lockUpdater_spin_round_holds.
    + injection E as <-. exact T.
  - eapply unit_call_tidy; eauto. apply lockUpdater_stop_holds.
Qed.

Lemma execs_tidy fmt l :
  forall p p', tidy (world p) -> execs fmt l p = Some p' -> tidy (world p').
Proof.
  induction l as [| o l IH]; intros p p' T E; cbn [execs] in E.
  - injection E as <-. exact T.
  - destruct (exec fmt o p) as [p1 |] eqn:E1; [| discriminate E].
    eapply IH; [| exact E]. eapply exec_tidy; eauto.
Qed.

Lemma start_tidy clk flt : tidy (world (start clk flt)).
Proof.
  split; [split; constructor |]. split; [intros n [] | constructor].
Qed.

Lemma tidy_visible w s : tidy w -> In s (visible w) -> shaped s.
Proof.
  intros (Hs & _ & Ht) [<- | Hin]; [exact Hs |].
  apply in_map_iff in Hin. destruct Hin as (en & <- & Hen).
  rewrite Forall_forall in Ht. apply Ht. exact Hen.
Qed.

Lemma wsound_visible w s : wsound w -> In s (visible w) -> Forall sound s.
Proof.
  intros [Hs Ht] [<- | Hin]; [exact Hs |].
  apply in_map_iff in Hin. destruct Hin as (en & <- & Hen).
  rewrite Forall_forall in Ht. apply Ht. exact Hen.
Qed.

Lemma running_key d :
  I2 d -> sound d -> eventData.Running d = true ->
  eventData.key d = KDoc (eventData.Target d).
Proof.
  intros H2 [_ Hk] Hr. unfold I2 in H2.
  destruct (eventData.key d) as [t | n] eqn:K.
  - rewrite (Hk t eq_refl). reflexivity.
  - rewrite Hr in H2. discriminate H2.
Qed.

(** X1: at most one event runs on a target.  Whatever the package is
    called to do, from an empty collection, under any clock and with any
    database failures, in every state the collection is ever in, also in
    the middle of a call, two documents that both run are events on
    different targets. *)
Theorem one_running_event_per_target fmt clk flt l p s i j d1 d2 :
  execs fmt l (start clk flt) = Some p ->
  In s (visible (world p)) ->
  nth_error s i = Some d1 ->
  nth_error s j = Some d2 ->
  i <> j ->
  eventData.Running d1 = true ->
  eventData.Running d2 = true ->
  eventData.Target d1 <> eventData.Target d2.
Proof.
  intros E Hs N1 N2 Hij R1 R2 Ht.
  pose proof (execs_tidy fmt l _ _ (start_tidy clk flt) E) as T.
  destruct (execs_psound fmt l _ _ (start_psound clk flt) E) as [S _].
  destruct (tidy_visible _ _ T Hs) as [Hn Hf].
  pose proof (wsound_visible _ _ S Hs) as Hd.
  pose proof (running_key d1 (nth_error_Forall _ _ _ _ Hf N1)
                (nth_error_Forall _ _ _ _ Hd N1) R1) as K1.
  pose proof (running_key d2 (nth_error_Forall _ _ _ _ Hf N2)
                (nth_error_Forall _ _ _ _ Hd N2) R2) as K2.
  apply Hij. rewrite NoDup_nth_error in Hn. apply Hn.
  - rewrite length_map. apply nth_error_Some. rewrite N1. discriminate.
  - rewrite !nth_error_map, N1, N2. cbn. rewrite K1, K2, Ht. reflexivity.
Qed.

Lemma one_running_event_per_target_witness :
  map (fun d => (eventData.Running d, eventData.Target d))
    (events (world two_held))
  = [(true, app_a); (true, app_b)]
  /\ eventData.Target (nth 0 (events (world two_held)) eventData.zero)
     <> eventData.Target (nth 1 (events (world two_held)) eventData.zero).
Proof.
  split; [vm_compute; reflexivity |].
  apply (one_running_event_per_target coarse (every Second) no_fault
           [OpNew (Some (deploy app_a false));
            OpNew (Some (deploy app_b false))] two_held
           (events (world two_held)) 0%nat 1%nat).
  - vm_compute. reflexivity.
  - vm_compute. left. reflexivity.
  - vm_compute. reflexivity.
  - vm_compute. reflexivity.
  - intros H. discriminate H.
  - vm_compute. reflexivity.
  - vm_compute. reflexivity.
Defined.

(** X2: in every state of the collection that a run of the package
    leaves, a document whose [_id] is a target is running and a document
    whose [_id] is an ObjectId is not. *)
Theorem running_bit_in_every_state fmt clk flt l p s d :
  execs fmt l (start clk flt) = Some p ->
  In s (visible (world p)) ->
  In d s ->
  (eventData.Running d = true <-> exists t, eventData.key d = KDoc t)
  /\ (eventData.Running d = false <-> exists n, eventData.key d = KOid n).
Proof.
  intros E Hs Hd.
  pose proof (execs_tidy fmt l _ _ (start_tidy clk flt) E) as T.
  destruct (tidy_visible _ _ T Hs) as [_ Hf].
  rewrite Forall_forall in Hf. specialize (Hf d Hd). unfold I2 in Hf.
  destruct (eventData.key d) as [t | n]; rewrite Hf; split; split;
    try (intros H; discriminate H).
  - intros _. exists t. reflexivity.
  - reflexivity.
  - intros [m H]. discriminate H.
  - intros [t H]. discriminate H.
  - intros _. exists n. reflexivity.
  - reflexivity.
Qed.

Lemma running_bit_in_every_state_witness :
  (eventData.Running (oldest crossed) = true
   <-> exists t, eventData.key (oldest crossed) = KDoc t)
  /\ (eventData.Running (oldest crossed) = false
      <-> exists n, eventData.key (oldest crossed) = KOid n).
Proof.
  apply (running_bit_in_every_state coarse (every Second) no_fault
           [OpNew (Some (deploy app_a false));
            OpNew (Some (deploy app_b false));
            OpDone 1 None; OpDone 0 None] crossed (events (world crossed))).
  - vm_compute. reflexivity.
  - vm_compute. left. reflexivity.
  - vm_compute. left. reflexivity.
Defined.

(** ** Acquiring a free target *)

Lemma In_set_add t s : In t (set_add t s).
Proof.
  unfold set_add. destruct (existsb (Target.eqb t) s) eqn:E.
  - apply existsb_exists in E. destruct E as (x & Hx & Ex).
    apply Target_eqb_eq in Ex. subst. exact Hx.
  - left. reflexivity.
Qed.

Lemma started_spinning w :
  updater_ok w ->
  lockUpdater.spinning (updater (world_after (lockUpdater_start w))) = true.
Proof.
  intros Hok. destruct (started_same w) as (_ & _ & _ & _ & _ & Sp).
  rewrite Sp. unfold updater_ok in Hok.
  destruct (lockUpdater.once (updater w)); [cbn; auto | reflexivity].
Qed.

(** What [New] does on a healthy database when no document has the target
    as its [_id]. *)
Lemma New_free fmt o kind w :
  healthy w -> updater_ok w ->
  Target.IsValid (Opts.Target o) = true ->
  Opts.Kind o = Some kind ->
  Opts.Owner o <> "" ->
  existsb (has_key (KDoc (Opts.Target o))) (events w) = false ->
  exists w',
    New fmt (Some o) w
      = Returns (Some (Event.of_data (candidate o kind (clock w (reads w)))),
                 None) w'
    /\ events w' = events w ++ [candidate o kind (clock w (reads w))]
    /\ trace w'
       = trace w
         ++ [mkEntry CConn None (events w);
             mkEntry (CInsert (candidate o kind (clock w (reads w)))) None
               (events w ++ [candidate o kind (clock w (reads w))])]
    /\ clock w' = clock w /\ dbfault w' = dbfault w
    /\ reads w' = S (reads w) /\ oids w' = oids w
    /\ lockUpdater.spinning (updater w') = true
    /\ lockUpdater.once (updater w') = true
    /\ In (Opts.Target o) (lockUpdater.set (updater w')).
Proof.
  intros Hh Hok Hv Hk Ho Hfree.
  apply String.eqb_neq in Ho.
  pose proof (healthy_started w Hh) as Hh1.
  pose proof (started_spinning w Hok) as Hs1.
  assert (Ho1 : lockUpdater.once
                  (updater (world_after (lockUpdater_start w))) = true).
  { unfold lockUpdater_start. cbn.
    destruct (lockUpdater.once (updater w)) eqn:E; [exact E | reflexivity]. }
  assert (Hf1 : dbfault (world_after (lockUpdater_start w)) = dbfault w).
  { unfold lockUpdater_start. cbn.
    destruct (lockUpdater.once (updater w)); reflexivity. }
  destruct (started_same w) as (Ev1 & Ck1 & Rd1 & Tr1 & Oi1 & _).
  remember (world_after (lockUpdater_start w)) as w1 eqn:Ew1.
  rewrite <- Ev1, <- Ck1, <- Rd1, <- Tr1, <- Oi1, <- Hf1 in *.
  clear Ev1 Ck1 Rd1 Tr1 Oi1 Hf1 Hok.
  eexists. split.
  - unfold New. step ltac:(apply lockUpdater_start_eq).
    rewrite <- Ew1. rewrite Hv, Hk, Ho. cbn [negb].
    step ltac:(apply db_Conn_eq; assumption).
    step ltac:(reflexivity).
    change (eventData.mk _ _ _ _ _ _ _ _ _ _ _ _ _ _)
      with (candidate o kind (clock w1 (reads w1))).
    cbn [New_loop maxRetries]. wsimpl.
    step ltac:(apply coll_Insert_new; [auto with world | exact Hfree]).
    step ltac:(apply send_eq; exact Hs1).
    reflexivity.
  - wsimpl. cbn [lockUpdater.spinning lockUpdater.once lockUpdater.set].
    rewrite <- !app_assoc.
    repeat split; auto. apply In_set_add.
Qed.

(** X3: on a healthy database, [New] with valid options on a target that
    no document holds succeeds at the first insert: the collection gains
    the new running event and nothing else, the event returned is the one
    stored, and the target is in the set of the running updater. *)
Theorem New_acquires_free_target fmt o kind w :
  healthy w -> updater_ok w ->
  Target.IsValid (Opts.Target o) = true ->
  Opts.Kind o = Some kind ->
  Opts.Owner o <> "" ->
  existsb (has_key (KDoc (Opts.Target o))) (events w) = false ->
  exists evt w',
    New fmt (Some o) w = Returns (Some evt, None) w'
    /\ events w' = events w ++ [Event.data evt]
    /\ map call (calls_from w w') = [CConn; CInsert (Event.data evt)]
    /\ eventData.key (Event.data evt) = KDoc (Opts.Target o)
    /\ eventData.Running (Event.data evt) = true
    /\ eventData.StartTime (Event.data evt) = clock w (reads w)
    /\ eventData.LockUpdateTime (Event.data evt) = clock w (reads w)
    /\ eventData.Owner (Event.data evt) = Opts.Owner o
    /\ eventData.Kind (Event.data evt) = PermissionScheme.FullName kind
    /\ lockUpdater.spinning (updater w') = true
    /\ In (Opts.Target o) (lockUpdater.set (updater w')).
Proof.
  intros Hh Hok Hv Hk Ho Hfree.
  destruct (New_free fmt o kind w Hh Hok Hv Hk Ho Hfree)
    as (w' & E & Ev & Tr & _ & _ & _ & _ & Sp & _ & Hin).
  eexists _, w'. split; [exact E |].
  rewrite (calls_from_app _ _ _ Tr). cbn [Event.data Event.of_data].
  repeat split; auto.
Qed.

Lemma New_acquires_free_target_witness :
  exists evt w',
    New coarse (Some (deploy app_b false)) (world held)
      = Returns (Some evt, None) w'
    /\ events w' = events (world held) ++ [Event.data evt]
    /\ map call (calls_from (world held) w')
       = [CConn; CInsert (Event.data evt)]
    /\ eventData.key (Event.data evt)
       = KDoc (Opts.Target (deploy app_b false))
    /\ eventData.Running (Event.data evt) = true
    /\ eventData.StartTime (Event.data evt)
       = clock (world held) (reads (world held))
    /\ eventData.LockUpdateTime (Event.data evt)
       = clock (world held) (reads (world held))
    /\ eventData.Owner (Event.data evt) = Opts.Owner (deploy app_b false)
    /\ eventData.Kind (Event.data evt)
       = PermissionScheme.FullName deploy_scheme
    /\ lockUpdater.spinning (updater w') = true
    /\ In (Opts.Target (deploy app_b false)) (lockUpdater.set (updater w')).
Proof.
  apply (New_acquires_free_target coarse (deploy app_b false) deploy_scheme
           (world held)).
  - intros n. vm_compute. reflexivity.
  - intros _. vm_compute. reflexivity.
  - vm_compute. reflexivity.
  - vm_compute. reflexivity.
  - intros H. vm_compute in H. discriminate H.
  - vm_compute. reflexivity.
Defined.

(** ** Releasing *)

Lemma remove_first_none sel (s : list eventData.t) :
  existsb sel s = false -> remove_first sel s = s.
Proof.
  induction s as [| x s IH]; cbn; [reflexivity |].
  destruct (sel x); cbn; [discriminate |].
  intros H. rewrite IH by exact H. reflexivity.
Qed.

Lemma remove_first_keeps sel (s : list eventData.t) d :
  In d s -> sel d = false -> In d (remove_first sel s).
Proof.
  induction s as [| x s IH]; cbn; [auto |].
  intros [-> | Hin] Hd.
  - rewrite Hd. left. reflexivity.
  - destruct (sel x); [exact Hin | right; auto].
Qed.

Lemma remove_first_NoDup k s :
  NoDup (map eventData.key s) ->
  existsb (has_key k) (remove_first (has_key k) s) = false.
Proof.
  induction s as [| x s IH]; cbn; intros H; [reflexivity |].
  inversion H as [| y ys Hy Hys]; subst.
  destruct (has_key k x) eqn:E.
  - apply Key_eqb_eq in E. subst k.
    destruct (existsb (has_key (eventData.key x)) s) eqn:X; [| reflexivity].
    exfalso. apply Hy. apply existsb_exists in X.
    destruct X as (d & Hd & Kd). apply Key_eqb_eq in Kd. rewrite <- Kd.
    apply in_map. exact Hd.
  - cbn. rewrite E. apply IH. exact Hys.
Qed.

Lemma remove_first_last sel (s : list eventData.t) d :
  existsb sel s = false -> sel d = true -> remove_first sel (s ++ [d]) = s.
Proof.
  induction s as [| x s IH]; cbn; intros H Hd.
  - rewrite Hd. reflexivity.
  - destruct (sel x); [discriminate H |]. rewrite IH; auto.
Qed.

Lemma oids_below_fresh oid s :
  oids_below oid s -> existsb (has_key (KOid oid)) s = false.
Proof.
  intros H. destruct (existsb (has_key (KOid oid)) s) eqn:E; [| reflexivity].
  exfalso. apply existsb_exists in E. destruct E as (d & Hd & Kd).
  apply Key_eqb_eq in Kd. specialize (H oid).
  rewrite <- Kd in H. specialize (H (in_map _ _ _ Hd)). lia.
Qed.

(** What [done] does, when it is not an abort, on a healthy database where
    the next ObjectId is not in the collection. *)
Lemma done_healthy evtErr customData e w :
  lockUpdater.spinning (updater w) = true ->
  healthy w ->
  existsb (has_key (KOid (oids w))) (events w) = false ->
  let twin := historical (done_Error evtErr (Event.data e))
                (clock w (reads w)) customData (Event.logBuffer e) (oids w)
                (Event.data e) in
  exists r2 w',
    done evtErr customData false e w = Returns (Event.set_data twin e, None) w'
    /\ events w'
       = remove_first (has_key (eventData.key (Event.data e)))
           (events w ++ [twin])
    /\ trace w'
       = trace w
         ++ [mkEntry CConn None (events w);
             mkEntry (CInsert twin) None (events w ++ [twin]);
             mkEntry (CRemoveId (eventData.key (Event.data e))) r2
               (remove_first (has_key (eventData.key (Event.data e)))
                  (events w ++ [twin]))]
    /\ clock w' = clock w /\ dbfault w' = dbfault w
    /\ reads w' = S (reads w) /\ oids w' = S (oids w)
    /\ lockUpdater.spinning (updater w') = true
    /\ lockUpdater.once (updater w') = lockUpdater.once (updater w)
    /\ lockUpdater.set (updater w')
       = set_delete (eventData.Target (Event.data e))
           (lockUpdater.set (updater w)).
Proof.
  intros Hs Hh Hfresh twin.
  unfold done, bind, send_removeCh, send. rewrite Hs.
  rewrite db_Conn_ok by apply Hh.
  unfold time_Now, bson_NewObjectId, coll_Insert, coll_RemoveId, bind, dbop,
    ret.
  wsimpl. rewrite !Hh.
  change (eventData.set_ID _ _) with twin.
  change (eventData.key (eventData.set_Log _ _))
    with (eventData.key (Event.data e)).
  change (eventData.key twin) with (KOid (oids w)). rewrite Hfresh.
  wsimpl. rewrite !Hh.
  destruct (existsb (has_key (eventData.key (Event.data e)))
              (events w ++ [twin])) eqn:X; wsimpl;
    eexists _, _; (split; [reflexivity |]); wsimpl;
    cbn [lockUpdater.spinning lockUpdater.once lockUpdater.set];
    rewrite <- ?app_assoc; rewrite ?(remove_first_none _ _ X);
    repeat split; reflexivity.
Qed.

(** X4: in a world in shape, on a healthy database and with the updater
    running, [done] without abort returns no error, leaves the historical
    document of the event in the collection, and leaves no document under
    the [_id] the event had: the target is free again. *)
Theorem done_stores_history evtErr customData e w :
  tidy w ->
  healthy w ->
  lockUpdater.spinning (updater w) = true ->
  (forall n, eventData.key (Event.data e) = KOid n -> (n < oids w)%nat) ->
  exists e' w',
    done evtErr customData false e w = Returns (e', None) w'
    /\ In (Event.data e') (events w')
    /\ eventData.key (Event.data e') = KOid (oids w)
    /\ existsb (has_key (eventData.key (Event.data e))) (events w') = false
    /\ shaped (events w').
Proof.
  intros (Sh & Ob & _) Hh Hs Hk.
  pose proof (oids_below_fresh _ _ Ob) as Hfresh.
  destruct (done_healthy evtErr customData e w Hs Hh Hfresh)
    as (r2 & w' & E & Ev & _).
  eexists _, w'. split; [exact E |]. rewrite Ev.
  cbn [Event.data Event.set_data].
  assert (S1 : shaped (events w
                       ++ [historical (done_Error evtErr (Event.data e))
                             (clock w (reads w)) customData
                             (Event.logBuffer e) (oids w) (Event.data e)])).
  { apply shaped_insert; [exact Sh | reflexivity | exact Hfresh]. }
  split; [| split; [reflexivity | split]].
  - apply remove_first_keeps; [apply in_or_app; right; left; reflexivity |].
    unfold has_key. cbn.
    destruct (eventData.key (Event.data e)) as [t | n] eqn:K; cbn;
      [reflexivity |].
    apply Nat.eqb_neq. specialize (Hk n eq_refl). lia.
  - apply remove_first_NoDup. apply S1.
  - apply shaped_remove_first. exact S1.
Qed.

Lemma held_tidy : tidy (world held).
Proof.
  apply (execs_tidy coarse [OpNew (Some (deploy app_a false))]
           (start (every Second) no_fault) held (start_tidy _ _)).
  vm_compute. reflexivity.
Qed.

Lemma done_stores_history_witness :
  exists e' w',
    done None None false (handle 0 held) (world held) = Returns (e', None) w'
    /\ In (Event.data e') (events w')
    /\ eventData.key (Event.data e') = KOid (oids (world held))
    /\ existsb (has_key (eventData.key (Event.data (handle 0 held))))
         (events w') = false
    /\ shaped (events w').
Proof.
  apply (done_stores_history None None (handle 0 held) (world held)).
  - exact held_tidy.
  - intros n. vm_compute. reflexivity.
  - vm_compute. reflexivity.
  - intros n H. vm_compute in H. discriminate H.
Defined.

Lemma has_key_candidate o kind now :
  has_key (KDoc (Opts.Target o)) (candidate o kind now) = true.
Proof.
  unfold has_key. cbn. unfold Target.eqb. rewrite !String.eqb_refl.
  reflexivity.
Qed.

Lemma not_In_set_delete t s : ~ In t (set_delete t s).
Proof.
  unfold set_delete. intros H. apply filter_In in H. destruct H as [_ H].
  unfold Target.eqb in H. rewrite !String.eqb_refl in H. discriminate H.
Qed.

(** What [Abort] does on a healthy database. *)
Lemma Abort_healthy e w :
  lockUpdater.spinning (updater w) = true ->
  healthy w ->
  exists r w',
    Abort e w = Returns (e, r) w'
    /\ r = (if existsb (has_key (eventData.key (Event.data e))) (events w)
            then None else Some mgo_ErrNotFound)
    /\ events w'
       = remove_first (has_key (eventData.key (Event.data e))) (events w)
    /\ map call (calls_from w w')
       = [CConn; CRemoveId (eventData.key (Event.data e))]
    /\ dbfault w' = dbfault w
    /\ lockUpdater.spinning (updater w') = true
    /\ lockUpdater.set (updater w')
       = set_delete (eventData.Target (Event.data e))
           (lockUpdater.set (updater w)).
Proof.
  intros Hs Hh.
  unfold Abort, done, bind, send_removeCh, send. rewrite Hs.
  rewrite db_Conn_ok by apply Hh.
  unfold coll_RemoveId, bind, dbop, ret. wsimpl. rewrite !Hh.
  destruct (existsb (has_key (eventData.key (Event.data e))) (events w))
    eqn:X; eexists _, _; (split; [reflexivity |]); unfold calls_from; wsimpl;
    cbn [lockUpdater.spinning lockUpdater.set];
    rewrite <- ?app_assoc, skipn_app, skipn_all, Nat.sub_diag;
    rewrite ?(remove_first_none _ _ X); repeat split; reflexivity.
Qed.

(** X5: on a healthy database, an event acquired on a free target and
    then aborted leaves no trace: [Abort] makes one removal and no insert,
    the collection is what it was before [New], and the target is no
    longer in the set of the updater. *)
Theorem New_then_Abort_leaves_no_trace fmt o kind w :
  healthy w -> updater_ok w ->
  Target.IsValid (Opts.Target o) = true ->
  Opts.Kind o = Some kind ->
  Opts.Owner o <> "" ->
  existsb (has_key (KDoc (Opts.Target o))) (events w) = false ->
  exists evt w1 w2,
    New fmt (Some o) w = Returns (Some evt, None) w1
    /\ Abort evt w1 = Returns (evt, None) w2
    /\ map call (calls_from w1 w2) = [CConn; CRemoveId (KDoc (Opts.Target o))]
    /\ events w2 = events w
    /\ ~ In (Opts.Target o) (lockUpdater.set (updater w2)).
Proof.
  intros Hh Hok Hv Hk Ho Hfree.
  destruct (New_free fmt o kind w Hh Hok Hv Hk Ho Hfree)
    as (w1 & E & Ev & Tr & _ & Df & _ & _ & Sp & _ & _).
  assert (Hh1 : healthy w1) by (intros n; rewrite Df; apply Hh).
  destruct (Abort_healthy
              (Event.of_data (candidate o kind (clock w (reads w)))) w1 Sp Hh1)
    as (r & w2 & Ea & Er & Ev2 & Ca & _ & _ & St).
  cbn [Event.data Event.of_data] in *.
  change (eventData.key (candidate o kind (clock w (reads w))))
    with (KDoc (Opts.Target o)) in *.
  change (eventData.Target (candidate o kind (clock w (reads w))))
    with (Opts.Target o) in *.
  assert (X : existsb (has_key (KDoc (Opts.Target o))) (events w1) = true).
  { rewrite Ev, existsb_app. cbn [existsb].
    rewrite has_key_candidate. apply orb_true_r. }
  rewrite X in Er. subst r.
  eexists _, w1, w2. split; [exact E |]. split; [exact Ea |].
  split; [exact Ca |]. split.
  - rewrite Ev2, Ev. apply remove_first_last; [exact Hfree |].
    apply has_key_candidate.
  - rewrite St. apply not_In_set_delete.
Qed.

Lemma New_then_Abort_leaves_no_trace_witness :
  exists evt w1 w2,
    New coarse (Some (deploy app_b false)) (world held)
      = Returns (Some evt, None) w1
    /\ Abort evt w1 = Returns (evt, None) w2
    /\ map call (calls_from w1 w2)
       = [CConn; CRemoveId (KDoc (Opts.Target (deploy app_b false)))]
    /\ events w2 = events (world held)
    /\ ~ In (Opts.Target (deploy app_b false)) (lockUpdater.set (updater w2)).
Proof.
  apply (New_then_Abort_leaves_no_trace coarse (deploy app_b false)
           deploy_scheme (world held)).
  - intros n. vm_compute. reflexivity.
  - intros _. vm_compute. reflexivity.
  - vm_compute. reflexivity.
  - vm_compute. reflexivity.
  - intros H. vm_compute in H. discriminate H.
  - vm_compute. reflexivity.
Defined.

(** X6: on a healthy database and from a world in shape, an event
    acquired on a free target and then done leaves the collection with one
    document more, the historical one, which does not run and whose error
    is the error given or empty; the target is free, and [New] on it
    succeeds again. *)
Theorem New_Done_New fmt o kind evtErr customData w :
  tidy w -> healthy w -> updater_ok w ->
  Target.IsValid (Opts.Target o) = true ->
  Opts.Kind o = Some kind ->
  Opts.Owner o <> "" ->
  existsb (has_key (KDoc (Opts.Target o))) (events w) = false ->
  exists evt w1 evt' w2 evt2 w3,
    New fmt (Some o) w = Returns (Some evt, None) w1
    /\ done evtErr customData false evt w1 = Returns (evt', None) w2
    /\ events w2 = events w ++ [Event.data evt']
    /\ eventData.Running (Event.data evt') = false
    /\ eventData.Error (Event.data evt')
       = match evtErr with Some msg => msg | None => "" end
    /\ eventData.Target (Event.data evt') = Opts.Target o
    /\ New fmt (Some o) w2 = Returns (Some evt2, None) w3.
Proof.
  intros (Sh & Ob & _) Hh Hok Hv Hk Ho Hfree.
  destruct (New_free fmt o kind w Hh Hok Hv Hk Ho Hfree)
    as (w1 & E & Ev & _ & _ & Df & _ & Oi & Sp & _ & _).
  assert (Hh1 : healthy w1) by (intros n; rewrite Df; apply Hh).
  assert (Hfresh : existsb (has_key (KOid (oids w1))) (events w1) = false).
  { rewrite Ev, Oi, existsb_app, (oids_below_fresh _ _ Ob). reflexivity. }
  destruct (done_healthy evtErr customData
              (Event.of_data (candidate o kind (clock w (reads w)))) w1
              Sp Hh1 Hfresh)
    as (r2 & w2 & Ed & Ev2 & _ & _ & Df2 & _ & _ & Sp2 & _).
  cbn [Event.data Event.of_data Event.logBuffer] in *.
  change (eventData.key (candidate o kind (clock w (reads w))))
    with (KDoc (Opts.Target o)) in *.
  set (twin := historical _ _ _ _ _ _) in *.
  assert (Ev2' : events w2 = events w ++ [twin]).
  { rewrite Ev2, Ev. rewrite remove_first_app.
    - rewrite remove_first_last; [reflexivity | exact Hfree |].
      apply has_key_candidate.
    - rewrite existsb_app. cbn [existsb].
      rewrite has_key_candidate. apply orb_true_r. }
  assert (Hh2 : healthy w2) by (intros n; rewrite Df2; apply Hh1).
  assert (Hok2 : updater_ok w2) by (intros _; exact Sp2).
  assert (Hfree2 : existsb (has_key (KDoc (Opts.Target o))) (events w2)
                   = false).
  { rewrite Ev2', existsb_app, Hfree. reflexivity. }
  destruct (New_free fmt o kind w2 Hh2 Hok2 Hv Hk Ho Hfree2)
    as (w3 & E3 & _).
  eexists _, w1, _, w2, _, w3.
  split; [exact E |]. split; [exact Ed |].
  cbn [Event.data Event.set_data].
  split; [exact Ev2' |]. split; [reflexivity |].
  split; [destruct evtErr; reflexivity |].
  split; [reflexivity | exact E3].
Qed.

Lemma New_Done_New_witness :
  exists evt w1 evt' w2 evt2 w3,
    New coarse (Some (deploy app_b false)) (world held)
      = Returns (Some evt, None) w1
    /\ done (Some "boom") None false evt w1 = Returns (evt', None) w2
    /\ events w2 = events (world held) ++ [Event.data evt']
    /\ eventData.Running (Event.data evt') = false
    /\ eventData.Error (Event.data evt')
       = match Some "boom" with Some msg => msg | None => "" end
    /\ eventData.Target (Event.data evt') = Opts.Target (deploy app_b false)
    /\ New coarse (Some (deploy app_b false)) w2
       = Returns (Some evt2, None) w3.
Proof.
  apply (New_Done_New coarse (deploy app_b false) deploy_scheme (Some "boom")
           None (world held)).
  - exact held_tidy.
  - intros n. vm_compute. reflexivity.
  - intros _. vm_compute. reflexivity.
  - vm_compute. reflexivity.
  - vm_compute. reflexivity.
  - intros H. vm_compute in H. discriminate H.
  - vm_compute. reflexivity.
Defined.

(** ** Database failures in [New] *)

Lemma coll_Insert_fault d w msg :
  dbfault w (length (trace w)) = Some msg ->
  coll_Insert d w
  = Returns (Some (db_failure msg))
      (record (CInsert d) (Some (db_failure msg)) (events w) w).
Proof.
  intros F. unfold coll_Insert, bind, dbop. rewrite F. reflexivity.
Qed.

Lemma coll_Insert_ok d w :
  dbfault w (length (trace w)) = None ->
  existsb (has_key (eventData.key d)) (events w) = false ->
  coll_Insert d w = Returns None (record (CInsert d) None (events w ++ [d]) w).
Proof.
  intros F E. unfold coll_Insert, bind, dbop. rewrite F, E. reflexivity.
Qed.

Lemma db_Conn_fault w msg :
  dbfault w (length (trace w)) = Some msg ->
  db_Conn w
  = Returns (Some (db_failure msg))
      (record CConn (Some (db_failure msg)) (events w) w).
Proof.
  intros F. unfold db_Conn, bind, dbop. rewrite F. reflexivity.
Qed.

Lemma started_dbfault w :
  dbfault (world_after (lockUpdater_start w)) = dbfault w.
Proof.
  unfold lockUpdater_start. cbn.
  destruct (lockUpdater.once (updater w)); reflexivity.
Qed.

(** X7: an insert that fails for another reason than a duplicate key is
    tried once more by [New], with no look at the collection in between;
    when the second insert goes through, [New] succeeds. *)
Theorem New_retries_failed_insert fmt o kind msg w :
  updater_ok w ->
  Target.IsValid (Opts.Target o) = true ->
  Opts.Kind o = Some kind ->
  Opts.Owner o <> "" ->
  dbfault w (length (trace w)) = None ->
  dbfault w (length (trace w) + 1) = Some msg ->
  dbfault w (length (trace w) + 1 + 1) = None ->
  existsb (has_key (KDoc (Opts.Target o))) (events w) = false ->
  exists evt w',
    New fmt (Some o) w = Returns (Some evt, None) w'
    /\ events w' = events w ++ [Event.data evt]
    /\ map (fun en => (call en, outcome en)) (calls_from w w')
       = [(CConn, None);
          (CInsert (Event.data evt), Some (db_failure msg));
          (CInsert (Event.data evt), None)].
Proof.
  intros Hok Hv Hk Ho F0 F1 F2 Hfree.
  apply String.eqb_neq in Ho.
  pose proof (started_spinning w Hok) as Hs1.
  pose proof (started_dbfault w) as Df.
  destruct (started_same w) as (Ev1 & Ck1 & Rd1 & Tr1 & _).
  remember (world_after (lockUpdater_start w)) as w1 eqn:Ew1.
  unfold calls_from.
  rewrite <- Ev1, <- Tr1, <- Df in *. clear Ev1 Tr1 Df Ck1 Rd1 Hok.
  eexists _, _. split; [| split].
  - unfold New. step ltac:(apply lockUpdater_start_eq).
    rewrite <- Ew1. rewrite Hv, Hk, Ho. cbn [negb].
    step ltac:(apply db_Conn_ok; exact F0).
    step ltac:(reflexivity).
    cbn [New_loop maxRetries]. wsimpl.
    step ltac:(apply coll_Insert_fault; wsimpl; rewrite length_app; exact F1).
    cbn [mgo_IsDup].
    step ltac:(apply coll_Insert_ok;
               [wsimpl; rewrite !length_app; exact F2 | exact Hfree]).
    step ltac:(apply send_eq; exact Hs1).
    reflexivity.
  - reflexivity.
  - wsimpl. rewrite <- !app_assoc, skipn_app, skipn_all, Nat.sub_diag.
    reflexivity.
Qed.

Lemma New_retries_failed_insert_witness :
  exists evt w',
    New coarse (Some (deploy app_a false)) (boot (every Second) flaky)
      = Returns (Some evt, None) w'
    /\ events w' = events (boot (every Second) flaky) ++ [Event.data evt]
    /\ map (fun en => (call en, outcome en))
         (calls_from (boot (every Second) flaky) w')
       = [(CConn, None);
          (CInsert (Event.data evt), Some (db_failure "i/o timeout"));
          (CInsert (Event.data evt), None)].
Proof.
  apply (New_retries_failed_insert coarse (deploy app_a false) deploy_scheme
           "i/o timeout" (boot (every Second) flaky)).
  - intros H. vm_compute in H. discriminate H.
  - vm_compute. reflexivity.
  - vm_compute. reflexivity.
  - intros H. vm_compute in H. discriminate H.
  - vm_compute. reflexivity.
  - vm_compute. reflexivity.
  - vm_compute. reflexivity.
  - vm_compute. reflexivity.
Defined.

(** X8: when both inserts of [New] fail for another reason than a
    duplicate key, [New] returns the failure of the second and the
    collection is as it was. *)
Theorem New_returns_last_failure fmt o kind msg1 msg2 w :
  Target.IsValid (Opts.Target o) = true ->
  Opts.Kind o = Some kind ->
  Opts.Owner o <> "" ->
  dbfault w (length (trace w)) = None ->
  dbfault w (length (trace w) + 1) = Some msg1 ->
  dbfault w (length (trace w) + 1 + 1) = Some msg2 ->
  exists w',
    New fmt (Some o) w = Returns (None, Some (db_failure msg2)) w'
    /\ events w' = events w
    /\ map (fun en => acquires (call en)) (calls_from w w')
       = [false; true; true].
Proof.
  intros Hv Hk Ho F0 F1 F2.
  apply String.eqb_neq in Ho.
  pose proof (started_dbfault w) as Df.
  destruct (started_same w) as (Ev1 & Ck1 & Rd1 & Tr1 & _).
  remember (world_after (lockUpdater_start w)) as w1 eqn:Ew1.
  unfold calls_from.
  rewrite <- Ev1, <- Tr1, <- Df in *. clear Ev1 Tr1 Df Ck1 Rd1.
  eexists. split; [| split].
  - unfold New. step ltac:(apply lockUpdater_start_eq).
    rewrite <- Ew1. rewrite Hv, Hk, Ho. cbn [negb].
    step ltac:(apply db_Conn_ok; exact F0).
    step ltac:(reflexivity).
    cbn [New_loop maxRetries]. wsimpl.
    step ltac:(apply coll_Insert_fault; wsimpl; rewrite length_app; exact F1).
    cbn [mgo_IsDup].
    step ltac:(apply coll_Insert_fault; wsimpl; rewrite !length_app;
               exact F2).
    cbn [mgo_IsDup]. reflexivity.
  - reflexivity.
  - wsimpl. rewrite <- !app_assoc, skipn_app, skipn_all, Nat.sub_diag.
    reflexivity.
Qed.

Lemma New_returns_last_failure_witness :
  exists w',
    New coarse (Some (deploy app_a false)) (boot (every Second) broken)
      = Returns (None, Some (db_failure "i/o timeout")) w'
    /\ events w' = events (boot (every Second) broken)
    /\ map (fun en => acquires (call en))
         (calls_from (boot (every Second) broken) w')
       = [false; true; true].
Proof.
  apply (New_returns_last_failure coarse (deploy app_a false) deploy_scheme
           "i/o timeout" "i/o timeout" (boot (every Second) broken)).
  - vm_compute. reflexivity.
  - vm_compute. reflexivity.
  - intros H. vm_compute in H. discriminate H.
  - vm_compute. reflexivity.
  - vm_compute. reflexivity.
  - vm_compute. reflexivity.
Defined.

(** X9: when [db.Conn] fails, [New] with valid options returns that
    failure and makes no other database call. *)
Theorem New_without_connection fmt o kind msg w :
  Target.IsValid (Opts.Target o) = true ->
  Opts.Kind o = Some kind ->
  Opts.Owner o <> "" ->
  dbfault w (length (trace w)) = Some msg ->
  exists w',
    New fmt (Some o) w = Returns (None, Some (db_failure msg)) w'
    /\ events w' = events w
    /\ map call (calls_from w w') = [CConn]
    /\ reads w' = reads w.
Proof.
  intros Hv Hk Ho F0.
  apply String.eqb_neq in Ho.
  pose proof (started_dbfault w) as Df.
  destruct (started_same w) as (Ev1 & Ck1 & Rd1 & Tr1 & _).
  remember (world_after (lockUpdater_start w)) as w1 eqn:Ew1.
  unfold calls_from.
  rewrite <- Ev1, <- Tr1, <- Df, <- Rd1 in *. clear Ev1 Tr1 Df Ck1 Rd1.
  eexists. split; [| split; [| split]].
  - unfold New. step ltac:(apply lockUpdater_start_eq).
    rewrite <- Ew1. rewrite Hv, Hk, Ho. cbn [negb].
    step ltac:(apply db_Conn_fault; exact F0).
    reflexivity.
  - reflexivity.
  - wsimpl. rewrite skipn_app, skipn_all, Nat.sub_diag. reflexivity.
  - reflexivity.
Qed.

Lemma New_without_connection_witness :
  exists w',
    New coarse (Some (deploy app_a false)) (boot (every Second) down)
      = Returns (None, Some (db_failure "no reachable servers")) w'
    /\ events w' = events (boot (every Second) down)
    /\ map call (calls_from (boot (every Second) down) w') = [CConn]
    /\ reads w' = reads (boot (every Second) down).
Proof.
  apply (New_without_connection coarse (deploy app_a false) deploy_scheme
           "no reachable servers" (boot (every Second) down)).
  - vm_compute. reflexivity.
  - vm_compute. reflexivity.
  - intros H. vm_compute in H. discriminate H.
  - vm_compute. reflexivity.
Defined.

(** ** Ending an event without a connection *)

(** X10: when [db.Conn] fails, [done] returns that failure and leaves the
    collection and the event as they are, yet it has already taken the
    target out of the set of the updater: the lock stays and is renewed
    no more. *)
Theorem done_without_connection evtErr customData abort e w msg :
  lockUpdater.spinning (updater w) = true ->
  dbfault w (length (trace w)) = Some msg ->
  exists w',
    done evtErr customData abort e w = Returns (e, Some (db_failure msg)) w'
    /\ events w' = events w
    /\ map call (calls_from w w') = [CConn]
    /\ lockUpdater.set (updater w')
       = set_delete (eventData.Target (Event.data e))
           (lockUpdater.set (updater w)).
Proof.
  intros Sp F.
  eexists. split; [| split; [| split]].
  - unfold done, send_removeCh.
    step ltac:(apply send_eq; exact Sp).
    step ltac:(apply db_Conn_fault; exact F).
    reflexivity.
  - reflexivity.
  - unfold calls_from. wsimpl.
    rewrite skipn_app, skipn_all, Nat.sub_diag. reflexivity.
  - reflexivity.
Qed.

Lemma done_without_connection_witness :
  exists w',
    done None None false (handle 0 lost) (world lost)
      = Returns (handle 0 lost, Some (db_failure "i/o timeout")) w'
    /\ events w' = events (world lost)
    /\ map call (calls_from (world lost) w') = [CConn]
    /\ lockUpdater.set (updater w')
       = set_delete (eventData.Target (Event.data (handle 0 lost)))
           (lockUpdater.set (updater (world lost))).
Proof.
  apply (done_without_connection None None false (handle 0 lost)
           (world lost) "i/o timeout").
  - vm_compute. reflexivity.
  - vm_compute. reflexivity.
Defined.

(** ** Cancelling *)

Lemma coll_Find_Apply_none k cond upd w :
  dbfault w (length (trace w)) = None ->
  find (fun d => has_key k d && cond d) (events w) = None ->
  coll_Find_Apply k cond upd w
  = Returns (None, Some mgo_ErrNotFound)
      (record (CApply k) (Some mgo_ErrNotFound) (events w) w).
Proof.
  intros F Hn. unfold coll_Find_Apply, dbop. rewrite F, Hn. reflexivity.
Qed.

Lemma coll_Find_Apply_some k cond upd w d :
  dbfault w (length (trace w)) = None ->
  find (fun d => has_key k d && cond d) (events w) = Some d ->
  coll_Find_Apply k cond upd w
  = Returns (Some (eventData.decode (upd d)), None)
      (record (CApply k) None
         (update_first (fun d => has_key k d && cond d) upd (events w)) w).
Proof.
  intros F Hn. unfold coll_Find_Apply, dbop. rewrite F, Hn. reflexivity.
Qed.

Lemma find_none_if (sel : eventData.t -> bool) s :
  (forall d, In d s -> sel d = false) -> find sel s = None.
Proof.
  induction s as [| x s IH]; cbn; intros H; [reflexivity |].
  rewrite (H x (or_introl eq_refl)). apply IH.
  intros d Hd. apply H. right. exact Hd.
Qed.

Lemma existsb_false_In (sel : eventData.t -> bool) s d :
  existsb sel s = false -> In d s -> sel d = false.
Proof.
  intros H Hd. destruct (sel d) eqn:E; [| reflexivity].
  assert (X : existsb sel s = true) by (apply existsb_exists; eauto).
  rewrite X in H. discriminate H.
Qed.



(** X12: [TryCancel] on a cancelable running event whose document is no
    longer in the collection returns [ErrEventNotFound]; the collection
    and the event stay as they are. *)
Theorem TryCancel_event_not_found reason owner e w :
  eventData.Cancelable (Event.data e) = true ->
  eventData.Running (Event.data e) = true ->
  dbfault w (length (trace w)) = None ->
  dbfault w (length (trace w) + 1) = None ->
  existsb (has_key (eventData.key (Event.data e))) (events w) = false ->
  exists w',
    TryCancel reason owner e w = Returns (e, Some ErrEventNotFound) w'
    /\ events w' = events w
    /\ map call (calls_from w w')
       = [CConn; CApply (eventData.key (Event.data e))].
Proof.
  intros Hc Hr F0 F1 Hfree.
  eexists. split; [| split].
  - unfold TryCancel. rewrite Hc, Hr. cbn [negb orb].
    step ltac:(apply db_Conn_ok; exact F0).
    step ltac:(reflexivity).
    step ltac:(apply coll_Find_Apply_none;
               [wsimpl; rewrite length_app; exact F1
               | wsimpl; apply find_none_if; intros d Hd;
                 rewrite (existsb_false_In _ _ _ Hfree Hd); reflexivity]).
    reflexivity.
  - reflexivity.
  - unfold calls_from. wsimpl.
    rewrite <- !app_assoc, skipn_app, skipn_all, Nat.sub_diag. reflexivity.
Qed.

Lemma TryCancel_event_not_found_witness :
  exists w',
    TryCancel "halt" "admin" (handle 0 aborted) (world aborted)
      = Returns (handle 0 aborted, Some ErrEventNotFound) w'
    /\ events w' = events (world aborted)
    /\ map call (calls_from (world aborted) w')
       = [CConn; CApply (eventData.key (Event.data (handle 0 aborted)))].
Proof.
  apply (TryCancel_event_not_found "halt" "admin" (handle 0 aborted)
           (world aborted)).
  - vm_compute. reflexivity.
  - vm_compute. reflexivity.
  - vm_compute. reflexivity.
  - vm_compute. reflexivity.
  - vm_compute. reflexivity.
Defined.

(** X13: [AckCancel] on a cancelable running event for which no
    cancellation was asked returns [ErrEventNotFound], also when the
    document of the event is in the collection; the collection and the
    event stay as they are. *)
Theorem AckCancel_needs_TryCancel e w :
  eventData.Cancelable (Event.data e) = true ->
  eventData.Running (Event.data e) = true ->
  dbfault w (length (trace w)) = None ->
  dbfault w (length (trace w) + 1) = None ->
  (forall d, In d (events w) ->
             eventData.key d = eventData.key (Event.data e) ->
             cancelInfo.Asked (eventData.CancelInfo d) = false) ->
  exists w',
    AckCancel e w = Returns (e, Some ErrEventNotFound) w'
    /\ events w' = events w
    /\ map call (calls_from w w')
       = [CConn; CApply (eventData.key (Event.data e))].
Proof.
  intros Hc Hr F0 F1 Hna.
  eexists. split; [| split].
  - unfold AckCancel. rewrite Hc, Hr. cbn [negb orb].
    step ltac:(apply db_Conn_ok; exact F0).
    step ltac:(reflexivity).
    step ltac:(apply coll_Find_Apply_none;
               [wsimpl; rewrite length_app; exact F1
               | wsimpl; apply find_none_if; intros d Hd;
                 destruct (has_key (eventData.key (Event.data e)) d) eqn:K;
                 [| reflexivity];
                 apply Key_eqb_eq in K; rewrite (Hna d Hd K); reflexivity]).
    reflexivity.
  - reflexivity.
  - unfold calls_from. wsimpl.
    rewrite <- !app_assoc, skipn_app, skipn_all, Nat.sub_diag. reflexivity.
Qed.

Lemma AckCancel_needs_TryCancel_witness :
  exists w',
    AckCancel (handle 0 cancelable_held) (world cancelable_held)
      = Returns (handle 0 cancelable_held, Some ErrEventNotFound) w'
    /\ events w' = events (world cancelable_held)
    /\ map call (calls_from (world cancelable_held) w')
       = [CConn;
          CApply (eventData.key (Event.data (handle 0 cancelable_held)))].
Proof.
  apply (AckCancel_needs_TryCancel (handle 0 cancelable_held)
           (world cancelable_held)).
  - vm_compute. reflexivity.
  - vm_compute. reflexivity.
  - vm_compute. reflexivity.
  - vm_compute. reflexivity.
  - intros d Hd K. vm_compute in Hd. destruct Hd as [Hd | []].
    subst d. vm_compute. reflexivity.
Defined.

Lemma find_last (sel : eventData.t -> bool) s d :
  (forall x, In x s -> sel x = false) -> sel d = true ->
  find sel (s ++ [d]) = Some d.
Proof.
  induction s as [| y s IH]; cbn; intros H Hd.
  - rewrite Hd. reflexivity.
  - rewrite (H y (or_introl eq_refl)). apply IH; [| exact Hd].
    intros x Hx. apply H. right. exact Hx.
Qed.

Lemma update_first_last (sel : eventData.t -> bool) upd s d :
  (forall x, In x s -> sel x = false) -> sel d = true ->
  update_first sel upd (s ++ [d]) = s ++ [upd d].
Proof.
  induction s as [| y s IH]; cbn; intros H Hd.
  - rewrite Hd. reflexivity.
  - rewrite (H y (or_introl eq_refl)). f_equal. apply IH; [| exact Hd].
    intros x Hx. apply H. right. exact Hx.
Qed.

Lemma TryCancel_found reason owner e w d :
  eventData.Cancelable (Event.data e) = true ->
  eventData.Running (Event.data e) = true ->
  healthy w ->
  find (fun x => has_key (eventData.key (Event.data e)) x && true) (events w)
    = Some d ->
  let upd := eventData.set_CancelInfo
               (cancelInfo.mk owner (clock w (reads w)) Time_zero reason
                  true false) in
  exists w',
    TryCancel reason owner e w
      = Returns (Event.set_data (eventData.decode (upd d)) e, None) w'
    /\ events w'
       = update_first
           (fun x => has_key (eventData.key (Event.data e)) x && true) upd
           (events w)
    /\ clock w' = clock w /\ dbfault w' = dbfault w
    /\ reads w' = S (reads w) /\ oids w' = oids w
    /\ updater w' = updater w.
Proof.
  intros Hc Hr Hh Hf upd.
  eexists. split.
  { unfold TryCancel. rewrite Hc, Hr. cbn [negb orb].
    step ltac:(apply db_Conn_ok; apply Hh).
    step ltac:(reflexivity).
    step ltac:(apply (coll_Find_Apply_some _ _ _ _ d);
               [apply Hh | wsimpl; exact Hf]).
    reflexivity. }
  repeat split.
Qed.

Lemma AckCancel_found e w d :
  eventData.Cancelable (Event.data e) = true ->
  eventData.Running (Event.data e) = true ->
  healthy w ->
  find (fun x => has_key (eventData.key (Event.data e)) x
                 && cancelInfo.Asked (eventData.CancelInfo x)) (events w)
    = Some d ->
  exists w',
    AckCancel e w
      = Returns (Event.set_data
                   (eventData.decode (ack (clock w (reads w)) d)) e, None) w'
    /\ events w'
       = update_first
           (fun x => has_key (eventData.key (Event.data e)) x
                     && cancelInfo.Asked (eventData.CancelInfo x))
           (ack (clock w (reads w))) (events w)
    /\ clock w' = clock w /\ dbfault w' = dbfault w
    /\ reads w' = S (reads w) /\ oids w' = oids w
    /\ updater w' = updater w.
Proof.
  intros Hc Hr Hh Hf.
  eexists. split.
  { unfold AckCancel. rewrite Hc, Hr. cbn [negb orb].
    step ltac:(apply db_Conn_ok; apply Hh).
    step ltac:(reflexivity).
    step ltac:(apply (coll_Find_Apply_some _ _ _ _ d);
               [apply Hh | wsimpl; exact Hf]).
    reflexivity. }
  repeat split.
Qed.

(** X14: a cancellation from its request to the history.  On a healthy
    database, for a cancelable event acquired on a free target,
    [TryCancel], then [AckCancel], then [Done] with no error all succeed;
    the document left in the collection does not run, its error is
    ["canceled by user request"], and its [cancelinfo] has the owner and
    the reason of the request, the time of the request, the later time of
    the acknowledgement, and both flags set. *)
Theorem cancel_from_request_to_history fmt o kind reason owner w :
  tidy w -> healthy w -> updater_ok w ->
  Target.IsValid (Opts.Target o) = true ->
  Opts.Kind o = Some kind ->
  Opts.Owner o <> "" ->
  Opts.Cancelable o = true ->
  existsb (has_key (KDoc (Opts.Target o))) (events w) = false ->
  exists evt w1 evt1 w2 evt2 w3 evt3 w4,
    New fmt (Some o) w = Returns (Some evt, None) w1
    /\ TryCancel reason owner evt w1 = Returns (evt1, None) w2
    /\ AckCancel evt1 w2 = Returns (evt2, None) w3
    /\ Done None evt2 w3 = Returns (evt3, None) w4
    /\ events w4 = events w ++ [Event.data evt3]
    /\ eventData.Running (Event.data evt3) = false
    /\ eventData.Error (Event.data evt3) = "canceled by user request"
    /\ eventData.CancelInfo (Event.data evt3)
       = cancelInfo.mk owner (clock w (S (reads w)))
           (clock w (S (S (reads w)))) reason true true.
Proof.
  intros (Sh & Ob & _) Hh Hok Hv Hk Ho Hc Hfree.
  pose proof (fun x Hx => existsb_false_In _ _ x Hfree Hx) as Hout.
  destruct (New_free fmt o kind w Hh Hok Hv Hk Ho Hfree)
    as (w1 & E & Ev & _ & Ck & Df & Rd & Oi & Sp & _ & _).
  assert (Hh1 : healthy w1) by (intros n; rewrite Df; apply Hh).
  set (c0 := candidate o kind (clock w (reads w))) in *.
  assert (K0 : has_key (KDoc (Opts.Target o)) c0 = true)
    by apply has_key_candidate.
  (* the request *)
  destruct (TryCancel_found reason owner (Event.of_data c0) w1 c0)
    as (w2 & E2 & Ev2 & Ck2 & Df2 & Rd2 & Oi2 & Up2);
    [exact Hc | reflexivity | exact Hh1 | |].
  { rewrite Ev. apply find_last.
    - intros x Hx. cbn [Event.data Event.of_data].
      change (eventData.key c0) with (KDoc (Opts.Target o)).
      rewrite (Hout x Hx). reflexivity.
    - cbn [Event.data Event.of_data].
      change (eventData.key c0) with (KDoc (Opts.Target o)).
      rewrite K0. reflexivity. }
  assert (Hh2 : healthy w2) by (intros n; rewrite Df2; apply Hh1).
  cbn [Event.data Event.of_data] in E2, Ev2.
  change (eventData.key c0) with (KDoc (Opts.Target o)) in E2, Ev2.
  rewrite Ev, update_first_last in Ev2;
    [| intros x Hx; rewrite (Hout x Hx); reflexivity
     | rewrite K0; reflexivity].
  rewrite Ck, Rd in E2, Ev2.
  set (c1 := eventData.set_CancelInfo
               (cancelInfo.mk owner (clock w (S (reads w))) Time_zero reason
                  true false) c0) in *.
  change (eventData.decode c1) with c1 in E2.
  assert (K1 : has_key (KDoc (Opts.Target o)) c1 = true) by exact K0.
  (* the acknowledgement *)
  destruct (AckCancel_found (Event.set_data c1 (Event.of_data c0)) w2 c1)
    as (w3 & E3 & Ev3 & Ck3 & Df3 & Rd3 & Oi3 & Up3);
    [exact Hc | reflexivity | exact Hh2 | |].
  { rewrite Ev2. apply find_last.
    - intros x Hx. cbn [Event.data Event.set_data].
      change (eventData.key c1) with (KDoc (Opts.Target o)).
      rewrite (Hout x Hx). reflexivity.
    - cbn [Event.data Event.set_data].
      change (eventData.key c1) with (KDoc (Opts.Target o)).
      rewrite K1. reflexivity. }
  assert (Hh3 : healthy w3) by (intros n; rewrite Df3; apply Hh2).
  cbn [Event.data Event.set_data] in E3, Ev3.
  change (eventData.key c1) with (KDoc (Opts.Target o)) in E3, Ev3.
  rewrite Ev2, update_first_last in Ev3;
    [| intros x Hx; rewrite (Hout x Hx); reflexivity
     | rewrite K1; reflexivity].
  rewrite Ck2, Rd2, Ck, Rd in E3, Ev3.
  set (c2 := ack (clock w (S (S (reads w)))) c1) in *.
  change (eventData.decode c2) with c2 in E3.
  assert (K2 : has_key (KDoc (Opts.Target o)) c2 = true) by exact K0.
  (* the end *)
  assert (Sp3 : lockUpdater.spinning (updater w3) = true)
    by (rewrite Up3, Up2; exact Sp).
  assert (Hfresh : existsb (has_key (KOid (oids w3))) (events w3) = false).
  { rewrite Ev3, Oi3, Oi2, Oi, existsb_app, (oids_below_fresh _ _ Ob).
    reflexivity. }
  destruct (done_healthy None None
              (Event.set_data c2 (Event.set_data c1 (Event.of_data c0))) w3
              Sp3 Hh3 Hfresh)
    as (r4 & w4 & E4 & Ev4 & _).
  cbn [Event.data Event.set_data Event.of_data Event.logBuffer] in E4, Ev4.
  change (eventData.key c2) with (KDoc (Opts.Target o)) in Ev4.
  set (twin := historical _ _ _ _ _ _) in *.
  assert (Ev4' : events w4 = events w ++ [twin]).
  { rewrite Ev4, Ev3. rewrite remove_first_app.
    - rewrite remove_first_last; [reflexivity | exact Hfree | exact K2].
    - rewrite existsb_app. cbn [existsb]. rewrite K2. apply orb_true_r. }
  eexists _, w1, _, w2, _, w3, _, w4.
  split; [exact E |]. split; [exact E2 |]. split; [exact E3 |].
  split; [exact E4 |].
  cbn [Event.data Event.set_data].
  split; [exact Ev4' |]. split; [reflexivity |]. split; reflexivity.
Qed.

Lemma cancel_from_request_to_history_witness :
  exists evt w1 evt1 w2 evt2 w3 evt3 w4,
    New coarse (Some (deploy app_b true)) (world held)
      = Returns (Some evt, None) w1
    /\ TryCancel "halt" "admin" evt w1 = Returns (evt1, None) w2
    /\ AckCancel evt1 w2 = Returns (evt2, None) w3
    /\ Done None evt2 w3 = Returns (evt3, None) w4
    /\ events w4 = events (world held) ++ [Event.data evt3]
    /\ eventData.Running (Event.data evt3) = false
    /\ eventData.Error (Event.data evt3) = "canceled by user request"
    /\ eventData.CancelInfo (Event.data evt3)
       = cancelInfo.mk "admin"
           (clock (world held) (S (reads (world held))))
           (clock (world held) (S (S (reads (world held))))) "halt" true true.
Proof.
  apply (cancel_from_request_to_history coarse (deploy app_b true)
           deploy_scheme "halt" "admin" (world held)).
  - exact held_tidy.
  - intros n. vm_compute. reflexivity.
  - intros _. vm_compute. reflexivity.
  - vm_compute. reflexivity.
  - vm_compute. reflexivity.
  - intros H. vm_compute in H. discriminate H.
  - vm_compute. reflexivity.
  - vm_compute. reflexivity.
Defined.

(** ** The log of an event *)

Lemma string_app_nil_r (s : string) : (s ++ "")%string = s.
Proof. induction s as [| a s IH]; cbn; [| rewrite IH]; reflexivity. Qed.

Lemma string_app_assoc (a b c : string) :
  ((a ++ b) ++ c)%string = (a ++ (b ++ c))%string.
Proof. induction a as [| x a IH]; cbn; [| rewrite IH]; reflexivity. Qed.

Lemma Logf_all l x :
  Event.data (fold_left (fun x t => Logf t x) l x) = Event.data x
  /\ Event.logBuffer (fold_left (fun x t => Logf t x) l x)
     = (Event.logBuffer x ++ fold_right String.append "" l)%string
  /\ Event.logWriter (fold_left (fun x t => Logf t x) l x)
     = match Event.logWriter x with
       | Some out => Some (out ++ fold_right String.append "" l)%string
       | None => None
       end.
Proof.
  revert x. induction l as [| t l IH]; intros x; cbn [fold_left fold_right].
  - rewrite string_app_nil_r. split; [reflexivity |]. split; [reflexivity |].
    destruct (Event.logWriter x) as [out |]; [| reflexivity].
    rewrite string_app_nil_r. reflexivity.
  - destruct (IH (Logf t x)) as (I1 & I2 & I3).
    rewrite I1, I2, I3. unfold Logf.
    cbn [Event.data Event.logBuffer Event.logWriter].
    split; [reflexivity |]. split.
    + apply string_app_assoc.
    + destruct (Event.logWriter x) as [out |]; [| reflexivity].
      f_equal. apply string_app_assoc.
Qed.

(** X15: what [Logf] writes is what the history keeps.  From a world in
    shape, on a healthy database and with the updater running, [done]
    after any number of calls of [Logf] returns no error and inserts one
    document, which is in the collection when [done] returns: the
    document it would insert without the calls, but for its [log], which
    is the buffer the event had followed by the texts in the order of the
    calls.  A log writer set on the event has received the same texts. *)
Theorem logged_text_is_stored texts evtErr customData e w :
  tidy w ->
  healthy w ->
  lockUpdater.spinning (updater w) = true ->
  (forall n, eventData.key (Event.data e) = KOid n -> (n < oids w)%nat) ->
  exists e' w',
    done evtErr customData false (fold_left (fun x t => Logf t x) texts e) w
      = Returns (e', None) w'
    /\ nth_error (calls_from w w') 1
       = Some (mkEntry (CInsert (Event.data e')) None
                 (events w ++ [Event.data e']))
    /\ In (Event.data e') (events w')
    /\ (forall d, In d (events w') ->
                  eventData.key d = eventData.key (Event.data e') ->
                  d = Event.data e')
    /\ Event.data e'
       = historical (done_Error evtErr (Event.data e)) (clock w (reads w))
           customData
           (Event.logBuffer e ++ fold_right String.append "" texts)%string
           (oids w) (Event.data e)
    /\ eventData.Log (Event.data e')
       = (Event.logBuffer e ++ fold_right String.append "" texts)%string
    /\ Event.logWriter e'
       = match Event.logWriter e with
         | Some out =>
             Some (out ++ fold_right String.append "" texts)%string
         | None => None
         end.
Proof.
  intros (Sh & Ob & _) Hh Hs Hk.
  pose proof (oids_below_fresh _ _ Ob) as Hfresh.
  destruct (Logf_all texts e) as (L1 & L2 & L3).
  destruct (done_healthy evtErr customData
              (fold_left (fun x t => Logf t x) texts e) w Hs Hh Hfresh)
    as (r2 & w' & E & Ev & Tr & _).
  rewrite L1, L2 in E, Ev, Tr.
  set (twin := historical _ _ _ _ _ _) in *.
  assert (S1 : shaped (events w ++ [twin])).
  { apply shaped_insert; [exact Sh | reflexivity | exact Hfresh]. }
  assert (Hin : In twin (events w')).
  { rewrite Ev.
    apply remove_first_keeps; [apply in_or_app; right; left; reflexivity |].
    unfold has_key. cbn.
    destruct (eventData.key (Event.data e)) as [t | n] eqn:K; cbn;
      [reflexivity |].
    apply Nat.eqb_neq. specialize (Hk n eq_refl). lia. }
  assert (Hnd : NoDup (map eventData.key (events w'))).
  { rewrite Ev. apply (shaped_remove_first _ _ S1). }
  eexists _, w'. split; [exact E |].
  cbn [Event.data Event.set_data Event.logWriter].
  split; [rewrite (calls_from_app _ _ _ Tr); reflexivity |].
  split; [exact Hin |].
  split; [| split; [reflexivity | split; [reflexivity | exact L3]]].
  intros d Hd Kd.
  apply In_nth_error in Hd. destruct Hd as [a Na].
  apply In_nth_error in Hin. destruct Hin as [b Nb].
  assert (Eab : a = b).
  { rewrite NoDup_nth_error in Hnd. apply Hnd.
    - rewrite length_map. apply nth_error_Some. rewrite Na. discriminate.
    - rewrite !nth_error_map, Na, Nb. cbn. rewrite Kd. reflexivity. }
  subst b. rewrite Na in Nb. injection Nb as ->. reflexivity.
Qed.

Lemma logged_text_is_stored_witness :
  exists e' w',
    done None None false
      (fold_left (fun x t => Logf t x) ["building"; "built"]
         (SetLogWriter (Some "out: ") (handle 0 held))) (world held)
      = Returns (e', None) w'
    /\ nth_error (calls_from (world held) w') 1
       = Some (mkEntry (CInsert (Event.data e')) None
                 (events (world held) ++ [Event.data e']))
    /\ In (Event.data e') (events w')
    /\ (forall d, In d (events w') ->
                  eventData.key d = eventData.key (Event.data e') ->
                  d = Event.data e')
    /\ Event.data e'
       = historical
           (done_Error None
              (Event.data (SetLogWriter (Some "out: ") (handle 0 held))))
           (clock (world held) (reads (world held))) None
           (Event.logBuffer (SetLogWriter (Some "out: ") (handle 0 held))
            ++ fold_right String.append "" ["building"; "built"])%string
           (oids (world held))
           (Event.data (SetLogWriter (Some "out: ") (handle 0 held)))
    /\ eventData.Log (Event.data e')
       = (Event.logBuffer (SetLogWriter (Some "out: ") (handle 0 held))
          ++ fold_right String.append "" ["building"; "built"])%string
    /\ Event.logWriter e'
       = match Event.logWriter (SetLogWriter (Some "out: ") (handle 0 held))
         with
         | Some out =>
             Some (out ++ fold_right String.append ""
                            ["building"; "built"])%string
         | None => None
         end.
Proof.
  apply (logged_text_is_stored ["building"; "built"] None None
           (SetLogWriter (Some "out: ") (handle 0 held)) (world held)).
  - exact held_tidy.
  - intros n. vm_compute. reflexivity.
  - vm_compute. reflexivity.
  - intros n H. vm_compute in H. discriminate H.
Defined.

(** ** The round of the updater *)

Lemma find_split_sel (sel : eventData.t -> bool) upd s :
  existsb sel s = true ->
  exists pre d post,
    s = pre ++ d :: post /\ sel d = true
    /\ update_first sel upd s = pre ++ upd d :: post.
Proof.
  induction s as [| x s IH]; cbn; [discriminate |].
  destruct (sel x) eqn:E.
  - intros _. exists [], x, s. repeat split. exact E.
  - cbn. intros H. destruct (IH H) as (pre & d & post & Es & Hd & Eu).
    exists (x :: pre), d, post. cbn. rewrite <- Es, Eu.
    repeat split. exact Hd.
Qed.

(** X16: one round of the updater always returns, also when the database
    fails, and leaves the set of the updater as it is.  It changes at most
    one document of the collection, whatever the number of targets in the
    set: a document whose [_id] is a target of the set, of which it sets
    [lockupdatetime] to the time of the round and nothing else. *)
Theorem spin_round_renews_one_lock w :
  exists w',
    lockUpdater_spin_round w = Returns tt w'
    /\ updater w' = updater w
    /\ (events w' = events w
        \/ exists pre d post t,
             events w = pre ++ d :: post
             /\ eventData.key d = KDoc t
             /\ In t (lockUpdater.set (updater w))
             /\ events w'
                = pre ++ eventData.set_LockUpdateTime (clock w (reads w)) d
                         :: post).
Proof.
  unfold lockUpdater_spin_round, db_Conn, coll_Update_in, time_Now, dbop,
    ret, bind.
  destruct (dbfault w (length (trace w))) as [msg |].
  - eexists. split; [reflexivity |]. split; [reflexivity |].
    left. reflexivity.
  - cbv beta iota. wsimpl.
    destruct (dbfault w (length (trace w ++ [_]))) as [msg |].
    + eexists. split; [reflexivity |]. split; [reflexivity |].
      left. reflexivity.
    + destruct (existsb _ (events w)) eqn:X.
      * eexists. split; [reflexivity |]. split; [reflexivity |].
        right. wsimpl.
        destruct (find_split_sel _
                    (eventData.set_LockUpdateTime (clock w (reads w))) _ X)
          as (pre & d & post & Es & Hd & Eu).
        apply existsb_exists in Hd. destruct Hd as (k & Hk & Ek).
        apply in_map_iff in Hk. destruct Hk as (t & <- & Ht).
        apply Key_eqb_eq in Ek.
        exists pre, d, post, t. repeat split; assumption.
      * eexists. split; [reflexivity |]. split; [reflexivity |].
        left. reflexivity.
Qed.

(** ** Listing *)

(** X17: [All] always returns, changes neither the collection nor the
    updater and does not read the clock.  With an error it returns no
    event; without, it returns one event for each document. *)
Theorem All_only_reads w :
  exists evts r w',
    All w = Returns (evts, r) w'
    /\ events w' = events w
    /\ updater w' = updater w
    /\ reads w' = reads w
    /\ (r <> None -> evts = [])
    /\ (r = None -> length evts = length (events w)).
Proof.
  unfold All, db_Conn, coll_Find_Sort_All, dbop, ret, bind.
  destruct (dbfault w (length (trace w))) as [msg |].
  - eexists _, _, _. split; [reflexivity |]. repeat split.
    intros H. discriminate H.
  - cbv beta iota. wsimpl.
    destruct (dbfault w (length (trace w ++ [_]))) as [msg |].
    + eexists _, _, _. split; [reflexivity |]. repeat split.
      intros H. discriminate H.
    + eexists _, _, _. split; [reflexivity |]. repeat split.
      * intros H. contradiction H. reflexivity.
      * intros _. rewrite !length_map.
        symmetry. apply Permutation_length, sort_desc_perm.
Qed.

(** ** The verdict on a lock *)

(** X18: when [checkIsExpired] returns, it returns [true] exactly when
    the database answered, a document has the [_id] asked for, and the
    clock reads later than five minutes after the [lockupdatetime] of this
    document: a lock of five minutes to the nanosecond has not expired.
    When it returns [false], the collection is as it was. *)
Theorem checkIsExpired_verdict fmt k w b w' :
  checkIsExpired fmt k w = Returns b w' ->
  (b = true <->
     dbfault w (length (trace w)) = None
     /\ exists d,
          find (has_key k) (events w) = Some d
          /\ (eventData.LockUpdateTime d + lockExpireTimeout
              < clock w (reads w))%Z)
  /\ (b = false -> events w' = events w).
Proof.
  unfold checkIsExpired, coll_FindId_One, dbop.
  unfold bind at 1.
  destruct (dbfault w (length (trace w))) as [msg |].
  - cbn. intros H. injection H as <- <-. split; [| reflexivity].
    split; [discriminate |]. intros [H _]. discriminate H.
  - destruct (find (has_key k) (events w)) as [d |] eqn:Ef.
    + cbv beta iota. unfold bind at 1, time_Now at 1. wsimpl.
      change (eventData.LockUpdateTime (eventData.decode d))
        with (eventData.LockUpdateTime d).
      unfold Time_After, Time_Add.
      destruct (eventData.LockUpdateTime d + lockExpireTimeout
                <? clock w (reads w))%Z eqn:Lt.
      * unfold bind at 1.
        destruct (time_Since _ _) as [since w1 | w1]; [| discriminate].
        unfold bind at 1.
        destruct (Done _ _ _) as [[e1 r1] w2 | w2]; [| discriminate].
        unfold ret. intros H. injection H as <- <-.
        split; [| discriminate].
        split; [| reflexivity]. intros _. split; [reflexivity |].
        exists d. split; [reflexivity |]. apply Z.ltb_lt. exact Lt.
      * unfold ret. intros H. injection H as <- <-.
        split; [| reflexivity].
        split; [discriminate |].
        intros (_ & d' & Ed & Hlt). injection Ed as <-.
        apply Z.ltb_lt in Hlt. rewrite Hlt in Lt. discriminate Lt.
    + cbn. intros H. injection H as <- <-. split; [| reflexivity].
      split; [discriminate |]. intros (_ & d' & Ed & _). discriminate Ed.
Qed.

Lemma checkIsExpired_verdict_witness :
  (false = true <->
     dbfault (world on_the_edge) (length (trace (world on_the_edge))) = None
     /\ exists d,
          find (has_key (KDoc app_a)) (events (world on_the_edge)) = Some d
          /\ (eventData.LockUpdateTime d + lockExpireTimeout
              < clock (world on_the_edge) (reads (world on_the_edge)))%Z)
  /\ (false = false ->
      events (world_after
                (checkIsExpired coarse (KDoc app_a) (world on_the_edge)))
      = events (world on_the_edge)).
Proof.
  apply (checkIsExpired_verdict coarse (KDoc app_a) (world on_the_edge)
           false
           (world_after
              (checkIsExpired coarse (KDoc app_a) (world on_the_edge)))).
  vm_compute. reflexivity.
Defined.

(** ** Stopping the updater *)

(** X19: [stop] ends the goroutine of a running updater and a second
    [stop] does nothing; the next [start] launches a new goroutine, once,
    whose set is empty: the targets that were in the set before the stop
    are renewed no more.  None of this touches the collection. *)
Theorem stop_then_start_relaunches w :
  lockUpdater.stopCh (updater w) = true ->
  lockUpdater.spinning (updater w) = true ->
  exists w1 w2,
    lockUpdater_stop w = Returns tt w1
    /\ lockUpdater_stop w1 = Returns tt w1
    /\ lockUpdater.spinning (updater w1) = false
    /\ lockUpdater_start w1 = Returns tt w2
    /\ lockUpdater_start w2 = Returns tt w2
    /\ lockUpdater.spinning (updater w2) = true
    /\ lockUpdater.set (updater w2) = []
    /\ lockUpdater.launched (updater w2)
       = S (lockUpdater.launched (updater w))
    /\ events w2 = events w.
Proof.
  intros Hs Hr.
  eexists _, _. split.
  { unfold lockUpdater_stop. rewrite Hs, Hr. reflexivity. }
  repeat split.
Qed.

Lemma stop_then_start_relaunches_witness :
  exists w1 w2,
    lockUpdater_stop (world held) = Returns tt w1
    /\ lockUpdater_stop w1 = Returns tt w1
    /\ lockUpdater.spinning (updater w1) = false
    /\ lockUpdater_start w1 = Returns tt w2
    /\ lockUpdater_start w2 = Returns tt w2
    /\ lockUpdater.spinning (updater w2) = true
    /\ lockUpdater.set (updater w2) = []
    /\ lockUpdater.launched (updater w2)
       = S (lockUpdater.launched (updater (world held)))
    /\ events w2 = events (world held).
Proof.
  apply (stop_then_start_relaunches (world held)).
  - vm_compute. reflexivity.
  - vm_compute. reflexivity.
Defined.
